(** * Trusera SDK for JavaScript (trusera-sdk-js)

    A shallow embedding of the event model ([src/events.ts]), of the
    dispatch client ([TruseraClient]: constructor, registerAgent, track,
    flush, close), of the transport interceptor ([TruseraInterceptor]) and
    of the LangChain callback handler ([TruseraLangChainHandler]), with the
    properties of the specification that concern them and further
    properties read off the code.

    JavaScript objects live in a heap and are handled through references, so
    that aliasing between the caller's maps and the maps held by an event is
    visible.  Methods are written in a state-and-exception monad: a thrown
    exception keeps the state changes made before it, as in JavaScript.  An
    [async] method is cut at its [await]s: the part that runs up to the first
    [await], and the part that runs when the awaited promise settles.  The
    network, the serialiser, the clock and the source of identifiers are
    parameters.  Numbers are integers. *)

From Stdlib Require Import ZArith String List Bool Lia.
From stdpp Require Import base option list gmap strings pretty fin_maps.

Local Open Scope string_scope.

(* ===================================================================== *)
(** ** JavaScript values, objects and the heap *)
(* ===================================================================== *)

Module Js.

(** A heap location: the index of the object in the heap. *)
Definition loc := nat.

(** Run-time values.  Numbers are restricted to the integers. *)
Inductive Value :=
| VUndefined
| VNull
| VBool (b : bool)
| VNumber (n : Z)
| VString (s : string)
| VRef (l : loc).

#[global] Instance Value_eq_dec : EqDecision Value.
Proof. solve_decision. Defined.

(** A plain object: its own enumerable properties. *)
Abbreviation Obj := (gmap string Value).

(** The heap: objects are allocated at the end and never freed. *)
Abbreviation Heap := (list (gmap string Value)).

(** [typeof v]. *)
Definition typeof (v : Value) : string :=
  match v with
  | VUndefined => "undefined"
  | VNull => "object"
  | VBool _ => "boolean"
  | VNumber _ => "number"
  | VString _ => "string"
  | VRef _ => "object"
  end.

(** An error value, as built by [new Error(message)]. *)
Record JsError := mkError { err_name : string; err_message : string }.

Definition Error (msg : string) : JsError := mkError "Error" msg.

(** How an evaluation completes: normally, or by a [throw]. *)
Inductive Completion (A : Type) :=
| Normal (a : A)
| Throw (e : JsError).
Arguments Normal {A} a.
Arguments Throw {A} e.

(** State-and-exception monad over a state [S]. *)
Definition M (S A : Type) : Type := S -> Completion A * S.

Definition ret {S A} (a : A) : M S A := fun s => (Normal a, s).

Definition bind {S A B} (m : M S A) (k : A -> M S B) : M S B :=
  fun s => match m s with
           | (Normal a, s') => k a s'
           | (Throw e, s') => (Throw e, s')
           end.

Definition throw {S A} (e : JsError) : M S A := fun s => (Throw e, s).

(** [try { m } catch (e) { h e }]. *)
Definition try_catch {S A} (m : M S A) (h : JsError -> M S A) : M S A :=
  fun s => match m s with
           | (Normal a, s') => (Normal a, s')
           | (Throw e, s') => h e s'
           end.

Definition get {S} : M S S := fun s => (Normal s, s).
Definition modify {S} (f : S -> S) : M S unit := fun s => (Normal tt, f s).

(** Running a computation on a component of the state. *)
Definition zoom {S T A} (proj : S -> T) (upd : T -> S -> S) (m : M T A) : M S A :=
  fun s => let '(r, t) := m (proj s) in (r, upd t s).

(** Property read [o.k] on an object: a missing property is [undefined]. *)
Definition prop (o : Obj) (k : string) : Value := default VUndefined (o !! k).

(** The own properties of the object a value denotes, as the spread
    [{...v}] sees them: nothing for [undefined], [null] and the other
    primitives handled here. *)
Definition spread (h : Heap) (v : Value) : Obj :=
  match v with
  | VRef l => default ∅ (h !! l)
  | _ => ∅
  end.

(** Member access [v.k]: a [TypeError] ([None]) on [undefined] and [null]. *)
Definition member (h : Heap) (v : Value) (k : string) : option Value :=
  match v with
  | VUndefined | VNull => None
  | VRef l => Some (prop (default ∅ (h !! l)) k)
  | _ => Some VUndefined
  end.

(** A chain of member accesses [v.k1.k2...]. *)
Fixpoint read_path (h : Heap) (v : Value) (path : list string) : option Value :=
  match path with
  | [] => Some v
  | k :: rest =>
      match member h v k with
      | Some v' => read_path h v' rest
      | None => None
      end
  end.

(** Assignments a program can make to an object it holds a reference to. *)
Inductive Mutation :=
| SetProp (l : loc) (k : string) (v : Value)     (* obj[k] = v *)
| DeleteProp (l : loc) (k : string).             (* delete obj[k] *)

Definition mutation_target (m : Mutation) : loc :=
  match m with SetProp l _ _ => l | DeleteProp l _ => l end.

Definition apply_mutation (h : Heap) (m : Mutation) : Heap :=
  match m with
  | SetProp l k v =>
      match h !! l with
      | Some o => <[l := <[k := v]> o]> h
      | None => h
      end
  | DeleteProp l k =>
      match h !! l with
      | Some o => <[l := delete k o]> h
      | None => h
      end
  end.

Definition apply_mutations (h : Heap) (ms : list Mutation) : Heap :=
  fold_left apply_mutation ms h.

End Js.

Export Js.

Declare Scope js_scope.
Delimit Scope js_scope with js.
Notation "x <- m ;; k" := (bind m (fun x => k))
  (at level 100, m at next level, right associativity) : js_scope.
Notation "m ;;; k" := (bind m (fun _ => k))
  (at level 100, right associativity) : js_scope.

(* ===================================================================== *)
(** ** The environment and the world *)
(* ===================================================================== *)

(** An outbound HTTP request, as handed to [fetch]. *)
Record Request := mkRequest {
  req_url : string;
  req_method : string;
  req_headers : list (string * string);
  req_body : string
}.

(** What the client reads from a [Response]. *)
Record Response := mkResponse {
  resp_ok : bool;
  resp_status : Z;
  resp_text : Completion string;            (* await response.text() *)
  resp_agent_id : Completion (option string) (* (await response.json()).agent_id *)
}.

(** The promise returned by [fetch] resolves or rejects. *)
Inductive FetchOutcome :=
| Resolved (r : Response)
| Rejected (e : JsError).

(** What the program does not control. *)
Record Env := mkEnv {
  (** the outcome of the [n]-th call of [fetch], given its request *)
  fetch_outcome : nat -> Request -> FetchOutcome;
  (** [JSON.stringify({ events: batch })]: throws on cyclic values *)
  jsonStringify : Heap -> list loc -> Completion string;
  (** the [n]-th result of [crypto.randomUUID()] *)
  randomUUID : nat -> string;
  (** the [n]-th result of [new Date().toISOString()] *)
  nowISO : nat -> string
}.

(** A line written to the console. *)
Inductive ConsoleLine :=
| ConsoleLog (msg : string)
| ConsoleError (msg : string).

(** An invocation of the async [flush] suspended at one of its [await]s. *)
Inductive FlushTask :=
| AwaitFetch (batch : list loc) (n : nat) (req : Request)
| AwaitText (batch : list loc) (r : Response).

Record World := mkWorld {
  heap : Heap;
  net : list Request;            (* calls of fetch so far, oldest first *)
  console : list ConsoleLine;    (* oldest first *)
  uuids : nat;                   (* calls of randomUUID so far *)
  clock : nat;                   (* reads of the clock so far *)
  timers : gset nat;             (* active interval timers *)
  timer_count : nat;             (* timers created so far *)
  pending : list FlushTask       (* fire-and-forget flushes in flight *)
}.

Definition set_heap (h : Heap) (w : World) : World :=
  mkWorld h (net w) (console w) (uuids w) (clock w) (timers w) (timer_count w) (pending w).
Definition set_net (n : list Request) (w : World) : World :=
  mkWorld (heap w) n (console w) (uuids w) (clock w) (timers w) (timer_count w) (pending w).
Definition set_console (c : list ConsoleLine) (w : World) : World :=
  mkWorld (heap w) (net w) c (uuids w) (clock w) (timers w) (timer_count w) (pending w).
Definition set_uuids (n : nat) (w : World) : World :=
  mkWorld (heap w) (net w) (console w) n (clock w) (timers w) (timer_count w) (pending w).
Definition set_clock (n : nat) (w : World) : World :=
  mkWorld (heap w) (net w) (console w) (uuids w) n (timers w) (timer_count w) (pending w).
Definition set_timers (t : gset nat) (n : nat) (w : World) : World :=
  mkWorld (heap w) (net w) (console w) (uuids w) (clock w) t n (pending w).
Definition set_pending (p : list FlushTask) (w : World) : World :=
  mkWorld (heap w) (net w) (console w) (uuids w) (clock w) (timers w) (timer_count w) p.

Section WorldPrimitives.
Context (env : Env).
Local Open Scope js_scope.

(** Allocation of a fresh object. *)
Definition alloc (o : Obj) : M World loc :=
  fun w => (Normal (length (heap w)), set_heap (heap w ++ [o]) w).

Definition crypto_randomUUID : M World string :=
  fun w => (Normal (randomUUID env (uuids w)), set_uuids (S (uuids w)) w).

Definition Date_now_toISOString : M World string :=
  fun w => (Normal (nowISO env (clock w)), set_clock (S (clock w)) w).

Definition console_log (msg : string) : M World unit :=
  modify (fun w => set_console (console w ++ [ConsoleLog msg]) w).

Definition console_error (msg : string) : M World unit :=
  modify (fun w => set_console (console w ++ [ConsoleError msg]) w).

(** [fetch(req)]: the call is recorded; the promise settles later. *)
Definition fetch_call (req : Request) : M World nat :=
  fun w => (Normal (length (net w)), set_net (net w ++ [req]) w).

Definition setInterval : M World nat :=
  fun w => (Normal (timer_count w),
            set_timers ({[timer_count w]} ∪ timers w) (S (timer_count w)) w).

Definition clearInterval (t : nat) : M World unit :=
  modify (fun w => set_timers (timers w ∖ {[t]}) (timer_count w) w).
End WorldPrimitives.

(* ===================================================================== *)
(** ** src/events.ts *)
(* ===================================================================== *)

Module Events.

Inductive EventType :=
| TOOL_CALL
| LLM_INVOKE
| DATA_ACCESS
| API_CALL
| FILE_WRITE
| DECISION.

(** The string value of each member of the enum. *)
Definition EventType_value (t : EventType) : string :=
  match t with
  | TOOL_CALL => "tool_call"
  | LLM_INVOKE => "llm_invoke"
  | DATA_ACCESS => "data_access"
  | API_CALL => "api_call"
  | FILE_WRITE => "file_write"
  | DECISION => "decision"
  end.

(** [Object.values(EventType)]. *)
Definition Object_values_EventType : list Value :=
  map (fun t => VString (EventType_value t))
      [TOOL_CALL; LLM_INVOKE; DATA_ACCESS; API_CALL; FILE_WRITE; DECISION].

(** [Array.prototype.includes]. *)
Definition includes (l : list Value) (v : Value) : bool :=
  existsb (fun x => bool_decide (x = v)) l.

(** The object literal returned by [createEvent]. *)
Definition event_object (id : string) (type : EventType) (name : string)
    (payload metadata : loc) (timestamp : string) : Obj :=
  <["timestamp" := VString timestamp]>
  (<["metadata" := VRef metadata]>
  (<["payload" := VRef payload]>
  (<["name" := VString name]>
  (<["type" := VString (EventType_value type)]>
  (<["id" := VString id]> ∅))))).

(** The value of an optional object argument. *)
Definition arg_value (arg : option loc) : Value :=
  match arg with Some l => VRef l | None => VUndefined end.

Section CreateEvent.
Context (env : Env).
Local Open Scope js_scope.

(** A parameter with the default value [{}]: a fresh empty object when the
    argument is omitted. *)
Definition default_object (arg : option loc) : M World Value :=
  match arg with
  | Some l => ret (VRef l)
  | None => l <- alloc ∅ ;; ret (VRef l)
  end.

(** The body of [createEvent]: the object literal it returns. *)
Definition build_event (type : EventType) (name : string)
    (payload metadata : Value) : M World Value :=
  id <- crypto_randomUUID env ;;
  w <- get ;;
  p <- alloc (spread (heap w) payload) ;;
  w <- get ;;
  m <- alloc (spread (heap w) metadata) ;;
  timestamp <- Date_now_toISOString env ;;
  e <- alloc (event_object id type name p m timestamp) ;;
  ret (VRef e).

(** [createEvent(type, name, payload = {}, metadata = {})]. *)
Definition createEvent (type : EventType) (name : string)
    (payload metadata : option loc) : M World Value :=
  payload <- default_object payload ;;
  metadata <- default_object metadata ;;
  build_event type name payload metadata.
End CreateEvent.

(** [isValidEvent(obj)]. *)
Definition isValidEvent (h : Heap) (obj : Value) : bool :=
  if negb (typeof obj =? "object") || bool_decide (obj = VNull) then false
  else
    let e := spread h obj in
    (typeof (prop e "id") =? "string") &&
    (typeof (prop e "type") =? "string") &&
    includes Object_values_EventType (prop e "type") &&
    (typeof (prop e "name") =? "string") &&
    (typeof (prop e "payload") =? "object") &&
    negb (bool_decide (prop e "payload" = VNull)) &&
    (typeof (prop e "metadata") =? "object") &&
    negb (bool_decide (prop e "metadata" = VNull)) &&
    (typeof (prop e "timestamp") =? "string").

End Events.

Export Events.

(* ===================================================================== *)
(** ** The dispatch client (class TruseraClient) *)
(* ===================================================================== *)

Module Client.

(** [TruseraClientOptions]: every field but [apiKey] is optional. *)
Record TruseraClientOptions := mkOptions {
  opt_apiKey : string;
  opt_baseUrl : option string;
  opt_agentId : option string;
  opt_flushInterval : option Z;
  opt_batchSize : option Z;
  opt_debug : option bool
}.

(** The fields of a [TruseraClient]. *)
Record TruseraClient := mkClient {
  apiKey : string;
  baseUrl : string;
  batchSize : Z;
  flushInterval : Z;
  debug : bool;
  agentId : option string;
  eventQueue : list loc;
  flushTimer : option nat;
  isClosed : bool
}.

Definition set_agentId (a : option string) (c : TruseraClient) : TruseraClient :=
  mkClient (apiKey c) (baseUrl c) (batchSize c) (flushInterval c) (debug c)
           a (eventQueue c) (flushTimer c) (isClosed c).
Definition set_eventQueue (q : list loc) (c : TruseraClient) : TruseraClient :=
  mkClient (apiKey c) (baseUrl c) (batchSize c) (flushInterval c) (debug c)
           (agentId c) q (flushTimer c) (isClosed c).
Definition set_flushTimer (t : option nat) (c : TruseraClient) : TruseraClient :=
  mkClient (apiKey c) (baseUrl c) (batchSize c) (flushInterval c) (debug c)
           (agentId c) (eventQueue c) t (isClosed c).
Definition set_isClosed (b : bool) (c : TruseraClient) : TruseraClient :=
  mkClient (apiKey c) (baseUrl c) (batchSize c) (flushInterval c) (debug c)
           (agentId c) (eventQueue c) (flushTimer c) b.

(** A method runs on its receiver and on the world. *)
Record State := mkState { this : TruseraClient; world : World }.

Definition in_world {A} (m : M World A) : M State A :=
  zoom world (fun w s => mkState (this s) w) m.

Definition update_this (f : TruseraClient -> TruseraClient) : M State unit :=
  modify (fun s => mkState (f (this s)) (world s)).

(** [a ?? b]. *)
Definition nullish {A} (a : option A) (b : A) : A := default b a.

(** The value of an optional string field. *)
Definition string_or_undefined (s : option string) : Value :=
  match s with Some x => VString x | None => VUndefined end.

(** [q.splice(0, n)] on an array of length [len]: the number of elements
    removed is [n] clamped to [0 .. len]. *)
Definition splice_count (n : Z) (len : nat) : nat :=
  Z.to_nat (Z.min (Z.max n 0) (Z.of_nat len)).

Definition SDK_VERSION : string := "0.1.0".

Section Methods.
Context (env : Env).
(** the body of the registration request, a function of name and framework *)
Context (registration_body : string -> string -> string).
Local Open Scope js_scope.

(** The world after [log(message)]: a console line in debug mode only. *)
Definition logged (c : TruseraClient) (message : string) (w : World) : World :=
  if debug c
  then set_console (console w ++ [ConsoleLog ("[Trusera] " ++ message)]) w
  else w.

(** [private log(message, data)]. *)
Definition log (message : string) : M State unit :=
  s <- get ;;
  if debug (this s)
  then in_world (console_log ("[Trusera] " ++ message))
  else ret tt.

(** [private startFlushTimer()]. *)
Definition startFlushTimer : M State unit :=
  t <- in_world setInterval ;;
  update_this (set_flushTimer (Some t)).

(** [private stopFlushTimer()]. *)
Definition stopFlushTimer : M State unit :=
  s <- get ;;
  match flushTimer (this s) with
  | Some t =>
      in_world (clearInterval t) ;;;
      update_this (set_flushTimer None)
  | None => ret tt
  end.

(** [constructor(options)]. *)
Definition constructor (options : TruseraClientOptions) : M World TruseraClient :=
  fun w =>
    let c := mkClient (opt_apiKey options)
                      (nullish (opt_baseUrl options) "https://api.trusera.io")
                      (nullish (opt_batchSize options) 100%Z)
                      (nullish (opt_flushInterval options) 5000%Z)
                      (nullish (opt_debug options) false)
                      (opt_agentId options)
                      []
                      None
                      false in
    if negb (String.prefix "tsk_" (apiKey c))
    then (Throw (Error "Invalid API key format. Must start with 'tsk_'"), w)
    else
      let '(r, s) := (startFlushTimer ;;; log "TruseraClient initialized") (mkState c w) in
      match r with
      | Normal _ => (Normal (this s), world s)
      | Throw e => (Throw e, world s)
      end.

Definition batch_request (c : TruseraClient) (body : string) : Request :=
  mkRequest (baseUrl c ++ "/api/v1/events/batch") "POST"
            [("Content-Type", "application/json");
             ("Authorization", "Bearer " ++ apiKey c)]
            body.

(** [this.eventQueue.unshift(...batch)]. *)
Definition requeue (batch : list loc) : M State unit :=
  update_this (fun c => set_eventQueue (batch ++ eventQueue c) c).

(** The [catch] block of [flush]. *)
Definition flush_catch (batch : list loc) (error : JsError) : M State unit :=
  in_world (console_error ("[Trusera] Network error sending events: " ++ err_message error)) ;;;
  requeue batch.

(** [flush()] up to its first [await]: the batch is taken from the head of
    the queue and the request is issued.  [None] when the call has
    completed without suspending. *)
Definition flush_start : M State (option FlushTask) :=
  s <- get ;;
  if Nat.eqb (length (eventQueue (this s))) 0 then ret None
  else
    let n := splice_count (batchSize (this s)) (length (eventQueue (this s))) in
    let batch := take n (eventQueue (this s)) in
    update_this (set_eventQueue (drop n (eventQueue (this s)))) ;;;
    log "Flushing events" ;;;
    try_catch
      (s <- get ;;
       match jsonStringify env (heap (world s)) batch with
       | Throw e => throw e
       | Normal body =>
           let req := batch_request (this s) body in
           n <- in_world (fetch_call req) ;;
           ret (Some (AwaitFetch batch n req))
       end)
      (fun error => flush_catch batch error ;;; ret None).

(** [flush()] resumed when the promise it awaits has settled. *)
Definition flush_resume (t : FlushTask) : M State (option FlushTask) :=
  match t with
  | AwaitFetch batch n req =>
      match fetch_outcome env n req with
      | Rejected error => flush_catch batch error ;;; ret None
      | Resolved response =>
          if negb (resp_ok response)
          then ret (Some (AwaitText batch response))
          else log "Events flushed successfully" ;;; ret None
      end
  | AwaitText batch response =>
      match resp_text response with
      | Throw error => flush_catch batch error ;;; ret None
      | Normal error =>
          in_world (console_error ("[Trusera] Failed to send events: "
                                   ++ pretty (resp_status response) ++ " " ++ error)) ;;;
          requeue batch ;;;
          ret None
      end
  end.

(** Awaiting a flush to completion, nothing else running in between: it has
    at most two suspension points. *)
Definition flush_await (t : option FlushTask) : M State unit :=
  match t with
  | None => ret tt
  | Some t1 =>
      t2 <- flush_resume t1 ;;
      match t2 with
      | None => ret tt
      | Some t3 => flush_resume t3 ;;; ret tt
      end
  end.

(** [await this.flush()]. *)
Definition flush : M State unit :=
  t <- flush_start ;;
  flush_await t.

(** [void this.flush()]: the call runs up to its first [await] and is left
    in flight; a rejection is not thrown to the caller. *)
Definition void_flush : M State unit :=
  try_catch
    (t <- flush_start ;;
     match t with
     | None => ret tt
     | Some t => in_world (modify (fun w => set_pending (pending w ++ [t]) w))
     end)
    (fun _ => ret tt).

(** The enriched copy built by [track]:
    [{ ...event, metadata: { ...event.metadata, agent_id, sdk_version } }]. *)
Definition enrich (event : Value) : M State loc :=
  s <- get ;;
  match member (heap (world s)) event "metadata" with
  | None => throw (mkError "TypeError" "Cannot read properties of undefined")
  | Some md =>
      m <- in_world (alloc (<["sdk_version" := VString SDK_VERSION]>
                           (<["agent_id" := string_or_undefined (agentId (this s))]>
                           (spread (heap (world s)) md)))) ;;
      in_world (alloc (<["metadata" := VRef m]> (spread (heap (world s)) event)))
  end.

(** [track(event)]. *)
Definition track (event : Value) : M State unit :=
  s <- get ;;
  if isClosed (this s) then throw (Error "Cannot track events on closed client")
  else
    enrichedEvent <- enrich event ;;
    update_this (fun c => set_eventQueue (eventQueue c ++ [enrichedEvent]) c) ;;;
    log "Event tracked" ;;;
    s <- get ;;
    if (batchSize (this s) <=? Z.of_nat (length (eventQueue (this s))))%Z
    then void_flush
    else ret tt.

(** [close()]. *)
Definition close : M State unit :=
  log "Closing client" ;;;
  update_this (set_isClosed true) ;;;
  stopFlushTimer ;;;
  flush ;;;
  log "Client closed".

(** The batch the next [flush] takes from the head of the queue. *)
Definition next_batch (c : TruseraClient) : list loc :=
  take (splice_count (batchSize c) (length (eventQueue c))) (eventQueue c).

(** How the delivery attempt of the next [flush] ends: the batch is
    delivered when the request is built, [fetch] resolves and the response
    is a success (2xx); it fails on a non-success response, on a rejected
    [fetch] and when the request cannot be built. *)
Inductive SendResult := Delivered | Failed.

Definition send_result (s : State) : SendResult :=
  match jsonStringify env (heap (world s)) (next_batch (this s)) with
  | Throw _ => Failed
  | Normal body =>
      match fetch_outcome env (length (net (world s)))
                          (batch_request (this s) body) with
      | Rejected _ => Failed
      | Resolved response => if resp_ok response then Delivered else Failed
      end
  end.

(** [getQueueSize()]. *)
Definition getQueueSize (c : TruseraClient) : nat := length (eventQueue c).

(** [getAgentId()]. *)
Definition getAgentId (c : TruseraClient) : option string := agentId c.

Definition register_request (c : TruseraClient) (name framework : string) : Request :=
  mkRequest (baseUrl c ++ "/api/v1/agents/register") "POST"
            [("Content-Type", "application/json");
             ("Authorization", "Bearer " ++ apiKey c)]
            (registration_body name framework).

(** [registerAgent(name, framework)], awaited to completion. *)
Definition registerAgent (name framework : string) : M State (option string) :=
  log "Registering agent" ;;;
  s <- get ;;
  let req := register_request (this s) name framework in
  n <- in_world (fetch_call req) ;;
  match fetch_outcome env n req with
  | Rejected e => throw e
  | Resolved response =>
      if negb (resp_ok response)
      then match resp_text response with
           | Throw e => throw e
           | Normal error =>
               throw (Error ("Failed to register agent: "
                             ++ pretty (resp_status response) ++ " " ++ error))
           end
      else match resp_agent_id response with
           | Throw e => throw e
           | Normal a =>
               update_this (set_agentId a) ;;;
               log "Agent registered" ;;;
               ret a
           end
  end.

(** The interval timer fires: [void this.flush()], while the timer is active. *)
Definition timer_fires : M State unit :=
  s <- get ;;
  match flushTimer (this s) with
  | Some t => if bool_decide (t ∈ timers (world s)) then void_flush else ret tt
  | None => ret tt
  end.

(** The event loop resumes the [i]-th flush in flight. *)
Definition settle (i : nat) : M State unit :=
  s <- get ;;
  match pending (world s) !! i with
  | None => ret tt
  | Some t =>
      in_world (modify (fun w => set_pending (delete i (pending w)) w)) ;;;
      t' <- flush_resume t ;;
      match t' with
      | None => ret tt
      | Some t'' => in_world (modify (fun w => set_pending (pending w ++ [t'']) w))
      end
  end.

(** What a program can do with a client, and what the runtime does to it. *)
Inductive ClientOp :=
| OpTrack (event : Value)
| OpFlush
| OpClose
| OpRegisterAgent (name framework : string)
| OpTimerFires
| OpSettle (i : nat).

(** One operation, whatever its completion: a caller may catch what it throws. *)
Definition run_op (s : State) (op : ClientOp) : State :=
  match op with
  | OpTrack event => snd (track event s)
  | OpFlush => snd (flush s)
  | OpClose => snd (close s)
  | OpRegisterAgent name framework => snd (registerAgent name framework s)
  | OpTimerFires => snd (timer_fires s)
  | OpSettle i => snd (settle i s)
  end.

Definition run_ops (ops : list ClientOp) (s : State) : State :=
  fold_left run_op ops s.

End Methods.

(** Two worlds that differ at most by what was written to the console and
    by the requests issued. *)
Definition same_store (w w' : World) : Prop :=
  heap w' = heap w /\ timers w' = timers w /\ pending w' = pending w.

(** The events a flush in flight holds. *)
Definition task_batch (t : FlushTask) : list loc :=
  match t with
  | AwaitFetch batch _ _ => batch
  | AwaitText batch _ => batch
  end.

End Client.

Export Client.

(* ===================================================================== *)
(** ** The transport interceptor (class TruseraInterceptor) *)
(* ===================================================================== *)

Module Interceptor.

(** Modelled from the spec: the implementation of the interceptor
    (src/interceptor.ts) is not among the sources; only its tests and its
    callers are.  The enforcement modes of section 4.2. *)
Inductive Enforcement := Log | Warn | Block.

(** Modelled from the spec: an exclude pattern (src/interceptor.ts is
    missing).  A regular expression is represented by its test against the
    full request URL. *)
Definition Pattern := string -> bool.

(** Modelled from the spec: the install options of section 4.2
    (src/interceptor.ts is missing). *)
Record InterceptorOptions := mkInterceptorOptions {
  enforcement : Enforcement;
  policyUrl : option string;
  excludePatterns : list Pattern;
  verbose : bool
}.

(** Modelled from the spec: the defaults of the install options (section
    4.2: enforcement [log], no policy URL, no exclude pattern;
    src/interceptor.ts is missing). *)
Definition default_options : InterceptorOptions :=
  mkInterceptorOptions Log None [] false.

(** Modelled from the spec: a function that can sit in the global transport
    slot (src/interceptor.ts is missing): either some function the
    interceptor did not make (the runtime's own, a test double, ...), or the
    intercepting function of an interceptor instance. *)
Inductive Transport :=
| Plain (id : nat)
| Intercepting (owner : nat).

#[global] Instance Transport_eq_dec : EqDecision Transport.
Proof. solve_decision. Defined.

(** Modelled from the spec: the state of one interceptor instance (section 3,
    src/interceptor.ts is missing): its installed flag, the transport saved
    at install, and its options. *)
Record Instance := mkInstance {
  installed : bool;
  saved : option Transport;
  options : InterceptorOptions
}.

(** Modelled from the spec: an instance just made by
    [new TruseraInterceptor()], not installed (src/interceptor.ts is
    missing). *)
Definition fresh_instance : Instance := mkInstance false None default_options.

(** Modelled from the spec: the process-wide state (section 3,
    src/interceptor.ts is missing): the global transport function, the
    instance holding the slot, and the instances created so far. *)
Record Process := mkProcess {
  globalFetch : Transport;
  active : option nat;
  instances : gmap nat Instance
}.

Definition instance_of (p : Process) (i : nat) : Instance :=
  default fresh_instance (instances p !! i).

Definition is_installed (p : Process) (i : nat) : bool :=
  installed (instance_of p i).

(** Modelled from the spec: the error of a conflicting [install]
    (section 7; src/interceptor.ts is missing).  Its message is the one the
    tests expect. *)
Definition AlreadyInstalledError : JsError :=
  mkError "Error" "Another TruseraInterceptor is already installed".

(** Modelled from the spec: [install(client, options)] of section 4.2
    (src/interceptor.ts is missing). *)
Definition install (i : nat) (o : InterceptorOptions) : M Process unit :=
  fun p =>
    match active p with
    | Some j =>
        if bool_decide (j = i) then (Normal tt, p)
        else (Throw AlreadyInstalledError, p)
    | None =>
        (Normal tt,
         mkProcess (Intercepting i) (Some i)
                   (<[i := mkInstance true (Some (globalFetch p)) o]> (instances p)))
    end.

(** Modelled from the spec: [uninstall()] of section 4.2
    (src/interceptor.ts is missing). *)
Definition uninstall (i : nat) : M Process unit :=
  fun p =>
    let self := instance_of p i in
    if installed self then
      match saved self with
      | Some t =>
          (Normal tt,
           mkProcess t None
                     (<[i := mkInstance false None (options self)]> (instances p)))
      | None => (Normal tt, p)
      end
    else (Normal tt, p).

(** What code running in the process can do to the transport slot. *)
Inductive Op :=
| Install (i : nat) (o : InterceptorOptions)
| Uninstall (i : nat)
| AssignFetch (t : nat).       (* globalThis.fetch = some other function *)

Definition step (p : Process) (op : Op) : Process :=
  match op with
  | Install i o => snd (install i o p)
  | Uninstall i => snd (uninstall i p)
  | AssignFetch t => mkProcess (Plain t) (active p) (instances p)
  end.

Definition run (ops : list Op) (p : Process) : Process := fold_left step ops p.

(** A process in which no interceptor has been created yet. *)
Definition initial (t : nat) : Process := mkProcess (Plain t) None ∅.

Inductive reachable : Process -> Prop :=
| reachable_initial t : reachable (initial t)
| reachable_step p op : reachable p -> reachable (step p op).

(** The installed flags agree with the slot, and the holder of the slot has
    a saved transport. *)
Definition slot_consistent (p : Process) : Prop :=
  forall i, is_installed p i = true <->
            (active p = Some i /\ exists t, saved (instance_of p i) = Some t).

(** Modelled from the spec: the arguments of an outbound call and the
    normalized request descriptor of step 1 (src/interceptor.ts is
    missing). *)
Inductive UrlSource :=
| UrlString (s : string)
| UrlObject (href : string)
| RequestObject (url method : string) (headers : list (string * string)).

(** Modelled from the spec: a header source, collection-like or plain
    mapping (section 9; src/interceptor.ts is missing). *)
Inductive HeaderSource :=
| HeadersCollection (entries : list (string * string))
| HeadersPlain (entries : list (string * string)).

(** Modelled from the spec: a request body; only a plain string is
    captured (step 1; src/interceptor.ts is missing). *)
Inductive BodySource :=
| BodyString (s : string)
| BodyOther.

Record Init := mkInit {
  init_method : option string;
  init_headers : option HeaderSource;
  init_body : option BodySource
}.

Record CallArgs := mkCallArgs { input : UrlSource; init : option Init }.

Record RequestDescriptor := mkDescriptor {
  rd_method : string;
  rd_url : string;
  rd_headers : list (string * string);
  rd_body : option string
}.

Definition header_entries (h : HeaderSource) : list (string * string) :=
  match h with HeadersCollection e => e | HeadersPlain e => e end.

(** Modelled from the spec: step 1, the normalized request descriptor
    (method defaults to GET; src/interceptor.ts is missing). *)
Definition describe (a : CallArgs) : RequestDescriptor :=
  let url := match input a with
             | UrlString s => s
             | UrlObject href => href
             | RequestObject u _ _ => u
             end in
  let method :=
    match init a ≫= init_method with
    | Some m => m
    | None => match input a with RequestObject _ m _ => m | _ => "GET" end
    end in
  let headers :=
    match init a ≫= init_headers with
    | Some h => header_entries h
    | None => match input a with RequestObject _ _ h => h | _ => [] end
    end in
  let body :=
    match init a ≫= init_body with
    | Some (BodyString s) => Some s
    | _ => None
    end in
  mkDescriptor method url headers body.

(** Modelled from the spec: the events the interceptor hands to the dispatch
    client, all of type api-call (src/interceptor.ts is missing). *)
Inductive Emitted :=
| CallStarted (d : RequestDescriptor)
| CallCompleted (status : Z) (headers : list (string * string))
| CallErrored (message : string).

(** Modelled from the spec: the decision of the policy endpoint (section
    6; src/interceptor.ts is missing). *)
Inductive Decision := Allow | Deny.

(** The policy service answers with a decision and its reasons, or the
    evaluation fails (unreachable service, error response, unreadable
    body). *)
Inductive PolicyOutcome :=
| Decided (d : Decision) (reasons : list string)
| PolicyFailure (e : JsError).

Record CallResponse := mkCallResponse {
  cr_status : Z;
  cr_headers : list (string * string)
}.

Inductive CallOutcome :=
| CallResolved (r : CallResponse)
| CallRejected (e : JsError).

(** Modelled from the spec: the calls that leave the process, each through
    a transport (src/interceptor.ts is missing).  The tests of the
    interceptor (src/unnamed/part_000, policy enforcement) answer the policy
    request with their double of the transport saved at install: the policy
    request goes out through that transport, like the real call. *)
Inductive NetCall :=
| PolicyCall (via : Transport) (url : string) (d : RequestDescriptor)
| RealCall (via : Transport) (a : CallArgs).

Definition is_real_call (c : NetCall) : bool :=
  match c with RealCall _ _ => true | PolicyCall _ _ _ => false end.

(** The transport a call goes through. *)
Definition carrier (c : NetCall) : Transport :=
  match c with PolicyCall via _ _ => via | RealCall via _ => via end.

Record Trace := mkTrace {
  emitted : list Emitted;
  calls : list NetCall;
  warnings : list string;
  diagnostics : list string
}.

(** Modelled from the spec: the error of a blocked call, naming the denial
    reason (section 4.2; src/interceptor.ts is missing).  The prefix of the
    message is the one the tests expect. *)
Definition PolicyViolationError (reason : string) : JsError :=
  mkError "PolicyViolationError" ("[Trusera] Policy violation: " ++ reason).

(** Modelled from the spec: the first denial reason (src/interceptor.ts is
    missing); the spec does not say what is named when the policy gives no
    reason, the empty string stands for it. *)
Definition first_reason (reasons : list string) : string :=
  default "" (head reasons).

Section Interception.
(** what the transport saved at install answers to the policy request, as
    the interceptor reads it, and what a transport answers to a call *)
Context (policy_service : string -> RequestDescriptor -> PolicyOutcome).
Context (transport : Transport -> CallArgs -> CallOutcome).
Local Open Scope js_scope.

Definition emit (e : Emitted) : M Trace unit :=
  modify (fun t => mkTrace (emitted t ++ [e]) (calls t) (warnings t) (diagnostics t)).

Definition record_call (c : NetCall) : M Trace unit :=
  modify (fun t => mkTrace (emitted t) (calls t ++ [c]) (warnings t) (diagnostics t)).

Definition console_warn (msg : string) : M Trace unit :=
  modify (fun t => mkTrace (emitted t) (calls t) (warnings t ++ [msg]) (diagnostics t)).

Definition diagnostic (msg : string) : M Trace unit :=
  modify (fun t => mkTrace (emitted t) (calls t) (warnings t) (diagnostics t ++ [msg])).

(** Modelled from the spec: step 3, first match wins
    (src/interceptor.ts is missing). *)
Definition is_excluded (o : InterceptorOptions) (url : string) : bool :=
  existsb (fun pat => pat url) (excludePatterns o).

(** Modelled from the spec: step 4 (src/interceptor.ts is missing).  The
    [log] mode never calls the policy service; a failing evaluation is
    treated as Allow in every mode.  The policy request is issued through
    [next], the transport saved at install, as in the tests of the
    interceptor, whose double of that transport answers it. *)
Definition evaluate_policy (o : InterceptorOptions) (next : Transport)
    (d : RequestDescriptor) : M Trace unit :=
  match enforcement o, policyUrl o with
  | Log, _ => ret tt
  | _, None => ret tt
  | mode, Some url =>
      record_call (PolicyCall next url d) ;;;
      match policy_service url d with
      | PolicyFailure e =>
          diagnostic ("[Trusera] Policy check failed: " ++ err_message e)
      | Decided Allow _ => ret tt
      | Decided Deny reasons =>
          match mode with
          | Block => throw (PolicyViolationError (first_reason reasons))
          | _ => console_warn ("[Trusera] Policy violation (allowed): "
                               ++ first_reason reasons)
          end
      end
  end.

(** Modelled from the spec: step 5, the real call through the saved prior
    transport, arguments forwarded unchanged (src/interceptor.ts is
    missing). *)
Definition call_next (next : Transport) (a : CallArgs) : M Trace CallResponse :=
  record_call (RealCall next a) ;;;
  match transport next a with
  | CallResolved r => ret r
  | CallRejected e => throw e
  end.

(** Modelled from the spec: the interception algorithm of section 4.2,
    steps 1 to 6 (src/interceptor.ts is missing).  An excluded call emits
    no event at all, so the exclusion test comes before the emission of
    step 2. *)
Definition intercepted_fetch (o : InterceptorOptions) (next : Transport)
    (a : CallArgs) : M Trace CallResponse :=
  let d := describe a in
  if is_excluded o (rd_url d) then call_next next a
  else
    emit (CallStarted d) ;;;
    evaluate_policy o next d ;;;
    try_catch
      (r <- call_next next a ;;
       emit (CallCompleted (cr_status r) (cr_headers r)) ;;;
       ret r)
      (fun e => emit (CallErrored (err_message e)) ;;; throw e).

End Interception.

(** The completion a caller sees when the real call settles with [c]. *)
Definition completion_of (c : CallOutcome) : Completion CallResponse :=
  match c with
  | CallResolved r => Normal r
  | CallRejected e => Throw e
  end.

Definition real_calls (t : Trace) : list NetCall := filter is_real_call (calls t).

(** The calls a transport has received, oldest first; their number is its
    call count. *)
Definition transport_calls (via : Transport) (t : Trace) : list NetCall :=
  filter (fun c => carrier c = via) (calls t).

End Interceptor.

Export Interceptor.

(* ===================================================================== *)
(** ** Sample values *)
(* ===================================================================== *)

Module Sample.

Definition response_200 : Response :=
  mkResponse true 200 (Normal "{}") (Normal (Some "agent-456")).

Definition response_500 : Response :=
  mkResponse false 500 (Normal "Internal Server Error") (Normal None).

Definition env_with (outcome : FetchOutcome) : Env :=
  mkEnv (fun _ _ => outcome)
        (fun _ batch => Normal ("{events:" ++ pretty (length batch) ++ "}"))
        (fun n => "uuid-" ++ pretty n)
        (fun n => "2026-01-01T00:00:00." ++ pretty n ++ "Z").

(** every request is answered 200 *)
Definition env_ok : Env := env_with (Resolved response_200).
(** every request is answered 500 *)
Definition env_500 : Env := env_with (Resolved response_500).
(** the network is down *)
Definition env_down : Env := env_with (Rejected (Error "Network error")).


Definition registration_body (name framework : string) : string :=
  "{name:" ++ name ++ ",framework:" ++ framework ++ "}".

Definition empty_world : World := mkWorld [] [] [] 0 0 ∅ 0 [].

(** [const nested = { x: 1 }; const payload = { nested };] *)
Definition nested_world : World :=
  mkWorld [ {[ "x" := VNumber 1 ]}; {[ "nested" := VRef 0 ]} ] [] [] 0 0 ∅ 0 [].

Definition options (batch : Z) : TruseraClientOptions :=
  mkOptions "tsk_test123" None (Some "agent-123") (Some 999999%Z) (Some batch) None.

(** [new TruseraClient({ apiKey: "tsk_test123", batchSize, ... })] in an
    empty world. *)
Definition new_client (batch : Z) : State :=
  match constructor (options batch) empty_world with
  | (Normal c, w) => mkState c w
  | (Throw _, w) => mkState (mkClient "" "" 0 0 false None [] None true) w
  end.

(** The client after [n] calls of [track(createEvent(TOOL_CALL, "test"))]. *)
Fixpoint tracked (env : Env) (batch : Z) (n : nat) : State :=
  match n with
  | 0 => new_client batch
  | S k =>
      let s := tracked env batch k in
      match createEvent env TOOL_CALL "test" None None (world s) with
      | (Normal e, w) => snd (track env e (mkState (this s) w))
      | (Throw _, w) => mkState (this s) w
      end
  end.

(** A created event, ready to be tracked, and the state it lives in. *)
Definition with_event (env : Env) (s : State) : Value * State :=
  match createEvent env TOOL_CALL "test.tool" None None (world s) with
  | (Normal e, w) => (e, mkState (this s) w)
  | (Throw _, w) => (VUndefined, mkState (this s) w)
  end.

(** A client with batch size 2 that holds five pending events. *)
Definition backlog : State :=
  mkState (mkClient "tsk_test123" "https://api.trusera.io" 2 999999 false
                    None [0; 1; 2; 3; 4] None false)
          (mkWorld (replicate 5 ∅) [] [] 0 0 ∅ 0 []).

Definition block_options : InterceptorOptions :=
  mkInterceptorOptions Block (Some "https://policy.example.com/evaluate") [] false.

Definition policy_down (url : string) (d : RequestDescriptor) : PolicyOutcome :=
  PolicyFailure (Error "Policy service down").

Definition policy_deny (url : string) (d : RequestDescriptor) : PolicyOutcome :=
  Decided Deny ["Unauthorized API access"].

Definition transport_200 (via : Transport) (a : CallArgs) : CallOutcome :=
  CallResolved (mkCallResponse 200 []).

Definition call_example : CallArgs :=
  mkCallArgs (UrlString "https://api.example.com/test") None.

Definition empty_trace : Trace := mkTrace [] [] [] [].

End Sample.

(* ===================================================================== *)
(** ** The dispatch client: derived notions *)
(* ===================================================================== *)

Module ClientNotions.
Local Open Scope list_scope.

(** The heap once [track(event)] has built its enriched copy: the new
    metadata map, then the new event object. *)
Definition enriched_heap (s : State) (e : loc) : Heap :=
  let h := heap (world s) in
  h ++ [<["sdk_version" := VString SDK_VERSION]>
        (<["agent_id" := string_or_undefined (agentId (this s))]>
         (spread h (prop (spread h (VRef e)) "metadata")));
        <["metadata" := VRef (length h)]> (spread h (VRef e))].

(** The reference of the enriched copy. *)
Definition enriched_ref (s : State) : loc := length (heap (world s)) + 1.

(** The state of [track(event)] after the push and its log line, before the
    test of the batch size. *)
Definition pushed (s : State) (e : loc) : State :=
  let c1 := set_eventQueue (eventQueue (this s) ++ [enriched_ref s]) (this s) in
  mkState c1 (logged c1 "Event tracked" (set_heap (enriched_heap s e) (world s))).

(** The events a client holds: those of the flushes in flight, then those
    of its queue. *)
Definition held (s : State) : list loc :=
  concat (map task_batch (pending (world s))) ++ eventQueue (this s).

(** Every event the client holds is a valid event. *)
Definition holds_valid_events (s : State) : Prop :=
  Forall (fun e => isValidEvent (heap (world s)) (VRef e) = true) (held s).

(** An operation that tracks nothing but a valid event of the heap [h]. *)
Definition tracks_valid (h : Heap) (op : ClientOp) : Prop :=
  match op with
  | OpTrack event => isValidEvent h event = true
  | _ => True
  end.

(** An object with the six fields of an event, each of its kind. *)
Definition event_shaped (o : Obj) : Prop :=
  exists id ty name p m ts,
    o !! "id" = Some (VString id) /\
    o !! "type" = Some (VString (EventType_value ty)) /\
    o !! "name" = Some (VString name) /\
    o !! "payload" = Some (VRef p) /\
    o !! "metadata" = Some (VRef m) /\
    o !! "timestamp" = Some (VString ts).

End ClientNotions.

Export ClientNotions.


(* ===================================================================== *)
(** ** src/integrations/langchain.ts *)
(* ===================================================================== *)

Module LangChain.

(** Truthiness of a value; numbers are integers here, so there is no [NaN]. *)
Definition truthy (v : Value) : bool :=
  match v with
  | VUndefined | VNull => false
  | VBool b => b
  | VNumber n => negb (n =? 0)%Z
  | VString s => negb (s =? "")
  | VRef _ => true
  end.

(** An array as a heap object: its elements under their indices and its
    [length].  No array is spread by the handler, so that [length] is kept
    as an ordinary property does not show. *)
Definition array_object (vs : list Value) : Obj :=
  <["length" := VNumber (Z.of_nat (length vs))]>
    (list_to_map (imap (fun i v => (pretty i, v)) vs)).

(** A [TruseraLangChainHandler] with the client it refers to: the client is
    shared with the caller, who may use it between two callbacks. *)
Record Handler := mkHandler {
  client : State;
  pendingEvents : gmap string Value
}.

Definition set_client (c : State) (hs : Handler) : Handler :=
  mkHandler c (pendingEvents hs).
Definition set_pendingEvents (p : gmap string Value) (hs : Handler) : Handler :=
  mkHandler (client hs) p.

(** [new TruseraLangChainHandler(client)]. *)
Definition constructor (c : State) : Handler := mkHandler c ∅.

Definition in_client {A} (m : M State A) : M Handler A :=
  zoom client set_client m.

Definition on_heap {A} (m : M World A) : M Handler A := in_client (in_world m).

(** [this.pendingEvents.get(runId)]. *)
Definition Map_get (runId : string) : M Handler Value :=
  fun hs => (Normal (default VUndefined (pendingEvents hs !! runId)), hs).

(** [this.pendingEvents.set(runId, event)]. *)
Definition Map_set (runId : string) (event : Value) : M Handler unit :=
  modify (fun hs => set_pendingEvents (<[runId := event]> (pendingEvents hs)) hs).

(** [this.pendingEvents.delete(runId)]. *)
Definition Map_delete (runId : string) : M Handler unit :=
  modify (fun hs => set_pendingEvents (delete runId (pendingEvents hs)) hs).

(** [getPendingEventCount()]. *)
Definition getPendingEventCount (hs : Handler) : nat := size (pendingEvents hs).

(** [clearPendingEvents()]. *)
Definition clearPendingEvents (hs : Handler) : Handler := set_pendingEvents ∅ hs.

(** The properties a start handler writes itself in the metadata. *)
Definition run_metadata (runId : string) (parentRunId : option string)
    (tags : loc) : Obj :=
  <["tags" := VRef tags]>
    (<["parent_run_id" := string_or_undefined parentRunId]>
    (<["run_id" := VString runId]> ∅)).

Section Callbacks.
Context (env : Env).
(** the string an object converts to in a template literal *)
Context (object_to_string : Heap -> loc -> string).
(** [Object.keys(o)]: the order in which the own keys are enumerated *)
Context (Object_keys : Obj -> list string).
Local Open Scope js_scope.

(** The string a value converts to in a template literal. *)
Definition to_string (h : Heap) (v : Value) : string :=
  match v with
  | VUndefined => "undefined"
  | VNull => "null"
  | VBool true => "true"
  | VBool false => "false"
  | VNumber n => pretty n
  | VString s => s
  | VRef l => object_to_string h l
  end.

(** A parameter with the default value [{}], given a value: the default
    applies to [undefined] only. *)
Definition default_value (arg : Value) : M World Value :=
  match arg with
  | VUndefined => l <- alloc ∅ ;; ret (VRef l)
  | _ => ret arg
  end.

(** [createEvent] called on values read from an object, where the claims'
    [createEvent] takes optional references. *)
Definition createEvent_values (type : EventType) (name : string)
    (payload metadata : Value) : M World Value :=
  payload <- default_value payload ;;
  metadata <- default_value metadata ;;
  build_event env type name payload metadata.

(** [a ?? {}] and [a ?? []] on an optional reference. *)
Definition nullish_alloc (a : option loc) (o : Obj) : M World loc :=
  match a with
  | Some l => ret l
  | None => alloc o
  end.

(** The metadata literal of the start handlers:
    [{ run_id: runId, parent_run_id: parentRunId, tags: tags ?? [], ...metadata }];
    the properties of [metadata] come last and win. *)
Definition start_metadata (runId : string) (parentRunId : option string)
    (tags metadata : option loc) : M World loc :=
  tags <- nullish_alloc tags (array_object []) ;;
  w <- get ;;
  alloc (spread (heap w) (arg_value metadata) ∪ run_metadata runId parentRunId tags).

(** What the three start handlers share: the event is created, stored under
    the run id and then tracked. *)
Definition start_run (type : EventType) (name : string) (payload : loc)
    (runId : string) (parentRunId : option string)
    (tags metadata : option loc) : M Handler unit :=
  metadata <- on_heap (start_metadata runId parentRunId tags metadata) ;;
  event <- on_heap (createEvent env type name (Some payload) (Some metadata)) ;;
  Map_set runId event ;;;
  in_client (track env event).

(** What the six end and error handlers share, once the start event is
    found: the event named after the start event, with the payload
    [{ ...startEvent.payload, <added> }] and the metadata of the start event,
    is tracked, and the run is then forgotten. *)
Definition complete_run (type : EventType) (suffix : string)
    (startEvent : Value) (added : Obj) (runId : string) : M Handler unit :=
  hs <- get ;;
  let h := heap (world (client hs)) in
  let start := spread h startEvent in
  payload <- on_heap (alloc (added ∪ spread h (prop start "payload"))) ;;
  event <- on_heap (createEvent_values type
                      (to_string h (prop start "name") ++ suffix)
                      (VRef payload) (prop start "metadata")) ;;
  in_client (track env event) ;;;
  Map_delete runId.

(** [handleLLMStart(llm, prompts, runId, parentRunId, extraParams, tags, metadata)]. *)
Definition handleLLMStart (llm_name : string) (prompts : loc) (runId : string)
    (parentRunId : option string) (extraParams tags metadata : option loc)
    : M Handler unit :=
  invocation_params <- on_heap (nullish_alloc extraParams ∅) ;;
  hs <- get ;;
  payload <- on_heap (alloc
    (<["invocation_params" := VRef invocation_params]>
    (<["prompt_count" := prop (spread (heap (world (client hs))) (VRef prompts)) "length"]>
    (<["prompts" := VRef prompts]> ∅)))) ;;
  start_run LLM_INVOKE ("langchain.llm." ++ llm_name) payload
            runId parentRunId tags metadata.

(** [handleLLMEnd(output, runId)]; [generations] holds the texts of
    [output.generations]. *)
Definition handleLLMEnd (generations : list (list string)) (runId : string)
    : M Handler unit :=
  startEvent <- Map_get runId ;;
  if negb (truthy startEvent) then ret tt
  else
    let texts := concat generations in
    outputs <- on_heap (alloc (array_object (map VString texts))) ;;
    complete_run LLM_INVOKE ".completed" startEvent
      (<["output_count" := VNumber (Z.of_nat (length texts))]>
      (<["outputs" := VRef outputs]> ∅)) runId.

(** [handleLLMError(error, runId)]. *)
Definition handleLLMError (error : JsError) (runId : string) : M Handler unit :=
  startEvent <- Map_get runId ;;
  if negb (truthy startEvent) then ret tt
  else
    complete_run LLM_INVOKE ".error" startEvent
      (<["error_type" := VString (err_name error)]>
      (<["error" := VString (err_message error)]> ∅)) runId.

(** [handleToolStart(tool, input, runId, parentRunId, tags, metadata)]; the
    length of a string is its number of characters. *)
Definition handleToolStart (tool_name : string) (input : string)
    (runId : string) (parentRunId : option string)
    (tags metadata : option loc) : M Handler unit :=
  payload <- on_heap (alloc
    (<["input_length" := VNumber (Z.of_nat (String.length input))]>
    (<["input" := VString input]> ∅))) ;;
  start_run TOOL_CALL ("langchain.tool." ++ tool_name) payload
            runId parentRunId tags metadata.

(** [handleToolEnd(output, runId)]. *)
Definition handleToolEnd (output : string) (runId : string) : M Handler unit :=
  startEvent <- Map_get runId ;;
  if negb (truthy startEvent) then ret tt
  else
    complete_run TOOL_CALL ".completed" startEvent
      (<["output_length" := VNumber (Z.of_nat (String.length output))]>
      (<["output" := VString output]> ∅)) runId.

(** [handleToolError(error, runId)]. *)
Definition handleToolError (error : JsError) (runId : string) : M Handler unit :=
  startEvent <- Map_get runId ;;
  if negb (truthy startEvent) then ret tt
  else
    complete_run TOOL_CALL ".error" startEvent
      (<["error_type" := VString (err_name error)]>
      (<["error" := VString (err_message error)]> ∅)) runId.

(** [handleChainStart(chain, inputs, runId, parentRunId, tags, metadata)]. *)
Definition handleChainStart (chain_name : string) (inputs : loc)
    (runId : string) (parentRunId : option string)
    (tags metadata : option loc) : M Handler unit :=
  hs <- get ;;
  input_keys <- on_heap (alloc (array_object
    (map VString (Object_keys (spread (heap (world (client hs))) (VRef inputs)))))) ;;
  payload <- on_heap (alloc
    (<["input_keys" := VRef input_keys]>
    (<["inputs" := VRef inputs]> ∅))) ;;
  start_run DECISION ("langchain.chain." ++ chain_name) payload
            runId parentRunId tags metadata.

(** [handleChainEnd(outputs, runId)]. *)
Definition handleChainEnd (outputs : loc) (runId : string) : M Handler unit :=
  startEvent <- Map_get runId ;;
  if negb (truthy startEvent) then ret tt
  else
    hs <- get ;;
    output_keys <- on_heap (alloc (array_object
      (map VString (Object_keys (spread (heap (world (client hs))) (VRef outputs)))))) ;;
    complete_run DECISION ".completed" startEvent
      (<["output_keys" := VRef output_keys]>
      (<["outputs" := VRef outputs]> ∅)) runId.

(** [handleChainError(error, runId)]. *)
Definition handleChainError (error : JsError) (runId : string) : M Handler unit :=
  startEvent <- Map_get runId ;;
  if negb (truthy startEvent) then ret tt
  else
    complete_run DECISION ".error" startEvent
      (<["error_type" := VString (err_name error)]>
      (<["error" := VString (err_message error)]> ∅)) runId.

(** The callbacks the framework makes on the handler. *)
Inductive Callback :=
| LLMStart (llm_name : string) (prompts : loc) (runId : string)
    (parentRunId : option string) (extraParams tags metadata : option loc)
| LLMEnd (generations : list (list string)) (runId : string)
| LLMError (error : JsError) (runId : string)
| ToolStart (tool_name input runId : string) (parentRunId : option string)
    (tags metadata : option loc)
| ToolEnd (output runId : string)
| ToolError (error : JsError) (runId : string)
| ChainStart (chain_name : string) (inputs : loc) (runId : string)
    (parentRunId : option string) (tags metadata : option loc)
| ChainEnd (outputs : loc) (runId : string)
| ChainError (error : JsError) (runId : string).

Definition handle (cb : Callback) : M Handler unit :=
  match cb with
  | LLMStart n p r pr x t m => handleLLMStart n p r pr x t m
  | LLMEnd g r => handleLLMEnd g r
  | LLMError e r => handleLLMError e r
  | ToolStart n i r pr t m => handleToolStart n i r pr t m
  | ToolEnd o r => handleToolEnd o r
  | ToolError e r => handleToolError e r
  | ChainStart n i r pr t m => handleChainStart n i r pr t m
  | ChainEnd o r => handleChainEnd o r
  | ChainError e r => handleChainError e r
  end.

(** A sequence of callbacks; a callback that throws leaves the state it
    reached, and the caller goes on. *)
Definition handle_all (cbs : list Callback) (hs : Handler) : Handler :=
  fold_left (fun hs cb => snd (handle cb hs)) cbs hs.
End Callbacks.

(** The run a callback is about. *)
Definition run_id (cb : Callback) : string :=
  match cb with
  | LLMStart _ _ r _ _ _ _ | LLMEnd _ r | LLMError _ r
  | ToolStart _ _ r _ _ _ | ToolEnd _ r | ToolError _ r
  | ChainStart _ _ r _ _ _ | ChainEnd _ r | ChainError _ r => r
  end.

Definition is_start (cb : Callback) : bool :=
  match cb with
  | LLMStart _ _ _ _ _ _ _ | ToolStart _ _ _ _ _ _ | ChainStart _ _ _ _ _ _ => true
  | _ => false
  end.

(** The event type a callback reports under. *)
Definition event_type (cb : Callback) : EventType :=
  match cb with
  | LLMStart _ _ _ _ _ _ _ | LLMEnd _ _ | LLMError _ _ => LLM_INVOKE
  | ToolStart _ _ _ _ _ _ | ToolEnd _ _ | ToolError _ _ => TOOL_CALL
  | ChainStart _ _ _ _ _ _ | ChainEnd _ _ | ChainError _ _ => DECISION
  end.

(** The name of the event of a start callback. *)
Definition start_name (cb : Callback) : string :=
  match cb with
  | LLMStart n _ _ _ _ _ _ => "langchain.llm." ++ n
  | ToolStart n _ _ _ _ _ => "langchain.tool." ++ n
  | ChainStart n _ _ _ _ _ => "langchain.chain." ++ n
  | _ => ""
  end.

(** The suffix an end or error callback adds to the name of the start event. *)
Definition suffix (cb : Callback) : string :=
  match cb with
  | LLMEnd _ _ | ToolEnd _ _ | ChainEnd _ _ => ".completed"
  | LLMError _ _ | ToolError _ _ | ChainError _ _ => ".error"
  | _ => ""
  end.

End LangChain.

(* ===================================================================== *)
(** ** The callback handler: derived notions *)
(* ===================================================================== *)

Module HandlerNotions.

(** [w'] is [w] after allocations only: the heap has grown at its end, and
    the network, the flushes in flight, the timers and the console are those
    of [w]. *)
Definition allocates (w w' : World) : Prop :=
  (exists ext, heap w' = (heap w ++ ext)%list) /\
  net w' = net w /\ pending w' = pending w /\
  timers w' = timers w /\ console w' = console w.

(** [v] refers to an event object of type [ty] and name [name] whose
    payload object is [po] and whose metadata object is [mo]. *)
Definition event_with (h : Heap) (v : Value) (ty : EventType) (name : string)
    (po mo : Obj) : Prop :=
  exists e id p m ts,
    v = VRef e /\
    h !! e = Some (event_object id ty name p m ts) /\
    h !! p = Some po /\ h !! m = Some mo.

(** A value that, when it is a reference, is allocated. *)
Definition value_allocated (h : Heap) (v : Value) : Prop :=
  match v with
  | VRef l => l < length h
  | _ => True
  end.

(** The payload a start callback reports on the heap [h]: the arrays and
    objects it allocates are the next ones of [h]. *)
Definition start_payload (h : Heap) (cb : LangChain.Callback) : Obj :=
  match cb with
  | LangChain.LLMStart _ prompts _ _ extraParams _ _ =>
      <["invocation_params" := VRef (default (length h) extraParams)]>
      (<["prompt_count" := prop (spread h (VRef prompts)) "length"]>
      (<["prompts" := VRef prompts]> ∅))
  | LangChain.ToolStart _ input _ _ _ _ =>
      <["input_length" := VNumber (Z.of_nat (String.length input))]>
      (<["input" := VString input]> ∅)
  | LangChain.ChainStart _ inputs _ _ _ _ =>
      <["input_keys" := VRef (length h)]> (<["inputs" := VRef inputs]> ∅)
  | _ => ∅
  end.

(** The properties an end or error callback adds to the payload of the start
    event on the heap [h]. *)
Definition added_fields (h : Heap) (cb : LangChain.Callback) : Obj :=
  match cb with
  | LangChain.LLMEnd generations _ =>
      <["output_count" := VNumber (Z.of_nat (length (concat generations)))]>
      (<["outputs" := VRef (length h)]> ∅)
  | LangChain.ToolEnd output _ =>
      <["output_length" := VNumber (Z.of_nat (String.length output))]>
      (<["output" := VString output]> ∅)
  | LangChain.ChainEnd outputs _ =>
      <["output_keys" := VRef (length h)]> (<["outputs" := VRef outputs]> ∅)
  | LangChain.LLMError error _ | LangChain.ToolError error _
  | LangChain.ChainError error _ =>
      <["error_type" := VString (err_name error)]>
      (<["error" := VString (err_message error)]> ∅)
  | _ => ∅
  end.

(** The optional [tags] and [metadata] of a start callback. *)
Definition tags_of (cb : LangChain.Callback) : option loc :=
  match cb with
  | LangChain.LLMStart _ _ _ _ _ t _ | LangChain.ToolStart _ _ _ _ t _
  | LangChain.ChainStart _ _ _ _ t _ => t
  | _ => None
  end.

Definition metadata_of (cb : LangChain.Callback) : option loc :=
  match cb with
  | LangChain.LLMStart _ _ _ _ _ _ m | LangChain.ToolStart _ _ _ _ _ m
  | LangChain.ChainStart _ _ _ _ _ m => m
  | _ => None
  end.

Definition parent_of (cb : LangChain.Callback) : option string :=
  match cb with
  | LangChain.LLMStart _ _ _ p _ _ _ | LangChain.ToolStart _ _ _ p _ _
  | LangChain.ChainStart _ _ _ p _ _ => p
  | _ => None
  end.

(** Every pending entry of the handler is a valid event. *)
Definition pending_valid (hs : LangChain.Handler) : Prop :=
  map_Forall (fun _ v => isValidEvent (heap (world (LangChain.client hs))) v = true)
             (LangChain.pendingEvents hs).

End HandlerNotions.

Export HandlerNotions.

(* ===================================================================== *)
(** ** Sample runs of the callback handler *)
(* ===================================================================== *)

Module Scenario.

(** an engine that prints every object alike *)
Definition object_to_string (h : Heap) (l : loc) : string := "[object Object]".

(** an engine that enumerates the keys in the order of the map *)
Definition Object_keys (o : Obj) : list string := (map_to_list o).*1.

Definition handle : LangChain.Callback -> M LangChain.Handler unit :=
  LangChain.handle Sample.env_ok object_to_string Object_keys.

(** [new TruseraLangChainHandler(new TruseraClient({ ... }))] *)
Definition handler : LangChain.Handler :=
  LangChain.constructor (Sample.new_client 100).

(** [handler.handleToolStart({ name: "search" }, "query", "run-1")] *)
Definition tool_start : LangChain.Callback :=
  LangChain.ToolStart "search" "query" "run-1" None None None.

(** [handler.handleToolEnd("result", "run-1")] *)
Definition tool_end : LangChain.Callback := LangChain.ToolEnd "result" "run-1".

(** [handler.handleLLMError(new Error("boom"), "run-1")] *)
Definition llm_error : LangChain.Callback :=
  LangChain.LLMError (Error "boom") "run-1".

(** the handler while the tool of run-1 runs *)
Definition running : LangChain.Handler := snd (handle tool_start handler).

(** the same handler once the application has closed the client *)
Definition closed_running : LangChain.Handler :=
  LangChain.set_client (snd (close Sample.env_ok (LangChain.client running))) running.

(** a handler on a client that is closed from the start *)
Definition closed_handler : LangChain.Handler :=
  LangChain.constructor (snd (close Sample.env_ok (Sample.new_client 100))).



(** a client with batch size [batch] and a created event, not yet tracked *)
Definition with_created (batch : Z) : Value * State :=
  Sample.with_event Sample.env_ok (Sample.new_client batch).

End Scenario.

(* ===================================================================== *)
(** * Properties *)
(* ===================================================================== *)

Local Open Scope list_scope.

(** ** The monad *)

Lemma bind_normal {S A B} (m : M S A) (k : A -> M S B) (x : S) a (y : S) :
  m x = (Normal a, y) -> bind m k x = k a y.
Proof. unfold bind. by intros ->. Qed.

(** ** The heap *)

Section HeapFacts.
Implicit Types (h : Heap) (o : Obj) (l : loc).

Lemma lookup_alloc_new h o : (h ++ [o]) !! length h = Some o.
Proof. rewrite lookup_app_r by lia. by rewrite Nat.sub_diag. Qed.

Lemma lookup_alloc_plus h (tl : Heap) k : (h ++ tl) !! (length h + k) = tl !! k.
Proof. rewrite lookup_app_r by lia. f_equal. lia. Qed.

Lemma apply_mutation_other h mu l :
  mutation_target mu ≠ l -> apply_mutation h mu !! l = h !! l.
Proof.
  destruct mu as [l' k v|l' k]; simpl; intros Hne;
    destruct (h !! l') eqn:E; auto; by rewrite list_lookup_insert_ne.
Qed.

(** Assignments to objects that existed before an allocation do not reach
    the objects allocated afterwards. *)
Lemma apply_mutations_fresh h ms n l :
  Forall (fun mu => mutation_target mu < n) ms -> n <= l ->
  apply_mutations h ms !! l = h !! l.
Proof.
  intros Hms Hl. revert h. induction Hms as [|mu ms Hmu _ IH]; intros h.
  - reflexivity.
  - unfold apply_mutations in *. simpl. rewrite IH.
    apply apply_mutation_other. lia.
Qed.

End HeapFacts.

(** ** Events *)

Lemma isValidEvent_event_object (h : Heap) e id ty name p m ts :
  h !! e = Some (event_object id ty name p m ts) ->
  isValidEvent h (VRef e) = true.
Proof.
  intros He. unfold isValidEvent, spread. rewrite He. simpl.
  unfold prop, event_object. simplify_map_eq. simpl.
  destruct ty; reflexivity.
Qed.

(** C10. For every event type, name, payload and metadata, [createEvent]
    returns normally and the event it returns satisfies [isValidEvent]. *)
Theorem createEvent_isValidEvent env ty name p m w :
  exists e w', createEvent env ty name p m w = (Normal e, w') /\
               isValidEvent (heap w') e = true.
Proof.
  destruct p, m; cbn; do 2 eexists; (split; [reflexivity|]);
    eapply isValidEvent_event_object, lookup_alloc_new.
Qed.

Lemma build_event_run env ty name pv mv w :
  build_event env ty name pv mv w =
  (Normal (VRef (length (heap w) + 2)),
   mkWorld (heap w ++ [spread (heap w) pv;
                       spread (heap w ++ [spread (heap w) pv]) mv;
                       event_object (randomUUID env (uuids w)) ty name
                                    (length (heap w)) (length (heap w) + 1)
                                    (nowISO env (clock w))])
           (net w) (console w) (S (uuids w)) (S (clock w))
           (timers w) (timer_count w) (pending w)).
Proof.
  cbn. rewrite !length_app. simpl. rewrite <- !app_assoc. simpl.
  unfold ret, set_heap, set_clock, set_uuids. simpl.
  replace (length (heap w) + 1 + 1) with (length (heap w) + 2) by lia.
  reflexivity.
Qed.

(** A default parameter: the object read afterwards has the properties of
    the argument, none when the argument was omitted. *)
Lemma default_object_run arg w :
  (forall l, arg = Some l -> l < length (heap w)) ->
  exists v extra,
    default_object arg w = (Normal v, set_heap (heap w ++ extra) w) /\
    (forall more, spread ((heap w ++ extra) ++ more) v = spread (heap w) (arg_value arg)).
Proof.
  intros Hv. destruct arg as [l|]; simpl.
  - exists (VRef l), nil. rewrite app_nil_r. split; [by destruct w|].
    intros more. specialize (Hv l eq_refl). simpl. by rewrite lookup_app_l.
  - exists (VRef (length (heap w))), (cons ∅ nil). split; [reflexivity|].
    intros more. simpl. rewrite <- app_assoc. simpl.
    rewrite lookup_app_r by lia. by rewrite Nat.sub_diag.
Qed.

(** C5 (as amended). [createEvent] copies the top-level properties of the
    payload and metadata maps into fresh maps: whatever the caller later
    assigns to or deletes from objects that existed before the call (the maps
    it passed in among them), the event object and its own payload and
    metadata maps keep the properties they had at construction. *)
Theorem createEvent_copies_top_level env ty name p m w ms :
  (forall l, p = Some l -> l < length (heap w)) ->
  (forall l, m = Some l -> l < length (heap w)) ->
  Forall (fun mu => mutation_target mu < length (heap w)) ms ->
  exists e pl ml w',
    createEvent env ty name p m w = (Normal (VRef e), w') /\
    member (heap w') (VRef e) "payload" = Some (VRef pl) /\
    member (heap w') (VRef e) "metadata" = Some (VRef ml) /\
    heap w' !! pl = Some (spread (heap w) (arg_value p)) /\
    heap w' !! ml = Some (spread (heap w) (arg_value m)) /\
    apply_mutations (heap w') ms !! e = heap w' !! e /\
    apply_mutations (heap w') ms !! pl = heap w' !! pl /\
    apply_mutations (heap w') ms !! ml = heap w' !! ml.
Proof.
  intros Hp Hm Hms.
  destruct (default_object_run p w Hp) as (pv & xp & Ep & Sp).
  set (w1 := set_heap (heap w ++ xp) w) in *.
  assert (Hm1 : forall l, m = Some l -> l < length (heap w1)).
  { intros l El. simpl. rewrite length_app. specialize (Hm l El). lia. }
  destruct (default_object_run m w1 Hm1) as (mv & xm & Em & Sm).
  set (w2 := set_heap (heap w1 ++ xm) w1) in *.
  assert (Sm' : spread (heap w1) (arg_value m) = spread (heap w) (arg_value m)).
  { destruct m as [l|]; [|reflexivity]. simpl. by rewrite lookup_app_l by eauto. }
  rewrite Sm' in Sm. clear Sm'. unfold w1 in Sm. cbn [heap set_heap] in Sm.
  set (h2 := (heap w ++ xp) ++ xm) in *.
  assert (Hn : length (heap w) <= length h2).
  { unfold h2. rewrite !length_app. lia. }
  exists (length h2 + 2), (length h2), (length h2 + 1). eexists.
  unfold createEvent.
  erewrite bind_normal by exact Ep.
  erewrite bind_normal by exact Em.
  rewrite build_event_run. split; [reflexivity|].
  cbn [heap w2 w1 set_heap]. fold h2.
  specialize (Sp xm). fold h2 in Sp. rewrite (Sm [_]), Sp.
  generalize (randomUUID env (uuids w2)), (nowISO env (clock w2)). intros id ts.
  set (tl := [_; _; _]).
  assert (L : forall k, (h2 ++ tl) !! (length h2 + k) = tl !! k)
    by (intros; apply lookup_alloc_plus).
  assert (L0 : (h2 ++ tl) !! length h2 = tl !! 0).
  { rewrite <- (L 0). f_equal. lia. }
  assert (F : forall l, length h2 <= l ->
                        apply_mutations (h2 ++ tl) ms !! l = (h2 ++ tl) !! l).
  { intros l Hl. apply (apply_mutations_fresh _ _ (length (heap w))); [done|lia]. }
  unfold member. rewrite !F, !L, L0 by lia. subst tl. simpl.
  unfold prop, event_object. simplify_map_eq. done.
Qed.

(** ** The dispatch client *)

Section ClientFacts.
Context (env : Env) (registration_body : string -> string -> string).
Implicit Types (s : State) (c : TruseraClient) (w : World).

Lemma state_pair_inv {A} (r r' : Completion A) s c w :
  (r, mkState c w) = (r', s) -> c = this s /\ w = world s.
Proof. intros [= _ <-]. by split. Qed.

Lemma client_eta c : set_eventQueue (eventQueue c) c = c.
Proof. by destruct c. Qed.

Lemma log_run msg s :
  log msg s = (Normal tt, mkState (this s) (logged (this s) msg (world s))).
Proof.
  destruct s as [c w].
  unfold log, logged, bind, get, in_world, zoom, console_log, modify, ret.
  simpl. by destruct (debug c).
Qed.

Lemma logged_heap c msg w : heap (logged c msg w) = heap w.
Proof. unfold logged. by destruct (debug c). Qed.

Lemma logged_net c msg w : net (logged c msg w) = net w.
Proof. unfold logged. by destruct (debug c). Qed.

Lemma logged_timers c msg w : timers (logged c msg w) = timers w.
Proof. unfold logged. by destruct (debug c). Qed.

Lemma logged_pending c msg w : pending (logged c msg w) = pending w.
Proof. unfold logged. by destruct (debug c). Qed.

Ltac world_simpl :=
  repeat (progress (rewrite ?logged_heap, ?logged_timers, ?logged_pending,
                            ?logged_net; cbn [heap net console timers pending
                              timer_count uuids clock set_heap set_net
                              set_console set_timers set_pending this world])).

Lemma same_store_refl w : same_store w w.
Proof. by repeat split. Qed.

Lemma same_store_logged c msg w w' : same_store w w' -> same_store w (logged c msg w').
Proof.
  intros (? & ? & ?). unfold same_store.
  by rewrite logged_heap, logged_timers, logged_pending.
Qed.

(** *** [flush], step by step *)

Lemma flush_start_empty s :
  eventQueue (this s) = [] -> flush_start env s = (Normal None, s).
Proof.
  intros Hq. unfold flush_start, bind, get, ret. simpl. by rewrite Hq.
Qed.

Lemma flush_start_nonempty s :
  eventQueue (this s) <> [] ->
  let n := splice_count (batchSize (this s)) (length (eventQueue (this s))) in
  let batch := take n (eventQueue (this s)) in
  let rest := drop n (eventQueue (this s)) in
  let w1 := logged (this s) "Flushing events" (world s) in
  flush_start env s =
  match jsonStringify env (heap (world s)) batch with
  | Throw e =>
      (Normal None,
       mkState (this s)
               (set_console
                  (console w1 ++
                   [ConsoleError ("[Trusera] Network error sending events: "
                                  ++ err_message e)%string]) w1))
  | Normal body =>
      (Normal (Some (AwaitFetch batch (length (net (world s)))
                                (batch_request (this s) body))),
       mkState (set_eventQueue rest (this s))
               (set_net (net (world s) ++ [batch_request (this s) body]) w1))
  end.
Proof.
  intros Hq n batch rest w1. subst n batch rest w1.
  destruct s as [c w]. simpl in *.
  unfold flush_start.
  unfold bind at 1. unfold get at 1. simpl.
  destruct (eventQueue c) as [|x q] eqn:E; [done|]. cbn [Nat.eqb length].
  erewrite bind_normal by reflexivity.
  erewrite bind_normal by apply log_run.
  unfold try_catch, bind at 1, get at 1. simpl.
  rewrite logged_heap.
  destruct (jsonStringify env (heap w) _) as [body|e]; simpl.
  - rewrite logged_net. unfold logged. reflexivity.
  - unfold flush_catch, requeue, update_this, in_world, zoom, console_error,
      modify, bind, ret.
    simpl. rewrite take_drop. rewrite <- E. unfold logged. simpl. by destruct c.
Qed.

Lemma flush_resume_fetch s batch n req :
  flush_resume env (AwaitFetch batch n req) s =
  match fetch_outcome env n req with
  | Rejected e =>
      (Normal None,
       mkState (set_eventQueue (batch ++ eventQueue (this s)) (this s))
               (set_console
                  (console (world s) ++
                   [ConsoleError ("[Trusera] Network error sending events: "
                                  ++ err_message e)%string]) (world s)))
  | Resolved r =>
      if resp_ok r
      then (Normal None,
            mkState (this s) (logged (this s) "Events flushed successfully" (world s)))
      else (Normal (Some (AwaitText batch r)), s)
  end.
Proof.
  destruct s as [c w]. simpl.
  destruct (fetch_outcome env n req) as [r|e]; [|reflexivity].
  destruct (resp_ok r); simpl; [|reflexivity].
  by erewrite bind_normal by apply log_run.
Qed.

Lemma flush_resume_text s batch r :
  exists w',
    flush_resume env (AwaitText batch r) s =
      (Normal None,
       mkState (set_eventQueue (batch ++ eventQueue (this s)) (this s)) w') /\
    same_store (world s) w' /\ net w' = net (world s).
Proof.
  destruct s as [c w]. simpl.
  destruct (resp_text r) as [txt|e]; eexists; (split; [reflexivity|]);
    by repeat split.
Qed.

(** A resumed flush never throws and leaves a client unchanged but for its
    queue. *)
Lemma flush_resume_frame t s :
  exists t' q w',
    flush_resume env t s = (Normal t', mkState (set_eventQueue q (this s)) w') /\
    same_store (world s) w' /\ net w' = net (world s).
Proof.
  destruct t as [batch n req|batch r].
  - rewrite flush_resume_fetch.
    destruct (fetch_outcome env n req) as [r|e].
    + destruct (resp_ok r).
      * exists None, (eventQueue (this s)). eexists. rewrite client_eta.
        split; [reflexivity|]. split; [apply same_store_logged, same_store_refl|].
        apply logged_net.
      * exists (Some (AwaitText batch r)), (eventQueue (this s)), (world s).
        rewrite client_eta. split; [by destruct s|]. by repeat split.
    + do 3 eexists. split; [reflexivity|]. by repeat split.
  - destruct (flush_resume_text s batch r) as (w' & E & H1 & H2).
    exists None. eauto.
Qed.

(** *** [flush], awaited *)

Lemma flush_empty s :
  eventQueue (this s) = [] -> flush env s = (Normal tt, s).
Proof.
  intros Hq. unfold flush. by erewrite bind_normal by by apply flush_start_empty.
Qed.

Lemma set_eventQueue_twice q q' c :
  set_eventQueue q (set_eventQueue q' c) = set_eventQueue q c.
Proof. reflexivity. Qed.

Lemma take_drop_queue c n q :
  set_eventQueue (take n (eventQueue c) ++ drop n (eventQueue c))
                 (set_eventQueue q c) = c.
Proof. rewrite set_eventQueue_twice, take_drop. apply client_eta. Qed.

Lemma flush_failed s :
  eventQueue (this s) <> [] ->
  send_result env s = Failed ->
  exists w', flush env s = (Normal tt, mkState (this s) w') /\
             same_store (world s) w'.
Proof.
  intros Hq Hsend. unfold send_result, next_batch in Hsend.
  unfold flush, bind. rewrite flush_start_nonempty by done.
  destruct (jsonStringify env _ _) as [body|e].
  - unfold flush_await, bind. rewrite flush_resume_fetch.
    destruct (fetch_outcome env _ _) as [r|e]; simpl.
    + destruct (resp_ok r); [done|].
      match goal with |- context [flush_resume env (AwaitText ?b _) ?x] =>
        destruct (flush_resume_text x b r) as (w' & -> & Hs & _) end.
      simpl. rewrite take_drop_queue. exists w'. split; [done|].
      destruct Hs as (H1 & H2 & H3). simpl in *.
      unfold same_store. by rewrite H1, H2, H3, logged_heap, logged_timers, logged_pending.
    + rewrite take_drop_queue. eexists. split; [reflexivity|].
      unfold same_store. simpl.
      by rewrite logged_heap, logged_timers, logged_pending.
  - simpl. eexists. split; [reflexivity|].
    unfold same_store. simpl.
    by rewrite logged_heap, logged_timers, logged_pending.
Qed.

Lemma flush_delivered s :
  eventQueue (this s) <> [] ->
  send_result env s = Delivered ->
  exists body w',
    jsonStringify env (heap (world s)) (next_batch (this s)) = Normal body /\
    flush env s =
      (Normal tt,
       mkState (set_eventQueue
                  (drop (splice_count (batchSize (this s))
                                      (length (eventQueue (this s))))
                        (eventQueue (this s)))
                  (this s)) w') /\
    net w' = net (world s) ++ [batch_request (this s) body] /\
    same_store (world s) w'.
Proof.
  intros Hq Hsend. unfold send_result, next_batch in *.
  unfold flush, bind. rewrite flush_start_nonempty by done.
  destruct (jsonStringify env _ _) as [body|e]; [|done].
  exists body.
  unfold flush_await, bind. rewrite flush_resume_fetch. simpl.
  destruct (fetch_outcome env _ _) as [r|e]; [|done].
  destruct (resp_ok r); [|done]. simpl.
  eexists. split; [reflexivity|]. split; [reflexivity|].
  rewrite logged_net. simpl. split; [reflexivity|].
  unfold same_store. by world_simpl.
Qed.

Lemma send_result_cases s : send_result env s = Failed \/ send_result env s = Delivered.
Proof. destruct (send_result env s); auto. Qed.

(** [flush] never throws: it completes normally and changes nothing of the
    client but its queue. *)
Lemma flush_frame s :
  exists q w', flush env s = (Normal tt, mkState (set_eventQueue q (this s)) w') /\
               same_store (world s) w'.
Proof.
  destruct (eventQueue (this s)) as [|x q0] eqn:Hq.
  - exists [], (world s). rewrite flush_empty by done. rewrite <- Hq, client_eta.
    split; [by destruct s|apply same_store_refl].
  - assert (Hne : eventQueue (this s) <> []) by (by rewrite Hq).
    destruct (send_result_cases s) as [Hs|Hs].
    + destruct (flush_failed s Hne Hs) as (w' & E & Hw).
      exists (eventQueue (this s)), w'. by rewrite client_eta.
    + destruct (flush_delivered s Hne Hs) as (body & w' & _ & E & _ & Hw).
      eauto.
Qed.

(** A failed batch goes back in front of the events tracked while its
    request was in flight: the order of arrival is kept. *)
Lemma requeue_keeps_arrival_order s batch n req s1 later w2 :
  flush_start env s = (Normal (Some (AwaitFetch batch n req)), s1) ->
  match fetch_outcome env n req with
  | Resolved r => resp_ok r = false
  | Rejected _ => True
  end ->
  let s2 := mkState (set_eventQueue (eventQueue (this s1) ++ later) (this s1)) w2 in
  eventQueue (this (snd (flush_await env (Some (AwaitFetch batch n req)) s2)))
  = eventQueue (this s) ++ later.
Proof.
  intros Hstart Hfail s2.
  destruct (eventQueue (this s)) as [|x q0] eqn:Hq.
  { rewrite flush_start_empty in Hstart by done. discriminate. }
  rewrite flush_start_nonempty in Hstart by (by rewrite Hq).
  destruct (jsonStringify env _ _) as [body|e]; [|discriminate].
  injection Hstart as <- _ _ <-.
  unfold flush_await, bind. rewrite flush_resume_fetch.
  destruct (fetch_outcome env n req) as [r|e].
  - rewrite Hfail.
    match goal with |- context [flush_resume env (AwaitText ?b _) ?x] =>
      destruct (flush_resume_text x b r) as (w' & -> & _) end.
    subst s2. simpl. by rewrite app_assoc, take_drop, Hq.
  - subst s2. simpl. by rewrite app_assoc, take_drop, Hq.
Qed.



(** A flush in flight whose send fails, resumed on whatever the client has
    become: its batch goes in front of the queue of that moment. *)
Lemma flush_await_failed batch n req s2 :
  match fetch_outcome env n req with
  | Resolved r => resp_ok r = false
  | Rejected _ => True
  end ->
  exists w3,
    flush_await env (Some (AwaitFetch batch n req)) s2 =
      (Normal tt, mkState (set_eventQueue (batch ++ eventQueue (this s2)) (this s2)) w3).
Proof.
  intros Hfail. unfold flush_await, bind. rewrite flush_resume_fetch.
  destruct (fetch_outcome env n req) as [r|e].
  - rewrite Hfail.
    destruct (flush_resume_text s2 batch r) as (w' & -> & _). eauto.
  - eauto.
Qed.

(** C1 (as amended). On a non-empty queue, a flush whose delivery attempt
    fails never throws.  Awaited with nothing else running in between, it
    leaves the queue exactly as it was before the call: the batch is back at
    the head, in its original order, and [getQueueSize()] is unchanged.  Left
    in flight, it puts its batch back, in its original order, in front of
    the queue as it is when the failure is handled, whatever was done to the
    client in between: the size is then the size of that moment plus the
    size of the batch. *)
Theorem flush_failure_requeues s :
  eventQueue (this s) <> [] ->
  send_result env s = Failed ->
  (exists s', flush env s = (Normal tt, s') /\
              eventQueue (this s') = eventQueue (this s) /\
              getQueueSize (this s') = getQueueSize (this s)) /\
  (forall t s1,
     flush_start env s = (Normal (Some t), s1) ->
     eventQueue (this s) = task_batch t ++ eventQueue (this s1) /\
     forall s2, exists s3,
       flush_await env (Some t) s2 = (Normal tt, s3) /\
       eventQueue (this s3) = task_batch t ++ eventQueue (this s2) /\
       getQueueSize (this s3) = length (task_batch t) + getQueueSize (this s2)).
Proof.
  intros Hq Hsend. split.
  - destruct (flush_failed s Hq Hsend) as (w' & E & _).
    eexists. split; [exact E|]. by split.
  - intros t s1 Hstart.
    rewrite flush_start_nonempty in Hstart by done.
    unfold send_result, next_batch in Hsend.
    destruct (jsonStringify env _ _) as [body|e]; [|discriminate].
    injection Hstart as <- <-. cbn [task_batch this eventQueue set_eventQueue].
    split; [by rewrite take_drop|].
    intros s2.
    destruct (flush_await_failed
                (take (splice_count (batchSize (this s)) (length (eventQueue (this s))))
                      (eventQueue (this s)))
                (length (net (world s))) (batch_request (this s) body) s2) as [w3 E].
    { destruct (fetch_outcome env _ _) as [r|e]; [|done]. by destruct (resp_ok r). }
    eexists. split; [exact E|]. cbn [this eventQueue set_eventQueue].
    split; [reflexivity|]. unfold getQueueSize. cbn [eventQueue set_eventQueue].
    by rewrite length_app.
Qed.

Lemma splice_count_nonneg (bs : Z) (n : nat) :
  (0 <= bs)%Z -> splice_count bs n = Nat.min n (Z.to_nat bs).
Proof. unfold splice_count. lia. Qed.


(** *** [close] *)


(** [close] marks the client closed, stops the timer and then runs one
    [flush], in that order; it never throws. *)
Lemma close_run s :
  exists s_c s_f,
    this s_c = set_flushTimer None (set_isClosed true (this s)) /\
    heap (world s_c) = heap (world s) /\
    net (world s_c) = net (world s) /\
    pending (world s_c) = pending (world s) /\
    (forall t, flushTimer (this s) = Some t -> t ∉ timers (world s_c)) /\
    flush env s_c = (Normal tt, s_f) /\
    close env s =
      (Normal tt, mkState (this s_f) (logged (this s_f) "Client closed" (world s_f))).
Proof.
  destruct s as [c w].
  set (w1 := logged c "Closing client" w).
  set (s_c := mkState (set_flushTimer None (set_isClosed true c))
                      (match flushTimer c with
                       | Some t => set_timers (timers w1 ∖ {[t]}) (timer_count w1) w1
                       | None => w1
                       end)).
  destruct (flush_frame s_c) as (q & w' & E & _).
  exists s_c. eexists. simpl.
  split; [reflexivity|].
  assert (Hstop : stopFlushTimer (mkState (set_isClosed true c) w1) = (Normal tt, s_c)).
  { unfold stopFlushTimer, bind, get, update_this, in_world, zoom, clearInterval,
      modify, ret. simpl. subst s_c.
    destruct (flushTimer c) eqn:Ht; simpl; [reflexivity|].
    do 2 f_equal. destruct c; simpl in *. by subst. }
  repeat split.
  - subst w1. destruct (flushTimer c); by world_simpl.
  - subst w1. destruct (flushTimer c); by world_simpl.
  - subst w1. destruct (flushTimer c); by world_simpl.
  - intros t ->. simpl. intros [_ H]%elem_of_difference.
    apply H. by apply elem_of_singleton.
  - exact E.
  - unfold close.
    erewrite bind_normal by apply log_run.
    erewrite bind_normal by reflexivity.
    erewrite bind_normal by exact Hstop.
    erewrite bind_normal by exact E.
    apply log_run.
Qed.


(** *** A closed client stays closed *)

(** A flush started and left in flight: the events it took and the queue it
    left make up the queue it found, in order. *)
Lemma void_flush_run s :
  exists q w' started,
    void_flush env s = (Normal tt, mkState (set_eventQueue q (this s)) w') /\
    heap w' = heap (world s) /\
    pending w' = pending (world s) ++ started /\
    concat (map task_batch started) ++ q = eventQueue (this s).
Proof.
  unfold void_flush, try_catch, bind.
  destruct (eventQueue (this s)) as [|x q0] eqn:Hq.
  - rewrite flush_start_empty by done.
    exists [], (world s), []. rewrite <- Hq, client_eta, app_nil_r.
    split; [by destruct s|]. by rewrite Hq.
  - rewrite flush_start_nonempty by (by rewrite Hq).
    destruct (jsonStringify env _ _) as [body|e].
    + eexists _, _, [_]. split; [reflexivity|]. world_simpl.
      split; [reflexivity|]. split; [reflexivity|].
      simpl. rewrite app_nil_r, Hq. apply take_drop.
    + eexists (eventQueue (this s)), _, []. rewrite client_eta.
      split; [reflexivity|]. world_simpl. rewrite app_nil_r. by rewrite Hq.
Qed.

Lemma track_closed event s :
  isClosed (this s) = true ->
  track env event s = (Throw (Error "Cannot track events on closed client"), s).
Proof. intros Hc. unfold track, bind, get, throw. by rewrite Hc. Qed.

Lemma registerAgent_closed name framework s :
  isClosed (this (snd (registerAgent env registration_body name framework s)))
  = isClosed (this s).
Proof.
  unfold registerAgent.
  erewrite bind_normal by apply log_run.
  unfold bind, get, in_world, zoom, fetch_call, throw, update_this, modify, ret.
  simpl.
  destruct (fetch_outcome env _ _) as [r|e]; [|reflexivity].
  destruct (resp_ok r); simpl.
  - destruct (resp_agent_id r) as [a|e]; [|reflexivity].
    rewrite log_run. reflexivity.
  - by destruct (resp_text r).
Qed.

Lemma timer_fires_closed s :
  isClosed (this (snd (timer_fires env s))) = isClosed (this s).
Proof.
  unfold timer_fires, bind, get, ret.
  destruct (flushTimer (this s)) as [t|]; [|reflexivity].
  case_bool_decide; [|reflexivity].
  destruct (void_flush_run s) as (q & w' & st & -> & _). reflexivity.
Qed.

Lemma settle_closed i s :
  isClosed (this (snd (settle env i s))) = isClosed (this s).
Proof.
  unfold settle, bind, get, ret.
  destruct (pending (world s) !! i) as [t|]; [|reflexivity].
  unfold in_world, zoom, modify. simpl.
  match goal with |- context [flush_resume env t ?x] =>
    destruct (flush_resume_frame t x) as (t' & q & w' & -> & _) end.
  by destruct t'.
Qed.

Lemma close_closed s :
  exists s1, close env s = (Normal tt, s1) /\ isClosed (this s1) = true.
Proof.
  destruct (close_run s) as (s_c & s_f & E1 & _ & _ & _ & _ & Ef & ->).
  destruct (flush_frame s_c) as (q & w' & Eq & _).
  rewrite Ef in Eq. symmetry in Eq. apply state_pair_inv in Eq as [Eq _].
  eexists. split; [reflexivity|]. simpl. by rewrite <- Eq, E1.
Qed.

Lemma run_op_closed op s :
  isClosed (this s) = true -> isClosed (this (run_op env registration_body s op)) = true.
Proof.
  intros Hc. destruct op as [event| | |name framework| |i]; simpl.
  - by rewrite track_closed.
  - destruct (flush_frame s) as (q & w' & -> & _). exact Hc.
  - by destruct (close_closed s) as (s1 & -> & H1).
  - by rewrite registerAgent_closed.
  - by rewrite timer_fires_closed.
  - by rewrite settle_closed.
Qed.

Lemma run_ops_closed ops s :
  isClosed (this s) = true ->
  isClosed (this (run_ops env registration_body ops s)) = true.
Proof.
  revert s. induction ops as [|op ops IH]; intros s Hc; [exact Hc|].
  apply IH, run_op_closed, Hc.
Qed.

(** C6. Once [close()] has completed, whatever is done with the client
    afterwards, [track] throws the closed-client error and leaves the client
    as it was: nothing is enqueued. *)
Theorem track_after_close s ops event :
  exists s1,
    close env s = (Normal tt, s1) /\
    let s2 := run_ops env registration_body ops s1 in
    track env event s2 = (Throw (Error "Cannot track events on closed client"), s2) /\
    getQueueSize (this (snd (track env event s2))) = getQueueSize (this s2).
Proof.
  destruct (close_closed s) as (s1 & E & Hc).
  exists s1. split; [exact E|]. intros s2.
  assert (H2 : isClosed (this s2) = true) by (by apply run_ops_closed).
  by rewrite track_closed.
Qed.

(** *** [track] *)

Lemma isValidEvent_allocated (h : Heap) event :
  isValidEvent h event = true -> exists e, event = VRef e /\ e < length h.
Proof.
  unfold isValidEvent. destruct event as [| | | | |e]; try discriminate.
  intros Hv. exists e. split; [reflexivity|].
  destruct (decide (e < length h)) as [|Hge]; [done|].
  simpl in Hv. rewrite lookup_ge_None_2 in Hv by lia. discriminate.
Qed.

Lemma enrich_run e s :
  let h := heap (world s) in
  let md := prop (spread h (VRef e)) "metadata" in
  enrich (VRef e) s =
  (Normal (length h + 1),
   mkState (this s)
     (set_heap (h ++ [<["sdk_version" := VString SDK_VERSION]>
                      (<["agent_id" := string_or_undefined (agentId (this s))]>
                       (spread h md));
                      <["metadata" := VRef (length h)]> (spread h (VRef e))])
               (world s))).
Proof.
  destruct s as [c w]. cbn. rewrite length_app. simpl.
  rewrite <- app_assoc. reflexivity.
Qed.

(** C9. On an open client, [track(event)] returns normally; it allocates the
    enriched copy (the properties of the event, with a fresh metadata map:
    the event's metadata plus [agent_id], the agent id the client has at
    that moment, undefined when it has none, and [sdk_version], 0.1.0) and
    appends it to the tail of the queue (state [s1]); every object that
    existed before the call, the caller's event among them, is left as it
    was.  When the queue
    thereby reaches the batch size the call goes on to start a flush, which
    takes its batch from the head of that queue: the batch in flight
    followed by the queue left is the queue found followed by the copy. *)
Theorem track_appends_enriched_copy s event :
  isClosed (this s) = false ->
  isValidEvent (heap (world s)) event = true ->
  let h := heap (world s) in
  let copy := length h + 1 in
  exists md s1 s' started,
    member h event "metadata" = Some md /\
    eventQueue (this s1) = eventQueue (this s) ++ [copy] /\
    track env event s =
      (if (batchSize (this s) <=? Z.of_nat (length (eventQueue (this s1))))%Z
       then void_flush env s1 else (Normal tt, s1)) /\
    track env event s = (Normal tt, s') /\
    heap (world s') =
      h ++ [<["sdk_version" := VString SDK_VERSION]>
            (<["agent_id" := string_or_undefined (agentId (this s))]>
             (spread h md));
            <["metadata" := VRef (length h)]> (spread h event)] /\
    pending (world s') = pending (world s) ++ started /\
    concat (map task_batch started) ++ eventQueue (this s')
      = eventQueue (this s) ++ [copy] /\
    ((Z.of_nat (length (eventQueue (this s))) + 1 < batchSize (this s))%Z ->
     eventQueue (this s') = eventQueue (this s) ++ [copy]) /\
    (forall l, l < length h -> heap (world s') !! l = h !! l) /\
    (forall k, member (heap (world s')) event k = member h event k) /\
    (forall k, k <> "metadata" ->
               member (heap (world s')) (VRef copy) k = member h event k) /\
    member (heap (world s')) (VRef copy) "metadata" = Some (VRef (length h)) /\
    (exists merged,
       heap (world s') !! length h = Some merged /\
       merged !! "agent_id" =
         Some (match agentId (this s) with
               | Some a => VString a
               | None => VUndefined
               end) /\
       merged !! "sdk_version" = Some (VString "0.1.0") /\
       (forall k, k <> "agent_id" -> k <> "sdk_version" ->
                  merged !! k = spread h md !! k)).
Proof.
  intros Hopen Hvalid h copy.
  destruct (isValidEvent_allocated _ _ Hvalid) as (e & -> & He).
  exists (prop (spread h (VRef e)) "metadata").
  set (h1 := h ++ [<["sdk_version" := VString SDK_VERSION]>
            (<["agent_id" := string_or_undefined (agentId (this s))]>
             (spread h (prop (spread h (VRef e)) "metadata")));
            <["metadata" := VRef (length h)]> (spread h (VRef e))]).
  set (c1 := set_eventQueue (eventQueue (this s) ++ [copy]) (this s)).
  set (s1 := mkState c1 (logged c1 "Event tracked" (set_heap h1 (world s)))).
  assert (Htrack : track env (VRef e) s =
            (if (batchSize (this s) <=? Z.of_nat (length (eventQueue (this s1))))%Z
             then void_flush env s1 else (Normal tt, s1))).
  { unfold track. unfold bind at 1, get at 1. rewrite Hopen.
    erewrite bind_normal by apply enrich_run.
    erewrite bind_normal by reflexivity.
    erewrite bind_normal by apply log_run.
    unfold bind at 1, get at 1. cbn [this world].
    change (eventQueue (this s1)) with (eventQueue c1).
    by destruct (_ <=? _)%Z. }
  rewrite Htrack. clear Htrack.
  assert (Hh1 : heap (world s1) = h1).
  { subst s1. by world_simpl. }
  assert (Hp1 : pending (world s1) = pending (world s)).
  { subst s1. by world_simpl. }
  assert (Hq1 : eventQueue (this s1) = eventQueue (this s) ++ [copy]) by reflexivity.
  assert (Hframe : forall q w' started,
             heap w' = heap (world s1) ->
             pending w' = pending (world s1) ++ started ->
             concat (map task_batch started) ++ q = eventQueue (this s1) ->
             ((Z.of_nat (length (eventQueue (this s))) + 1 < batchSize (this s))%Z ->
              q = eventQueue (this s) ++ [copy]) ->
             let s' := mkState (set_eventQueue q (this s1)) w' in
             heap (world s') = heap (world s1) /\
             pending (world s') = pending (world s) ++ started /\
             concat (map task_batch started) ++ eventQueue (this s')
               = eventQueue (this s) ++ [copy] /\
             ((Z.of_nat (length (eventQueue (this s))) + 1 < batchSize (this s))%Z ->
              eventQueue (this s') = eventQueue (this s) ++ [copy]) /\
             (forall l, l < length h -> heap (world s') !! l = h !! l) /\
             (forall k, member (heap (world s')) (VRef e) k = member h (VRef e) k) /\
             (forall k, k <> "metadata" ->
                        member (heap (world s')) (VRef copy) k = member h (VRef e) k) /\
             member (heap (world s')) (VRef copy) "metadata" = Some (VRef (length h)) /\
             (exists merged,
                heap (world s') !! length h = Some merged /\
                merged !! "agent_id" =
                  Some (match agentId (this s) with
                        | Some a => VString a
                        | None => VUndefined
                        end) /\
                merged !! "sdk_version" = Some (VString "0.1.0") /\
                (forall k, k <> "agent_id" -> k <> "sdk_version" ->
                           merged !! k
                           = spread h (prop (spread h (VRef e)) "metadata") !! k))).
  { intros q w' started Hw Hp Hq Hlt s'. subst s'. cbn [this world eventQueue set_eventQueue].
    rewrite Hw, Hp, Hp1, Hh1, Hq. split; [reflexivity|]. split; [reflexivity|].
    split; [exact Hq1|]. split; [exact Hlt|].
    assert (Hold : forall l, l < length h -> h1 !! l = h !! l).
    { intros l Hl. unfold h1. by rewrite lookup_app_l. }
    split; [exact Hold|]. split; [|split; [|split]].
    - intros k. unfold member. by rewrite Hold.
    - intros k Hk. unfold member, copy, h1. rewrite lookup_alloc_plus. simpl.
      unfold prop. by rewrite lookup_insert_ne.
    - unfold member, copy, h1. rewrite lookup_alloc_plus. simpl.
      unfold prop. by rewrite lookup_insert_eq.
    - eexists. split.
      { unfold h1. rewrite lookup_app_r by lia. by rewrite Nat.sub_diag. }
      split; [|split].
      + rewrite lookup_insert_ne by done. rewrite lookup_insert_eq.
        unfold string_or_undefined. by destruct (agentId (this s)).
      + by rewrite lookup_insert_eq.
      + intros k Ha Hv. by rewrite !lookup_insert_ne. }
  exists s1.
  assert (Hlen : Z.of_nat (length (eventQueue (this s1)))
                 = (Z.of_nat (length (eventQueue (this s))) + 1)%Z).
  { rewrite Hq1, length_app. simpl. lia. }
  destruct (Z.leb_spec (batchSize (this s))
              (Z.of_nat (length (eventQueue (this s1))))) as [Hge|Hlt].
  - destruct (void_flush_run s1) as (q & w' & started & E & Hw & Hp & Hq).
    exists (mkState (set_eventQueue q (this s1)) w'), started.
    split; [reflexivity|]. split; [reflexivity|]. split; [reflexivity|].
    split; [exact E|].
    rewrite <- Hh1.
    apply (Hframe q w' started Hw Hp Hq). lia.
  - exists s1, []. split; [reflexivity|]. split; [reflexivity|].
    split; [reflexivity|]. split; [reflexivity|].
    rewrite <- Hh1.
    replace s1 with (mkState (set_eventQueue (eventQueue (this s1)) (this s1)) (world s1))
      by (by rewrite client_eta).
    apply (Hframe _ _ []); try done. by rewrite app_nil_r.
Qed.

End ClientFacts.

(** ** The transport interceptor *)

Section InterceptorFacts.
Implicit Types (p : Process) (i j : nat) (o : InterceptorOptions).

Lemma is_installed_insert p i j x g a :
  is_installed (mkProcess g a (<[i := x]> (instances p))) j =
  if decide (i = j) then installed x else is_installed p j.
Proof.
  unfold is_installed, instance_of. simpl.
  rewrite lookup_insert. by destruct (decide (i = j)).
Qed.

Lemma saved_insert p i j x g a :
  saved (instance_of (mkProcess g a (<[i := x]> (instances p))) j) =
  if decide (i = j) then saved x else saved (instance_of p j).
Proof.
  unfold instance_of. simpl.
  rewrite lookup_insert. by destruct (decide (i = j)).
Qed.

Lemma initial_consistent t : slot_consistent (initial t).
Proof.
  intros i. unfold is_installed, instance_of, initial. simpl.
  rewrite lookup_empty. simpl. split; [done|]. by intros [? _].
Qed.

Lemma step_consistent p op : slot_consistent p -> slot_consistent (step p op).
Proof.
  intros Hp. destruct op as [i o|i|t]; simpl.
  - unfold install. destruct (active p) as [j|] eqn:Ha.
    + by destruct (bool_decide (j = i)).
    + simpl. intros k. rewrite is_installed_insert, saved_insert.
      cbn [installed saved active].
      destruct (decide (i = k)) as [->|Hne].
      * split; [eauto|done].
      * split; [|intros [[=] _]; done].
        intros Hk. apply (Hp k) in Hk as [Hk _]. congruence.
  - unfold uninstall. destruct (installed (instance_of p i)) eqn:Hi; [|done].
    destruct (saved (instance_of p i)) as [t|] eqn:Hs; [|done].
    simpl. intros k. rewrite is_installed_insert, saved_insert.
    cbn [installed saved active].
    destruct (decide (i = k)) as [->|Hne].
    + split; [done|]. by intros [? _].
    + split; [|by intros [? _]].
      intros Hk. apply (Hp k) in Hk as [Hk _]. apply (Hp i) in Hi as [Hi _].
      congruence.
  - exact Hp.
Qed.

Lemma reachable_consistent p : reachable p -> slot_consistent p.
Proof.
  induction 1; [apply initial_consistent|by apply step_consistent].
Qed.

Lemma run_reachable ops p : reachable p -> reachable (run ops p).
Proof.
  revert p. induction ops as [|op ops IH]; intros p Hp; [done|].
  apply IH. by constructor.
Qed.

(** While an instance holds the slot, nothing but its own [uninstall]
    changes what it saved. *)
Lemma run_keeps_saved ops p i t0 :
  reachable p ->
  is_installed p i = true ->
  saved (instance_of p i) = Some t0 ->
  Forall (fun op => op <> Uninstall i) ops ->
  is_installed (run ops p) i = true /\ saved (instance_of (run ops p) i) = Some t0.
Proof.
  intros Hr Hi Hs Hops. revert p Hr Hi Hs.
  induction Hops as [|op ops Hop _ IH]; intros p Hr Hi Hs; [done|].
  simpl. apply IH; [by constructor| |].
  all: pose proof (reachable_consistent p Hr) as Hc.
  all: pose proof (proj1 (Hc i) Hi) as [Ha _].
  all: destruct op as [j o|j|t]; simpl; try done.
  all: try (unfold install; rewrite Ha; by case_bool_decide).
  all: unfold uninstall.
  all: destruct (installed (instance_of p j)) eqn:Hj; [|done].
  all: apply (Hc j) in Hj as [Hj _]; congruence.
Qed.

(** C2. In every reachable state of the process at most one interceptor
    instance is installed; [install] by another instance throws and changes
    nothing; [install] by the installed instance changes nothing;
    [uninstall] by an instance that is not installed changes nothing; and
    after a successful [install], whatever else happens to the slot,
    [uninstall] puts back the transport that was active just before that
    [install]. *)
Theorem transport_slot_discipline p :
  reachable p ->
  (forall i j, is_installed p i = true -> is_installed p j = true -> i = j) /\
  (forall i j o, is_installed p i = true -> j <> i ->
                 install j o p = (Throw AlreadyInstalledError, p)) /\
  (forall i o, is_installed p i = true -> install i o p = (Normal tt, p)) /\
  (forall i, is_installed p i = false -> uninstall i p = (Normal tt, p)) /\
  (forall i o ops,
     active p = None ->
     Forall (fun op => op <> Uninstall i) ops ->
     let p1 := snd (install i o p) in
     let p2 := run ops p1 in
     fst (install i o p) = Normal tt /\
     is_installed p1 i = true /\
     globalFetch p1 = Intercepting i /\
     fst (uninstall i p2) = Normal tt /\
     globalFetch (snd (uninstall i p2)) = globalFetch p /\
     is_installed (snd (uninstall i p2)) i = false).
Proof.
  intros Hr. pose proof (reachable_consistent p Hr) as Hc.
  split; [|split; [|split; [|split]]].
  - intros i j Hi Hj. apply (Hc i) in Hi as [Hi _]. apply (Hc j) in Hj as [Hj _].
    congruence.
  - intros i j o Hi Hne. apply (Hc i) in Hi as [Hi _]. unfold install. rewrite Hi.
    by case_bool_decide.
  - intros i o Hi. apply (Hc i) in Hi as [Hi _]. unfold install. rewrite Hi.
    by case_bool_decide.
  - intros i Hi. unfold uninstall. unfold is_installed in Hi. by rewrite Hi.
  - intros i o ops Ha Hops p1 p2.
    assert (E1 : install i o p =
                 (Normal tt,
                  mkProcess (Intercepting i) (Some i)
                    (<[i := mkInstance true (Some (globalFetch p)) o]> (instances p)))).
    { unfold install. by rewrite Ha. }
    assert (Hi1 : is_installed p1 i = true).
    { subst p1. rewrite E1. simpl. rewrite is_installed_insert. by case_decide. }
    assert (Hs1 : saved (instance_of p1 i) = Some (globalFetch p)).
    { subst p1. rewrite E1. simpl. rewrite saved_insert. by case_decide. }
    assert (Hr1 : reachable p1) by apply (reachable_step p (Install i o) Hr).
    destruct (run_keeps_saved ops p1 i (globalFetch p) Hr1 Hi1 Hs1 Hops)
      as [Hi2 Hs2].
    fold p2 in Hi2, Hs2. unfold is_installed in Hi2.
    split; [by rewrite E1|]. split; [exact Hi1|].
    split; [subst p1; by rewrite E1|].
    unfold uninstall. rewrite Hi2, Hs2. simpl.
    repeat split. rewrite is_installed_insert. by case_decide.
Qed.

End InterceptorFacts.

Section InterceptionFacts.
Context (policy_service : string -> RequestDescriptor -> PolicyOutcome).
Context (transport : Transport -> CallArgs -> CallOutcome).
Implicit Types (t : Trace) (a : CallArgs) (next : Transport).

Lemma real_calls_real t next a :
  real_calls (mkTrace (emitted t) (calls t ++ [RealCall next a])
                      (warnings t) (diagnostics t))
  = real_calls t ++ [RealCall next a].
Proof. unfold real_calls. simpl. by rewrite filter_app. Qed.

(** The real call: issued once, its outcome handed to the caller as it is. *)
Lemma call_next_run next a t :
  exists t',
    call_next transport next a t = (completion_of (transport next a), t') /\
    real_calls t' = real_calls t ++ [RealCall next a] /\
    emitted t' = emitted t.
Proof.
  unfold call_next, record_call, bind, modify, ret, throw. simpl.
  eexists. split; [by destruct (transport next a)|].
  split; [apply real_calls_real|reflexivity].
Qed.

(** Steps 5 and 6: the events emitted around the real call do not change
    what the caller gets. *)
Lemma tracked_call_run next a t :
  exists t',
    try_catch
      (bind (call_next transport next a)
            (fun r => bind (emit (CallCompleted (cr_status r) (cr_headers r)))
                           (fun _ => ret r)))
      (fun e => bind (emit (CallErrored (err_message e))) (fun _ => throw e)) t
    = (completion_of (transport next a), t') /\
    real_calls t' = real_calls t ++ [RealCall next a].
Proof.
  destruct (call_next_run next a t) as (t1 & E & Hr & _).
  unfold try_catch, bind at 1. rewrite E.
  destruct (transport next a) as [r|e]; simpl; eexists; (split; [reflexivity|]);
    unfold real_calls in *; simpl; exact Hr.
Qed.

(** C3. With a policy URL configured, when the evaluation of the policy
    fails the intercepted call goes through in every enforcement mode: the
    real call is issued once through the saved transport and the caller gets
    its outcome, whatever it is; no policy violation is raised. *)
Theorem policy_failure_fails_open o next a t url e :
  policyUrl o = Some url ->
  policy_service url (describe a) = PolicyFailure e ->
  exists t',
    intercepted_fetch policy_service transport o next a t
      = (completion_of (transport next a), t') /\
    real_calls t' = real_calls t ++ [RealCall next a] /\
    (forall r, transport next a = CallResolved r ->
               fst (intercepted_fetch policy_service transport o next a t) = Normal r).
Proof.
  intros Hurl Hfail.
  assert (Hmain : exists t',
    intercepted_fetch policy_service transport o next a t
      = (completion_of (transport next a), t') /\
    real_calls t' = real_calls t ++ [RealCall next a]).
  { unfold intercepted_fetch.
    destruct (is_excluded o _).
    - destruct (call_next_run next a t) as (t' & E & Hr & _). eauto.
    - unfold bind at 1, emit at 1, modify at 1.
      unfold evaluate_policy. rewrite Hurl, Hfail.
      destruct (enforcement o); unfold bind at 1; simpl.
      all: match goal with |- context [try_catch _ _ ?x] =>
             destruct (tracked_call_run next a x) as (t' & E & Hr) end.
      all: exists t'; split; [exact E|].
      all: rewrite Hr; unfold real_calls; simpl; rewrite ?filter_app; simpl;
           by rewrite ?app_nil_r. }
  destruct Hmain as (t' & E & Hr). exists t'. split; [exact E|]. split; [exact Hr|].
  intros r Hres. by rewrite E, Hres.
Qed.

(** C4 (as amended). In [block] mode with a policy URL configured, a call
    that is not excluded and that the policy denies fails with a policy
    violation naming the first reason, and the real call is not issued.  The
    transport saved at install receives one call all the same, the policy
    request, which goes out through it; no other transport receives
    anything. *)
Theorem block_mode_denies o next a t url reasons :
  enforcement o = Block ->
  policyUrl o = Some url ->
  is_excluded o (rd_url (describe a)) = false ->
  policy_service url (describe a) = Decided Deny reasons ->
  exists t',
    intercepted_fetch policy_service transport o next a t
      = (Throw (PolicyViolationError (first_reason reasons)), t') /\
    real_calls t' = real_calls t /\
    calls t' = calls t ++ [PolicyCall next url (describe a)] /\
    transport_calls next t'
      = transport_calls next t ++ [PolicyCall next url (describe a)] /\
    length (transport_calls next t') = S (length (transport_calls next t)) /\
    (forall other, other <> next ->
       transport_calls other t' = transport_calls other t) /\
    (forall r rest, reasons = r :: rest ->
       err_message (PolicyViolationError (first_reason reasons))
       = ("[Trusera] Policy violation: " ++ r)%string).
Proof.
  intros Hmode Hurl Hex Hdeny.
  unfold intercepted_fetch. rewrite Hex.
  unfold evaluate_policy. rewrite Hmode, Hurl, Hdeny.
  eexists. split; [reflexivity|].
  assert (Hnext : transport_calls next
                    (mkTrace (emitted t ++ [CallStarted (describe a)])
                             (calls t ++ [PolicyCall next url (describe a)])
                             (warnings t) (diagnostics t))
                  = transport_calls next t ++ [PolicyCall next url (describe a)]).
  { unfold transport_calls. simpl. rewrite filter_app. f_equal.
    by rewrite filter_cons_True by reflexivity. }
  split; [|split; [|split; [|split; [|split]]]].
  - unfold real_calls. simpl. rewrite filter_app. simpl. apply app_nil_r.
  - reflexivity.
  - exact Hnext.
  - simpl in *. rewrite Hnext, length_app. simpl. lia.
  - intros other Hother. unfold transport_calls. simpl. rewrite filter_app.
    rewrite filter_cons_False; [apply app_nil_r|].
    simpl. intros H. by apply Hother.
  - by intros r rest ->.
Qed.

End InterceptionFacts.

(** ** The properties at sample inputs *)

Import Sample.

Lemma flush_failure_requeues_witness :
  (exists s', flush env_500 (tracked env_500 100 2) = (Normal tt, s') /\
              eventQueue (this s') = eventQueue (this (tracked env_500 100 2)) /\
              getQueueSize (this s') = getQueueSize (this (tracked env_500 100 2))) /\
  (exists t s1,
     flush_start env_down backlog = (Normal (Some t), s1) /\
     task_batch t = [0; 1] /\
     exists s3,
       flush_await env_down (Some t) (snd (void_flush env_down s1)) = (Normal tt, s3) /\
       eventQueue (this s3) = [0; 1; 4]).
Proof.
  split.
  - destruct (flush_failure_requeues env_500 (tracked env_500 100 2)) as [H _].
    + vm_compute. discriminate.
    + vm_compute. reflexivity.
    + exact H.
  - destruct (flush_failure_requeues env_down backlog) as [_ H].
    + vm_compute. discriminate.
    + vm_compute. reflexivity.
    + destruct (flush_start env_down backlog) as [r s1] eqn:Hs.
      destruct r as [[t|]|e]; try (vm_compute in Hs; discriminate).
      destruct (H t s1 eq_refl) as [_ H2].
      destruct (H2 (snd (void_flush env_down s1))) as (s3 & E & Hq & _).
      vm_compute in Hs. injection Hs as <- <-.
      eexists _, _. split; [reflexivity|]. split; [reflexivity|].
      exists s3. split; [exact E|]. rewrite Hq. vm_compute. reflexivity.
Defined.

(** C1, as stated, fails when two flushes overlap, which the client brings
    about itself ([void this.flush()] in [track] and in the timer).  Five
    events, batch size 2, the network down: a first flush takes [0; 1], a
    second one takes [2; 3] before the first has failed.  Both find a
    non-empty queue and both sends fail.  When the first flush has failed
    the queue holds 3 events, not the 5 it held before that flush; when both
    have failed the queue is [2; 3; 0; 1; 4]. *)
Lemma failed_flush_behind_another_flush :
  let s1 := snd (void_flush env_down backlog) in
  let s2 := snd (void_flush env_down s1) in
  let s3 := snd (settle env_down 0 s2) in
  let s4 := snd (settle env_down 0 s3) in
  eventQueue (this backlog) = [0; 1; 2; 3; 4] /\
  getQueueSize (this backlog) = 5 /\
  send_result env_down backlog = Failed /\
  eventQueue (this s1) = [2; 3; 4] /\
  send_result env_down s1 = Failed /\
  eventQueue (this s3) = [0; 1; 4] /\
  getQueueSize (this s3) = 3 /\
  eventQueue (this s4) = [2; 3; 0; 1; 4].
Proof. intros s1 s2 s3 s4. repeat split; vm_compute; reflexivity. Qed.





Lemma createEvent_copies_top_level_witness :
  exists e pl ml w',
    createEvent env_ok API_CALL "n" (Some 1) None nested_world
      = (Normal (VRef e), w') /\
    member (heap w') (VRef e) "payload" = Some (VRef pl) /\
    member (heap w') (VRef e) "metadata" = Some (VRef ml) /\
    heap w' !! pl = Some (spread (heap nested_world) (VRef 1)) /\
    heap w' !! ml = Some ∅ /\
    let ms := [SetProp 1 "k" (VNumber 7); DeleteProp 1 "nested"] in
    apply_mutations (heap w') ms !! e = heap w' !! e /\
    apply_mutations (heap w') ms !! pl = heap w' !! pl /\
    apply_mutations (heap w') ms !! ml = heap w' !! ml.
Proof.
  apply (createEvent_copies_top_level env_ok API_CALL "n" (Some 1) None nested_world
           [SetProp 1 "k" (VNumber 7); DeleteProp 1 "nested"]).
  - intros l [= <-]. simpl. lia.
  - intros l [=].
  - repeat constructor; simpl; lia.
Defined.

(** C5, as stated, fails on a nested value: after
    [const nested = { x: 1 }; const e = createEvent(t, n, { nested });]
    the assignment [nested.x = 2] is seen through [e.payload.nested.x]. *)
Lemma createEvent_shares_nested_values :
  exists e w',
    createEvent env_ok API_CALL "n" (Some 1) None nested_world = (Normal e, w') /\
    read_path (heap w') e ["payload"; "nested"; "x"] = Some (VNumber 1) /\
    read_path (apply_mutation (heap w') (SetProp 0 "x" (VNumber 2)))
              e ["payload"; "nested"; "x"] = Some (VNumber 2).
Proof.
  do 2 eexists. split; [reflexivity|]. split; vm_compute; reflexivity.
Qed.

Lemma track_appends_enriched_copy_witness :
  let event := fst (with_event env_ok (new_client 100)) in
  let s := snd (with_event env_ok (new_client 100)) in
  exists s' merged,
    track env_ok event s = (Normal tt, s') /\
    eventQueue (this s') = [length (heap (world s)) + 1] /\
    (forall k, member (heap (world s')) event k = member (heap (world s)) event k) /\
    member (heap (world s')) (VRef (length (heap (world s)) + 1)) "metadata"
      = Some (VRef (length (heap (world s)))) /\
    heap (world s') !! length (heap (world s)) = Some merged /\
    merged !! "agent_id" = Some (VString "agent-123") /\
    merged !! "sdk_version" = Some (VString "0.1.0").
Proof.
  intros event s.
  destruct (track_appends_enriched_copy env_ok s event)
    as (md & s1 & s' & started & _ & _ & _ & E & _ & _ & _ & Hq & _ & Hev & _ & Hmd
        & merged & Hm & Ha & Hv & _).
  - vm_compute. reflexivity.
  - vm_compute. reflexivity.
  - exists s', merged. split; [exact E|]. split; [|split; [exact Hev|]].
    + apply Hq. vm_compute. reflexivity.
    + split; [exact Hmd|]. split; [exact Hm|]. split; [exact Ha|exact Hv].
Defined.

Lemma transport_slot_discipline_witness :
  let p := initial 0 in
  let ops := [Install 2 default_options; AssignFetch 9; Install 1 block_options;
              Uninstall 2] in
  let p2 := run ops (snd (install 1 default_options p)) in
  is_installed p2 1 = true /\
  install 2 default_options p2 = (Throw AlreadyInstalledError, p2) /\
  globalFetch (snd (uninstall 1 p2)) = Plain 0.
Proof.
  intros p ops p2.
  destruct (transport_slot_discipline p (reachable_initial 0))
    as (_ & _ & _ & _ & H).
  destruct (H 1 default_options ops) as (_ & _ & _ & _ & Hg & _).
  - reflexivity.
  - repeat constructor; discriminate.
  - assert (Hr2 : reachable p2).
    { apply run_reachable. apply (reachable_step p (Install 1 default_options)).
      apply reachable_initial. }
    destruct (transport_slot_discipline p2 Hr2) as (_ & Hother & _).
    split; [vm_compute; reflexivity|]. split; [|exact Hg].
    apply (Hother 1 2); [vm_compute; reflexivity|discriminate].
Defined.

Lemma policy_failure_fails_open_witness :
  exists t',
    intercepted_fetch policy_down transport_200 block_options (Plain 0)
                      call_example empty_trace
      = (Normal (mkCallResponse 200 []), t') /\
    real_calls t' = [RealCall (Plain 0) call_example].
Proof.
  destruct (policy_failure_fails_open policy_down transport_200 block_options
              (Plain 0) call_example empty_trace
              "https://policy.example.com/evaluate" (Error "Policy service down"))
    as (t' & E & Hr & _).
  - reflexivity.
  - reflexivity.
  - exists t'. split; [exact E|exact Hr].
Defined.

Lemma block_mode_denies_witness :
  exists t',
    intercepted_fetch policy_deny transport_200 block_options (Plain 0)
                      call_example empty_trace
      = (Throw (PolicyViolationError "Unauthorized API access"), t') /\
    real_calls t' = [] /\
    calls t' = [PolicyCall (Plain 0) "https://policy.example.com/evaluate"
                           (describe call_example)] /\
    err_message (PolicyViolationError "Unauthorized API access")
      = "[Trusera] Policy violation: Unauthorized API access".
Proof.
  destruct (block_mode_denies policy_deny transport_200 block_options (Plain 0)
              call_example empty_trace "https://policy.example.com/evaluate"
              ["Unauthorized API access"])
    as (t' & E & Hr & Hc & _ & _ & _ & Hm).
  - reflexivity.
  - reflexivity.
  - reflexivity.
  - reflexivity.
  - exists t'. split; [exact E|]. split; [exact Hr|]. split; [exact Hc|].
    apply (Hm "Unauthorized API access" []). reflexivity.
Defined.

(** C4, as stated, fails in its count of the calls of the wrapped
    transport: in block mode, with a policy URL, a call that is not excluded
    and that the policy denies fails with the policy violation, and the
    transport saved at install, which had received no call, has received
    one, the policy request. *)
Lemma denied_call_reaches_saved_transport :
  enforcement block_options = Block /\
  policyUrl block_options = Some "https://policy.example.com/evaluate" /\
  is_excluded block_options (rd_url (describe call_example)) = false /\
  policy_deny "https://policy.example.com/evaluate" (describe call_example)
    = Decided Deny ["Unauthorized API access"] /\
  exists t',
    intercepted_fetch policy_deny transport_200 block_options (Plain 0)
                      call_example empty_trace
      = (Throw (PolicyViolationError "Unauthorized API access"), t') /\
    length (transport_calls (Plain 0) empty_trace) = 0 /\
    length (transport_calls (Plain 0) t') = 1 /\
    real_calls t' = [].
Proof.
  repeat split; try reflexivity.
  eexists. split; [reflexivity|]. repeat split.
Qed.

(* ===================================================================== *)
(** * Further properties of the client and of the events *)
(* ===================================================================== *)

Section ConstructorFacts.
Implicit Types (s : State) (c : TruseraClient) (w : World) (o : TruseraClientOptions).

(** X1. new TruseraClient(options) throws Error(`Invalid API key format.
    Must start with 'tsk_'`) whenever options.apiKey does not start with
    `tsk_`, and it throws before the flush timer is started and before
    anything is logged: no timer, request, object or console line is left
    behind. *)
Theorem constructor_rejects_bad_key o w :
  String.prefix "tsk_" (opt_apiKey o) = false ->
  constructor o w =
    (Throw (Error "Invalid API key format. Must start with 'tsk_'"), w).
Proof. intros H. unfold constructor. simpl. by rewrite H. Qed.

(** X2. When options.apiKey starts with `tsk_`, the constructor returns an
    open client with an empty queue (getQueueSize() is 0), getAgentId()
    equal to options.agentId, and baseUrl, batchSize and flushInterval equal
    to the option given or else to `https://api.trusera.io`, 100 and 5000;
    its flush timer is one new interval timer added to the active timers; no
    request is sent and no object is allocated. *)
Theorem constructor_initial_state o w :
  String.prefix "tsk_" (opt_apiKey o) = true ->
  exists c w',
    constructor o w = (Normal c, w') /\
    getQueueSize c = 0 /\ isClosed c = false /\
    getAgentId c = opt_agentId o /\
    apiKey c = opt_apiKey o /\
    baseUrl c = default "https://api.trusera.io" (opt_baseUrl o) /\
    batchSize c = default 100%Z (opt_batchSize o) /\
    flushInterval c = default 5000%Z (opt_flushInterval o) /\
    flushTimer c = Some (timer_count w) /\
    timers w' = {[timer_count w]} ∪ timers w /\
    net w' = net w /\ heap w' = heap w /\ pending w' = pending w.
Proof.
  intros H. unfold constructor. simpl. rewrite H. simpl.
  unfold startFlushTimer.
  erewrite bind_normal by
    (erewrite bind_normal by reflexivity; reflexivity).
  rewrite log_run. simpl.
  do 2 eexists. split; [reflexivity|]. simpl.
  rewrite logged_net, logged_heap, logged_timers, logged_pending. simpl.
  repeat split.
Qed.
End ConstructorFacts.

Ltac world_norm :=
  repeat (progress (rewrite ?logged_heap, ?logged_timers, ?logged_pending,
                            ?logged_net; cbn [heap net console timers pending
                              timer_count uuids clock set_heap set_net
                              set_console set_timers set_pending this world])).

Section TrackFacts.
Context (env : Env) (registration_body : string -> string -> string).
Implicit Types (s : State) (c : TruseraClient) (w : World) (h : Heap).

Lemma track_open_run s e :
  isClosed (this s) = false ->
  track env (VRef e) s =
    (if (batchSize (this s) <=? Z.of_nat (length (eventQueue (this s)) + 1))%Z
     then void_flush env (pushed s e) else (Normal tt, pushed s e)).
Proof.
  intros Hopen. unfold track. unfold bind at 1, get at 1. rewrite Hopen.
  erewrite bind_normal by apply enrich_run.
  erewrite bind_normal by reflexivity.
  erewrite bind_normal by apply log_run.
  unfold bind at 1, get at 1. cbn [this world eventQueue set_eventQueue batchSize].
  rewrite length_app. simpl length.
  unfold pushed, enriched_heap, enriched_ref.
  by destruct (_ <=? _)%Z.
Qed.

Lemma isValidEvent_extend h ext v :
  isValidEvent h v = true -> isValidEvent (h ++ ext) v = true.
Proof.
  intros Hv. destruct (isValidEvent_allocated _ _ Hv) as (e & -> & He).
  unfold isValidEvent, spread in *. by rewrite lookup_app_l.
Qed.

Lemma typeof_string v : (typeof v =? "string") = true -> exists x, v = VString x.
Proof. destruct v; try discriminate. eauto. Qed.

Lemma typeof_object_not_null v :
  (typeof v =? "object") = true -> negb (bool_decide (v = VNull)) = true ->
  exists l, v = VRef l.
Proof. destruct v; try discriminate; eauto. Qed.

Lemma includes_EventType v :
  includes Object_values_EventType v = true <->
  exists ty, v = VString (EventType_value ty).
Proof.
  unfold includes, Object_values_EventType. simpl. split.
  - intros H. repeat (apply orb_prop in H as [H|H]); try discriminate;
      apply bool_decide_eq_true in H; subst v;
      [exists TOOL_CALL|exists LLM_INVOKE|exists DATA_ACCESS
      |exists API_CALL|exists FILE_WRITE|exists DECISION]; reflexivity.
  - intros [ty ->]. destruct ty; reflexivity.
Qed.

Lemma prop_lookup (o : Obj) k v : prop o k = v -> v <> VUndefined -> o !! k = Some v.
Proof. unfold prop. destruct (o !! k); simpl; congruence. Qed.

(** The objects [isValidEvent] accepts. *)
Lemma isValidEvent_shape h v :
  isValidEvent h v = true <->
  exists e o, v = VRef e /\ h !! e = Some o /\ event_shaped o.
Proof.
  split.
  - intros Hv. destruct (isValidEvent_allocated _ _ Hv) as (e & -> & He).
    unfold isValidEvent in Hv. cbn [spread] in Hv.
    match type of Hv with context [default ∅ ?x] =>
      destruct x as [o|] eqn:Ho end; [|discriminate].
    exists e, o. split; [reflexivity|]. split; [exact Ho|].
    simpl in Hv.
    repeat (apply andb_prop in Hv as [Hv ?]).
    destruct (typeof_string _ Hv) as [id Hid].
    destruct (typeof_string (prop o "name")) as [name Hname]; [done|].
    destruct (typeof_string (prop o "timestamp")) as [ts Hts]; [done|].
    destruct (proj1 (includes_EventType (prop o "type"))) as [ty Hty]; [done|].
    destruct (typeof_object_not_null (prop o "payload")) as [p Hp]; [done..|].
    destruct (typeof_object_not_null (prop o "metadata")) as [m Hm]; [done..|].
    exists id, ty, name, p, m, ts.
    repeat split; by apply prop_lookup.
  - intros (e & o & -> & Ho & id & ty & name & p & m & ts & H1 & H2 & H3 & H4 & H5 & H6).
    unfold isValidEvent, spread. rewrite Ho. simpl.
    unfold prop. rewrite H1, H2, H3, H4, H5, H6. simpl.
    destruct ty; reflexivity.
Qed.

Lemma enriched_copy_valid s e :
  isValidEvent (heap (world s)) (VRef e) = true ->
  isValidEvent (enriched_heap s e) (VRef (enriched_ref s)) = true.
Proof.
  intros Hv. apply isValidEvent_shape in Hv
    as (e' & o & [= <-] & Ho & id & ty & name & p & m & ts & H1 & H2 & H3 & H4 & H5 & H6).
  apply isValidEvent_shape. exists (enriched_ref s). eexists.
  split; [reflexivity|]. split.
  - unfold enriched_heap, enriched_ref. rewrite lookup_alloc_plus. reflexivity.
  - unfold spread. rewrite Ho. simpl.
    exists id, ty, name, p, (length (heap (world s))), ts.
    repeat split; by simplify_map_eq.
Qed.


(** X3. isValidEvent(obj) is true exactly when obj is an object whose id,
    name and timestamp are strings, whose type is one of the six EventType
    values, and whose payload and metadata are non-null objects; undefined,
    null, primitives and objects lacking one of these are rejected. *)
Theorem isValidEvent_accepts_event_shapes h v :
  isValidEvent h v = true <->
  exists e o, v = VRef e /\ h !! e = Some o /\ event_shaped o.
Proof. apply isValidEvent_shape. Qed.

Lemma elem_of_batches x (ts : list FlushTask) :
  x ∈ concat (map task_batch ts) <-> exists t, t ∈ ts /\ x ∈ task_batch t.
Proof.
  induction ts as [|t ts IH]; simpl.
  - split; [by intros ?%elem_of_nil|by intros (? & ?%elem_of_nil & _)].
  - rewrite elem_of_app, IH. split.
    + intros [H|(t' & H1 & H2)]; [exists t|exists t']; split; try done;
        [by left|by right].
    + intros (t' & [->|H1]%elem_of_cons & H2); [by left|right; eauto].
Qed.

Lemma elem_of_drop_inv {A} (x : A) n (l : list A) : x ∈ drop n l -> x ∈ l.
Proof. intros H. rewrite <- (take_drop n l). apply elem_of_app. by right. Qed.

Lemma elem_of_take_inv {A} (x : A) n (l : list A) : x ∈ take n l -> x ∈ l.
Proof. intros H. rewrite <- (take_drop n l). apply elem_of_app. by left. Qed.

Lemma held_pushed s e : held (pushed s e) = held s ++ [enriched_ref s].
Proof.
  unfold held, pushed. simpl. rewrite logged_pending. simpl. by rewrite app_assoc.
Qed.

Lemma heap_pushed s e : heap (world (pushed s e)) = enriched_heap s e.
Proof. unfold pushed. simpl. by rewrite logged_heap. Qed.

(** Starting a flush moves events from the queue to the flush in flight:
    the client holds the same events, in the same order. *)
Lemma void_flush_held s :
  exists s', void_flush env s = (Normal tt, s') /\
             heap (world s') = heap (world s) /\ held s' = held s /\
             isClosed (this s') = isClosed (this s).
Proof.
  destruct (void_flush_run env s) as (q & w' & started & E & Hh & Hp & Hq).
  eexists. split; [exact E|]. split; [exact Hh|]. split; [|reflexivity].
  unfold held. simpl. rewrite Hp, map_app, concat_app, <- app_assoc. by rewrite Hq.
Qed.

(** An awaited flush holds no more than before: the heap is untouched and
    the queue is what it was, or what it was less its head batch. *)
Lemma flush_held s :
  exists s', flush env s = (Normal tt, s') /\
             heap (world s') = heap (world s) /\
             pending (world s') = pending (world s) /\
             (forall x, x ∈ eventQueue (this s') -> x ∈ eventQueue (this s)).
Proof.
  destruct (eventQueue (this s)) as [|x0 q0] eqn:Hq.
  - rewrite flush_empty by done. exists s. by rewrite Hq.
  - assert (Hne : eventQueue (this s) <> []) by (by rewrite Hq).
    destruct (send_result_cases env s) as [Hs|Hs].
    + destruct (flush_failed env s Hne Hs) as (w' & E & H1 & H2 & H3).
      eexists. split; [exact E|]. simpl. by rewrite Hq.
    + destruct (flush_delivered env s Hne Hs) as (body & w' & _ & E & _ & H1 & H2 & H3).
      eexists. split; [exact E|]. simpl. repeat split; try done.
      intros x Hx. rewrite <- Hq. by apply elem_of_drop_inv in Hx.
Qed.


(** [registerAgent] touches nothing of the client but its agent id, and
    nothing of the world but the network and the console. *)
Lemma registerAgent_frame name framework s :
  exists r a w',
    registerAgent env registration_body name framework s
      = (r, mkState (set_agentId a (this s)) w') /\
    same_store (world s) w' /\
    net w' = net (world s) ++ [register_request registration_body (this s) name framework].
Proof.
  unfold registerAgent.
  erewrite bind_normal by apply log_run.
  unfold bind at 1, get at 1. cbn [this world].
  erewrite bind_normal by reflexivity.
  cbn [this world]. rewrite logged_net.
  assert (Heta : forall c, set_agentId (agentId c) c = c) by (by intros []).
  destruct (fetch_outcome env _ _) as [r|e].
  - destruct (resp_ok r); simpl.
    + destruct (resp_agent_id r) as [a|e].
      * erewrite bind_normal by reflexivity.
        erewrite bind_normal by apply log_run.
        do 3 eexists. split; [reflexivity|].
        unfold same_store. by world_norm.
      * exists (Throw e), (agentId (this s)). eexists. rewrite Heta.
        split; [reflexivity|]. unfold same_store. by world_norm.
    + destruct (resp_text r) as [txt|e];
        eexists _, (agentId (this s)), _; rewrite Heta;
        (split; [reflexivity|]); unfold same_store; by world_norm.
  - exists (Throw e), (agentId (this s)). eexists. rewrite Heta.
    split; [reflexivity|]. unfold same_store. by world_norm.
Qed.

Lemma settle_held i s :
  exists s', settle env i s = (Normal tt, s') /\
             heap (world s') = heap (world s) /\
             (forall x, x ∈ held s' -> x ∈ held s).
Proof.
  unfold settle, bind at 1, get at 1.
  destruct (pending (world s) !! i) as [t|] eqn:Hi.
  2: { exists s. by repeat split. }
  unfold bind at 1, in_world at 1, zoom, modify. cbn [fst snd this world].
  assert (Ht : forall x, x ∈ task_batch t -> x ∈ concat (map task_batch (pending (world s)))).
  { intros x Hx. apply elem_of_batches. exists t. split; [|done].
    by eapply list_elem_of_lookup_2. }
  assert (Hd : forall x, x ∈ concat (map task_batch (delete i (pending (world s)))) ->
                         x ∈ concat (map task_batch (pending (world s)))).
  { intros x (t' & H1 & H2)%elem_of_batches. apply elem_of_batches.
    exists t'. split; [by eapply list_elem_of_delete_inv|done]. }
  destruct t as [batch n req|batch r].
  - unfold bind. rewrite flush_resume_fetch. cbn [this world].
    destruct (fetch_outcome env n req) as [r|e].
    + destruct (resp_ok r).
      * eexists. split; [reflexivity|]. unfold held. world_norm.
        split; [reflexivity|]. intros x [H|H]%elem_of_app; apply elem_of_app; auto.
      * eexists. split; [reflexivity|]. unfold held. simpl.
        split; [reflexivity|]. rewrite map_app, concat_app. simpl. rewrite app_nil_r.
        intros x [[H|H]%elem_of_app|H]%elem_of_app; apply elem_of_app; auto.
    + eexists. split; [reflexivity|]. unfold held. simpl.
      split; [reflexivity|].
      intros x [H|[H|H]%elem_of_app]%elem_of_app; apply elem_of_app; auto.
  - unfold bind.
    match goal with |- context [flush_resume env (AwaitText ?b _) ?x] =>
      destruct (flush_resume_text env x b r) as (w' & -> & (H1 & H2 & H3) & _) end.
    eexists. split; [reflexivity|]. unfold held. simpl in *.
    split; [exact H1|]. rewrite H3.
    intros x [H|[H|H]%elem_of_app]%elem_of_app; apply elem_of_app; auto.
Qed.


Lemma close_held s :
  exists s', close env s = (Normal tt, s') /\
             heap (world s') = heap (world s) /\
             pending (world s') = pending (world s) /\
             (forall x, x ∈ eventQueue (this s') -> x ∈ eventQueue (this s)).
Proof.
  destruct (close_run env s) as (s_c & s_f & Hc & Hh & Hn & Hp & _ & Ef & Ec).
  destruct (flush_held s_c) as (s' & E & H1 & H2 & H3).
  rewrite Ef in E. injection E as <-.
  eexists. split; [exact Ec|]. world_norm.
  rewrite H1, H2, Hh, Hp. repeat split.
  intros x Hx. apply H3 in Hx. by rewrite Hc in Hx.
Qed.

(** One operation: the heap only grows, and what the client holds
    afterwards it held before, or is the valid copy just made. *)
Lemma run_op_held op s :
  tracks_valid (heap (world s)) op ->
  let s' := run_op env registration_body s op in
  (exists ext, heap (world s') = heap (world s) ++ ext) /\
  (forall x, x ∈ held s' ->
             x ∈ held s \/ isValidEvent (heap (world s')) (VRef x) = true).
Proof.
  intros Hop s'. subst s'.
  destruct op as [event| | |name framework| |i]; simpl in *.
  - destruct (isClosed (this s)) eqn:Hc.
    { rewrite track_closed by done. simpl. split; [exists []; by rewrite app_nil_r|auto]. }
    destruct (isValidEvent_allocated _ _ Hop) as (e & -> & He).
    rewrite track_open_run by done.
    assert (Hpush : forall x, x ∈ held (pushed s e) ->
              x ∈ held s \/ isValidEvent (heap (world (pushed s e))) (VRef x) = true).
    { intros x. rewrite held_pushed, heap_pushed.
      intros [H|H%list_elem_of_singleton]%elem_of_app; [by left|right]. subst x.
      by apply enriched_copy_valid. }
    destruct (_ <=? _)%Z.
    + destruct (void_flush_held (pushed s e)) as (s' & -> & Hh & Hheld & _).
      cbn [snd]. rewrite Hh, Hheld. split; [|exact Hpush].
      rewrite heap_pushed. unfold enriched_heap. eauto.
    + cbn [snd]. split; [|exact Hpush].
      rewrite heap_pushed. unfold enriched_heap. eauto.
  - destruct (flush_held s) as (s' & -> & Hh & Hp & Hq). simpl.
    split; [exists []; by rewrite app_nil_r|].
    unfold held. rewrite Hp. intros x [H|H]%elem_of_app; left; apply elem_of_app; auto.
  - destruct (close_held s) as (s' & -> & Hh & Hp & Hq). simpl.
    split; [exists []; by rewrite app_nil_r|].
    unfold held. rewrite Hp. intros x [H|H]%elem_of_app; left; apply elem_of_app; auto.
  - destruct (registerAgent_frame name framework s) as (r & a & w' & -> & (H1 & H2 & H3) & _).
    simpl. split; [exists []; by rewrite app_nil_r|].
    unfold held. simpl. rewrite H3. auto.
  - unfold timer_fires, bind, get, ret.
    destruct (flushTimer (this s)) as [t|]; simpl.
    2: { split; [exists []; by rewrite app_nil_r|auto]. }
    case_bool_decide; simpl.
    2: { split; [exists []; by rewrite app_nil_r|auto]. }
    destruct (void_flush_held s) as (s' & -> & Hh & Hheld & _). simpl.
    rewrite Hh, Hheld. split; [exists []; by rewrite app_nil_r|auto].
  - destruct (settle_held i s) as (s' & -> & Hh & Hheld). simpl.
    rewrite Hh. split; [exists []; by rewrite app_nil_r|auto].
Qed.

Lemma run_op_keeps_valid op s :
  tracks_valid (heap (world s)) op ->
  holds_valid_events s ->
  holds_valid_events (run_op env registration_body s op).
Proof.
  intros Hop Hs. destruct (run_op_held op s Hop) as [[ext Hh] Hheld].
  unfold holds_valid_events in *. rewrite Forall_forall in *.
  intros x Hx. destruct (Hheld x Hx) as [H|H]; [|exact H].
  rewrite Hh. apply isValidEvent_extend. by apply Hs.
Qed.

Lemma tracks_valid_extend h ext op : tracks_valid h op -> tracks_valid (h ++ ext) op.
Proof. destruct op; simpl; auto using isValidEvent_extend. Qed.

(** X4. Invariant of the client: if every event it holds (the events of its
    queue and of the batches of the flushes in flight) satisfies
    isValidEvent, and every track call is given an event that satisfies
    isValidEvent, then after any sequence of track, flush, close,
    registerAgent, timer ticks and settlings of the flushes in flight, every
    event it holds still satisfies isValidEvent: the enriched copy of a
    valid event is valid, and a failed flush only puts back events that were
    held. *)
Theorem client_holds_valid_events ops s :
  holds_valid_events s ->
  Forall (tracks_valid (heap (world s))) ops ->
  holds_valid_events (run_ops env registration_body ops s).
Proof.
  intros Hs Hops. revert s Hs Hops.
  induction ops as [|op ops IH]; intros s Hs Hops; [exact Hs|].
  apply Forall_cons in Hops as [Hop Hops]. simpl.
  apply IH; [by apply run_op_keeps_valid|].
  destruct (run_op_held op s Hop) as [[ext ->] _].
  eapply Forall_impl; [exact Hops|]. intros op'. apply tracks_valid_extend.
Qed.







End TrackFacts.

Section LifecycleFacts.
Context (env : Env) (registration_body : string -> string -> string).
Implicit Types (s : State) (c : TruseraClient) (w : World) (h : Heap).

(** What [close] leaves of the timers: the client's own timer is removed,
    the others are untouched. *)
Lemma close_timers s :
  exists s', close env s = (Normal tt, s') /\
             flushTimer (this s') = None /\
             timers (world s') =
               match flushTimer (this s) with
               | Some t => timers (world s) ∖ {[t]}
               | None => timers (world s)
               end.
Proof.
  destruct s as [c w].
  unfold close.
  erewrite bind_normal by apply log_run.
  erewrite bind_normal by reflexivity.
  cbn [this world].
  set (s0 := mkState _ _).
  assert (Hstop : exists s1, stopFlushTimer s0 = (Normal tt, s1) /\
            flushTimer (this s1) = None /\
            timers (world s1) = match flushTimer c with
                                | Some t => timers w ∖ {[t]}
                                | None => timers w
                                end).
  { unfold stopFlushTimer, bind, get, update_this, in_world, zoom, clearInterval,
      modify, ret. subst s0. simpl.
    destruct (flushTimer c) eqn:Ht; simpl; eexists; (split; [reflexivity|]);
      simpl; rewrite ?logged_timers; done. }
  destruct Hstop as (s1 & E1 & Ht1 & Hts1).
  erewrite bind_normal by exact E1.
  destruct (flush_frame env s1) as (q & w' & Ef & (_ & Hw & _)).
  erewrite bind_normal by exact Ef.
  rewrite log_run. eexists. split; [reflexivity|]. simpl.
  rewrite logged_timers, Hw. by split.
Qed.

(** X8. Constructing a client (with a well-formed key, timer ids being
    fresh) and then closing it leaves the set of active interval timers
    exactly as it was before the constructor ran: the constructor's timer is
    active in between and close() clears it and no other; as the queue is
    empty, no request is sent. *)
Theorem constructor_close_releases_timer o w :
  String.prefix "tsk_" (opt_apiKey o) = true ->
  (forall t, t ∈ timers w -> t < timer_count w) ->
  exists c w1 s2,
    constructor o w = (Normal c, w1) /\
    timer_count w ∈ timers w1 /\
    close env (mkState c w1) = (Normal tt, s2) /\
    timers (world s2) = timers w /\
    net (world s2) = net w.
Proof.
  intros Hkey Hfresh.
  assert (Hc : exists c w1, constructor o w = (Normal c, w1) /\
            eventQueue c = [] /\ flushTimer c = Some (timer_count w) /\
            timers w1 = {[timer_count w]} ∪ timers w /\ net w1 = net w).
  { unfold constructor. simpl. rewrite Hkey. simpl.
    unfold startFlushTimer.
    erewrite bind_normal by (erewrite bind_normal by reflexivity; reflexivity).
    rewrite log_run. simpl. do 2 eexists. split; [reflexivity|]. simpl.
    by rewrite logged_timers, logged_net. }
  destruct Hc as (c & w1 & E & Hq & Ht & Hts & Hn).
  exists c, w1.
  destruct (close_timers (mkState c w1)) as (s2 & Ec & _ & Hts2).
  exists s2. split; [exact E|]. split; [rewrite Hts; apply elem_of_union; left; by apply elem_of_singleton|].
  split; [exact Ec|]. simpl in Hts2. rewrite Ht, Hts in Hts2. split.
  - rewrite Hts2. apply set_eq. intros t.
    rewrite elem_of_difference, elem_of_union, !elem_of_singleton.
    split; [tauto|]. intros Hin. split; [by right|].
    intros ->. apply Hfresh in Hin. lia.
  - destruct (close_run env (mkState c w1))
      as (s_c & s_f & Hcc & _ & Hnc & _ & _ & Ef & Ec').
    rewrite Ec in Ec'. injection Ec' as ->.
    assert (Hqc : eventQueue (this s_c) = []) by (by rewrite Hcc).
    rewrite (flush_empty env s_c Hqc) in Ef. injection Ef as <-.
    simpl. by rewrite logged_net, Hnc.
Qed.

Lemma close_state s :
  exists s', close env s = (Normal tt, s') /\
             isClosed (this s') = true /\ flushTimer (this s') = None.
Proof.
  destruct (close_timers s) as (s' & E & Ht & _).
  destruct (close_closed env s) as (s'' & E' & Hc).
  rewrite E in E'. injection E' as <-. eauto.
Qed.

(** X9. close() always completes normally, and once it has, a tick of the
    client's flush timer does nothing: no flush is started, no request is
    sent and the state is unchanged, since stopFlushTimer() has cleared the
    interval and forgotten the timer. *)
Theorem timer_is_silent_after_close s :
  exists s', close env s = (Normal tt, s') /\
             timer_fires env s' = (Normal tt, s').
Proof.
  destruct (close_state s) as (s' & E & _ & Ht).
  exists s'. split; [exact E|].
  unfold timer_fires, bind, get, ret. by rewrite Ht.
Qed.

(** X10. While every batch is delivered and batchSize >= 1, k awaited
    flush() calls leave the queue equal to the original queue without its
    first k * batchSize events, order preserved; once k * batchSize covers
    the queue, getQueueSize() is 0. *)
Theorem flushes_drain_from_head k s :
  (forall s', send_result env s' = Delivered) ->
  (1 <= batchSize (this s))%Z ->
  let b := Z.to_nat (batchSize (this s)) in
  let s' := run_ops env registration_body (replicate k OpFlush) s in
  eventQueue (this s') = drop (k * b) (eventQueue (this s)) /\
  (length (eventQueue (this s)) <= k * b -> getQueueSize (this s') = 0).
Proof.
  intros Hok Hb b s'. subst s'.
  assert (Hmain : forall k s0, batchSize (this s0) = batchSize (this s) ->
            eventQueue (this (run_ops env registration_body (replicate k OpFlush) s0))
            = drop (k * b) (eventQueue (this s0))).
  { clear k. induction k as [|k IH]; intros s0 Hbs; [reflexivity|].
    simpl. destruct (eventQueue (this s0)) as [|x q0] eqn:Hq.
    - rewrite flush_empty by done. cbn [snd]. rewrite IH by done.
      by rewrite Hq, !drop_nil.
    - assert (Hne : eventQueue (this s0) <> []) by (by rewrite Hq).
      destruct (flush_delivered env s0 Hne (Hok s0)) as (body & w' & _ & -> & _).
      cbn [snd]. rewrite IH by done. cbn [this eventQueue set_eventQueue].
      rewrite drop_drop, <- Hq. rewrite Hbs.
      unfold splice_count. fold b.
      destruct (decide (b <= length (eventQueue (this s0)))) as [Hle|Hgt].
      + f_equal. lia.
      + rewrite !drop_ge; [done|lia|lia]. }
  rewrite Hmain by done. split; [reflexivity|].
  intros Hlen. unfold getQueueSize. rewrite Hmain by done.
  rewrite length_drop. lia.
Qed.


(** A flush started on a queue longer than nothing, whose request can be
    built: the head batch is in flight, the rest is the queue. *)
Lemma void_flush_started s :
  eventQueue (this s) <> [] ->
  (forall batch, exists body, jsonStringify env (heap (world s)) batch = Normal body) ->
  let k := splice_count (batchSize (this s)) (length (eventQueue (this s))) in
  exists s' n req,
    void_flush env s = (Normal tt, s') /\
    this s' = set_eventQueue (drop k (eventQueue (this s))) (this s) /\
    heap (world s') = heap (world s) /\
    pending (world s') =
      pending (world s) ++ [AwaitFetch (take k (eventQueue (this s))) n req].
Proof.
  intros Hq Hjson k.
  unfold void_flush, try_catch, bind.
  rewrite flush_start_nonempty by done. fold k.
  destruct (Hjson (take k (eventQueue (this s)))) as [body ->].
  do 3 eexists. split; [reflexivity|]. simpl.
  rewrite logged_heap, logged_pending. by repeat split.
Qed.

(** A flush in flight whose request is rejected puts its batch back at the
    head of the queue as it is then. *)
Lemma settle_rejected s batch n req rest_tasks :
  pending (world s) = AwaitFetch batch n req :: rest_tasks ->
  (exists e, fetch_outcome env n req = Rejected e) ->
  exists s',
    settle env 0 s = (Normal tt, s') /\
    this s' = set_eventQueue (batch ++ eventQueue (this s)) (this s) /\
    heap (world s') = heap (world s) /\
    pending (world s') = rest_tasks.
Proof.
  intros Hp [e He].
  unfold settle, bind at 1, get at 1. rewrite Hp. simpl.
  unfold bind. simpl. rewrite He. simpl.
  eexists. split; [reflexivity|]. simpl. rewrite Hp. by repeat split.
Qed.

(** X11. flush() is not awaited by track or by the timer, so two flushes can
    overlap. When two flushes are started back to back on a queue longer
    than batchSize (batchSize >= 1) and both fetches are rejected, then
    after both have settled, first started first, the queue holds the second
    batch, then the first batch, then the rest: each failure unshifts its
    own batch to the front, so the arrival order of the two batches is
    reversed. In between, both batches are out of the queue. *)
Theorem overlapping_failed_flushes_swap_batches s :
  pending (world s) = [] ->
  (1 <= batchSize (this s))%Z ->
  let b := Z.to_nat (batchSize (this s)) in
  let q := eventQueue (this s) in
  b < length q ->
  (forall batch, exists body, jsonStringify env (heap (world s)) batch = Normal body) ->
  (forall n req, exists e, fetch_outcome env n req = Rejected e) ->
  let s1 := snd (void_flush env s) in
  let s2 := snd (void_flush env s1) in
  let s3 := snd (settle env 0 s2) in
  let s4 := snd (settle env 0 s3) in
  eventQueue (this s2) = drop (b + b) q /\
  length (pending (world s2)) = 2 /\
  eventQueue (this s4) = take b (drop b q) ++ take b q ++ drop (b + b) q /\
  pending (world s4) = [].
Proof.
  intros Hp Hb b q Hlen Hjson Hdown s1 s2 s3 s4.
  assert (Hk1 : splice_count (batchSize (this s)) (length q) = b).
  { unfold splice_count. fold b. lia. }
  destruct (void_flush_started s) as (s1' & n1 & req1 & E1 & Ht1 & Hh1 & Hp1).
  { intros Hq. fold q in Hq. rewrite Hq in Hlen. simpl in Hlen. lia. }
  { exact Hjson. }
  fold q in Ht1, Hp1. rewrite Hk1 in Ht1, Hp1. rewrite Hp in Hp1. simpl in Hp1.
  assert (s1 = s1') as -> by (unfold s1; by rewrite E1).
  assert (Hq1 : eventQueue (this s1') = drop b q) by (by rewrite Ht1).
  assert (Hb1 : batchSize (this s1') = batchSize (this s)) by (by rewrite Ht1).
  destruct (void_flush_started s1') as (s2' & n2 & req2 & E2 & Ht2 & Hh2 & Hp2).
  { rewrite Hq1. intros Hnil. apply (f_equal length) in Hnil.
    rewrite length_drop in Hnil. simpl in Hnil. lia. }
  { rewrite Hh1. exact Hjson. }
  rewrite Hq1, Hb1 in Ht2, Hp2. rewrite Hp1 in Hp2. simpl in Hp2.
  set (k2 := splice_count (batchSize (this s)) (length (drop b q))) in *.
  assert (Htake : take k2 (drop b q) = take b (drop b q)).
  { unfold k2, splice_count. fold b.
    destruct (decide (b <= length (drop b q))) as [Hle|Hgt].
    - f_equal. lia.
    - rewrite !take_ge; [done|lia|lia]. }
  assert (Hdrop : drop k2 (drop b q) = drop (b + b) q).
  { rewrite drop_drop. unfold k2, splice_count. fold b.
    pose proof (length_drop q b) as Hld.
    destruct (decide (b <= length (drop b q))) as [Hle|Hgt].
    - f_equal. lia.
    - rewrite !drop_ge; [done|lia|lia]. }
  rewrite Htake in Hp2. rewrite Hdrop in Ht2.
  assert (s2 = s2') as -> by (unfold s2; by rewrite E2).
  destruct (settle_rejected s2' _ _ _ _ Hp2 (Hdown _ _)) as (s3' & E3 & Ht3 & Hh3 & Hp3).
  assert (s3 = s3') as -> by (unfold s3; by rewrite E3).
  destruct (settle_rejected s3' _ _ _ _ Hp3 (Hdown _ _)) as (s4' & E4 & Ht4 & Hh4 & Hp4).
  assert (s4 = s4') as -> by (unfold s4; by rewrite E4).
  rewrite Ht4, Ht3, Ht2, Hp2, Hp4. simpl. by repeat split.
Qed.

End LifecycleFacts.

Section RegistrationFacts.
Context (env : Env) (registration_body : string -> string -> string).
Implicit Types (s : State) (c : TruseraClient) (w : World) (h : Heap).

Lemma registerAgent_run name framework s :
  let req := register_request registration_body (this s) name framework in
  let w1 := set_net (net (world s) ++ [req])
                    (logged (this s) "Registering agent" (world s)) in
  registerAgent env registration_body name framework s =
  match fetch_outcome env (length (net (world s))) req with
  | Rejected e => (Throw e, mkState (this s) w1)
  | Resolved r =>
      if resp_ok r then
        match resp_agent_id r with
        | Throw e => (Throw e, mkState (this s) w1)
        | Normal a =>
            (Normal a,
             mkState (set_agentId a (this s))
                     (logged (set_agentId a (this s)) "Agent registered" w1))
        end
      else
        match resp_text r with
        | Throw e => (Throw e, mkState (this s) w1)
        | Normal txt =>
            (Throw (Error ("Failed to register agent: "
                           ++ pretty (resp_status r) ++ " " ++ txt)%string),
             mkState (this s) w1)
        end
  end.
Proof.
  intros req w1. unfold registerAgent.
  erewrite bind_normal by apply log_run.
  unfold bind at 1, get at 1. cbn [this world].
  erewrite bind_normal by reflexivity.
  cbn [this world]. rewrite logged_net. fold req.
  destruct (fetch_outcome env _ _) as [r|e]; [|reflexivity].
  destruct (resp_ok r); simpl.
  - destruct (resp_agent_id r) as [a|e]; [|reflexivity].
    erewrite bind_normal by reflexivity.
    erewrite bind_normal by apply log_run. reflexivity.
  - by destruct (resp_text r).
Qed.

(** X12. When the registration request resolves with an ok response whose
    JSON carries agent_id a, registerAgent returns a, getAgentId() then
    returns a, the queue and the closed flag are unchanged, and exactly one
    request was issued: a POST to baseUrl + `/api/v1/agents/register` with
    the headers Content-Type: application/json and Authorization: Bearer
    <apiKey>. *)
Theorem registerAgent_stores_agent_id name framework s r a :
  let req := register_request registration_body (this s) name framework in
  fetch_outcome env (length (net (world s))) req = Resolved r ->
  resp_ok r = true ->
  resp_agent_id r = Normal a ->
  exists s',
    registerAgent env registration_body name framework s = (Normal a, s') /\
    getAgentId (this s') = a /\
    eventQueue (this s') = eventQueue (this s) /\
    isClosed (this s') = isClosed (this s) /\
    net (world s') = net (world s) ++ [req] /\
    req_url req = (baseUrl (this s) ++ "/api/v1/agents/register")%string /\
    req_method req = "POST" /\
    req_headers req = [("Content-Type", "application/json");
                       ("Authorization", ("Bearer " ++ apiKey (this s))%string)].
Proof.
  intros req Hf Hok Ha. rewrite registerAgent_run. fold req. rewrite Hf, Hok, Ha.
  eexists. split; [reflexivity|]. simpl. rewrite logged_net. simpl. by repeat split.
Qed.

(** X13. A failed registration throws and leaves the client as it was: on a
    non-ok response with text t it throws Error(`Failed to register agent:
    <status> <t>`), on a rejected fetch it throws the rejection itself; in
    both cases the agent id, the queue and every other field of the client
    are unchanged and exactly one request was issued. *)
Theorem registerAgent_failure_keeps_client name framework s :
  let req := register_request registration_body (this s) name framework in
  let outcome := fetch_outcome env (length (net (world s))) req in
  (forall r txt,
     outcome = Resolved r -> resp_ok r = false -> resp_text r = Normal txt ->
     exists w',
       registerAgent env registration_body name framework s =
         (Throw (Error ("Failed to register agent: "
                        ++ pretty (resp_status r) ++ " " ++ txt)%string),
          mkState (this s) w') /\
       net w' = net (world s) ++ [req]) /\
  (forall e,
     outcome = Rejected e ->
     exists w',
       registerAgent env registration_body name framework s =
         (Throw e, mkState (this s) w') /\
       net w' = net (world s) ++ [req]).
Proof.
  intros req outcome. subst outcome. split.
  - intros r txt Hf Hok Ht. rewrite registerAgent_run. fold req.
    rewrite Hf, Hok, Ht. eexists. split; reflexivity.
  - intros e Hf. rewrite registerAgent_run. fold req. rewrite Hf.
    eexists. split; reflexivity.
Qed.



End RegistrationFacts.

Section CreateEventFacts.
Context (env : Env).
Implicit Types (w : World) (h : Heap).

(** What [createEvent] does to the world: it allocates (at most five
    objects, the event last), draws one identifier and reads the clock
    once. *)
Lemma createEvent_run_facts ty name p m w :
  exists e ext pl ml w',
    createEvent env ty name p m w = (Normal (VRef e), w') /\
    heap w' = heap w ++ ext /\
    e = length (heap w) + (length ext - 1) /\
    0 < length ext /\
    heap w' !! e = Some (event_object (randomUUID env (uuids w)) ty name pl ml
                                      (nowISO env (clock w))) /\
    length (heap w) <= pl < e /\ length (heap w) <= ml < e /\
    uuids w' = S (uuids w) /\ clock w' = S (clock w) /\
    net w' = net w /\ pending w' = pending w /\ timers w' = timers w /\
    console w' = console w.
Proof.
  assert (Hdef : forall arg w0, exists v extra,
            default_object arg w0 = (Normal v, set_heap (heap w0 ++ extra) w0)).
  { intros [l|] w0; simpl.
    - exists (VRef l), nil. rewrite app_nil_r. by destruct w0.
    - by exists (VRef (length (heap w0))), (cons ∅ nil). }
  destruct (Hdef p w) as (pv & xp & Ep).
  destruct (Hdef m (set_heap (heap w ++ xp) w)) as (mv & xm & Em).
  unfold createEvent.
  erewrite bind_normal by exact Ep.
  erewrite bind_normal by exact Em.
  rewrite build_event_run. cbn [heap set_heap uuids clock net pending timers
                                console timer_count].
  set (h2 := (heap w ++ xp) ++ xm).
  eexists (length h2 + 2), (xp ++ xm ++ [_; _; _]), (length h2), (length h2 + 1), _.
  split; [reflexivity|]. cbn [heap uuids clock net pending timers console].
  assert (Hlen : length h2 = length (heap w) + length xp + length xm).
  { unfold h2. rewrite !length_app. lia. }
  split; [unfold h2; by rewrite <- !app_assoc|].
  rewrite !length_app. cbn [length].
  split; [lia|]. split; [lia|].
  split; [by rewrite lookup_alloc_plus|].
  repeat split; lia.
Qed.

(** X15. createEvent(type, name, payload, metadata) always returns a new
    object and modifies no existing one; its id is the next
    crypto.randomUUID() value, its type and name are the arguments and its
    timestamp is the current Date ISO string; the call draws exactly one
    UUID and one clock reading and sends nothing. *)
Theorem createEvent_fields ty name p m w :
  exists e w',
    createEvent env ty name p m w = (Normal (VRef e), w') /\
    length (heap w) <= e /\
    (forall l, l < length (heap w) -> heap w' !! l = heap w !! l) /\
    member (heap w') (VRef e) "id" = Some (VString (randomUUID env (uuids w))) /\
    member (heap w') (VRef e) "type" = Some (VString (EventType_value ty)) /\
    member (heap w') (VRef e) "name" = Some (VString name) /\
    member (heap w') (VRef e) "timestamp" = Some (VString (nowISO env (clock w))) /\
    uuids w' = S (uuids w) /\ clock w' = S (clock w) /\ net w' = net w.
Proof.
  destruct (createEvent_run_facts ty name p m w)
    as (e & ext & pl & ml & w' & E & Hh & He & Hext & Hev & _ & _ & Hu & Hc & Hn & _).
  exists e, w'. split; [exact E|]. split; [lia|]. split.
  { intros l Hl. rewrite Hh. by apply lookup_app_l. }
  unfold member, loc in *. rewrite Hev. simpl. unfold prop, event_object.
  repeat split; try done; by simplify_map_eq.
Qed.

(** X16. Two successive createEvent calls return two different objects, the
    second newer than the first, whose ids are the two UUIDs drawn in that
    order; the two ids differ whenever the two UUIDs differ. *)
Theorem createEvent_twice ty1 name1 p1 m1 ty2 name2 p2 m2 w :
  exists e1 w1 e2 w2,
    createEvent env ty1 name1 p1 m1 w = (Normal (VRef e1), w1) /\
    createEvent env ty2 name2 p2 m2 w1 = (Normal (VRef e2), w2) /\
    e1 < e2 /\
    member (heap w2) (VRef e1) "id" = Some (VString (randomUUID env (uuids w))) /\
    member (heap w2) (VRef e2) "id" = Some (VString (randomUUID env (S (uuids w)))) /\
    (randomUUID env (uuids w) <> randomUUID env (S (uuids w)) ->
     member (heap w2) (VRef e1) "id" <> member (heap w2) (VRef e2) "id").
Proof.
  destruct (createEvent_run_facts ty1 name1 p1 m1 w)
    as (e1 & ext1 & pl1 & ml1 & w1 & E1 & Hh1 & He1 & Hx1 & Hev1 & _ & _ & Hu1 & _).
  destruct (createEvent_run_facts ty2 name2 p2 m2 w1)
    as (e2 & ext2 & pl2 & ml2 & w2 & E2 & Hh2 & He2 & Hx2 & Hev2 & _ & _ & Hu2 & _).
  exists e1, w1, e2, w2. split; [exact E1|]. split; [exact E2|].
  assert (Hlt : e1 < length (heap w1)).
  { rewrite Hh1, length_app. lia. }
  split; [lia|].
  assert (Hid1 : member (heap w2) (VRef e1) "id"
                 = Some (VString (randomUUID env (uuids w)))).
  { unfold member, loc in *. rewrite Hh2, lookup_app_l by done. rewrite Hev1. simpl.
    unfold prop, event_object. by simplify_map_eq. }
  assert (Hid2 : member (heap w2) (VRef e2) "id"
                 = Some (VString (randomUUID env (S (uuids w))))).
  { unfold member, loc in *. rewrite Hev2, Hu1. simpl.
    unfold prop, event_object. by simplify_map_eq. }
  split; [exact Hid1|]. split; [exact Hid2|].
  rewrite Hid1, Hid2. congruence.
Qed.

Lemma createEvent_valid_run ty name p m w :
  exists e w', createEvent env ty name p m w = (Normal (VRef e), w') /\
               isValidEvent (heap w') (VRef e) = true /\
               net w' = net w /\ pending w' = pending w.
Proof.
  destruct (createEvent_run_facts ty name p m w)
    as (e & ext & pl & ml & w' & E & _ & _ & _ & Hev & _ & _ & _ & _ & Hn & Hp & _).
  exists e, w'. split; [exact E|]. split; [|by split].
  by eapply isValidEvent_event_object.
Qed.

(** X17. client.track(createEvent(type, name, payload, metadata)) on an open
    client that holds only valid events never throws, whatever the
    arguments: the client then holds exactly one more event, the enriched
    copy of the created event, and still holds only valid events. *)
Theorem track_createEvent ty name p m s :
  isClosed (this s) = false ->
  holds_valid_events s ->
  exists e w1 s2,
    createEvent env ty name p m (world s) = (Normal (VRef e), w1) /\
    track env (VRef e) (mkState (this s) w1) = (Normal tt, s2) /\
    held s2 = held s ++ [length (heap w1) + 1] /\
    holds_valid_events s2.
Proof.
  intros Hopen Hs.
  destruct (createEvent_run_facts ty name p m (world s))
    as (e & ext & pl & ml & w1 & E & Hh & _ & _ & Hev & _ & _ & _ & _ & _ & Hp & _).
  exists e, w1. set (s1 := mkState (this s) w1).
  assert (Hv : isValidEvent (heap (world s1)) (VRef e) = true)
    by (by eapply isValidEvent_event_object).
  assert (Hheld1 : held s1 = held s) by (unfold held, s1; simpl; by rewrite Hp).
  assert (Hpushed : holds_valid_events (pushed s1 e)).
  { unfold holds_valid_events. rewrite held_pushed, heap_pushed, Hheld1.
    apply Forall_app. split.
    - unfold enriched_heap. eapply Forall_impl; [exact Hs|]. intros x Hx. simpl in Hx |- *.
      apply isValidEvent_extend. rewrite Hh. by apply isValidEvent_extend.
    - apply Forall_singleton. by apply enriched_copy_valid. }
  rewrite track_open_run by exact Hopen.
  destruct (_ <=? _)%Z.
  - destruct (void_flush_held env (pushed s1 e)) as (s2 & E2 & Hh2 & Hheld2 & _).
    exists s2. split; [exact E|]. split; [exact E2|].
    split; [by rewrite Hheld2, held_pushed, Hheld1|].
    unfold holds_valid_events. by rewrite Hh2, Hheld2.
  - exists (pushed s1 e). split; [exact E|]. split; [reflexivity|].
    split; [by rewrite held_pushed, Hheld1|exact Hpushed].
Qed.

End CreateEventFacts.

(* ===================================================================== *)
(** * The callback handler *)
(* ===================================================================== *)

Import LangChain.

Section HandlerFacts.
Context (env : Env) (object_to_string : Heap -> loc -> string).
Context (Object_keys : Obj -> list string).
Implicit Types (s : State) (hs : Handler) (w : World) (h : Heap) (cb : Callback).

Lemma allocates_refl w : allocates w w.
Proof. split; [exists []; by rewrite app_nil_r|done]. Qed.

Lemma allocates_trans w1 w2 w3 : allocates w1 w2 -> allocates w2 w3 -> allocates w1 w3.
Proof.
  intros ([x1 Hx1] & ? & ? & ? & ?) ([x2 Hx2] & ? & ? & ? & ?).
  split; [exists (x1 ++ x2); by rewrite Hx2, Hx1, app_assoc|].
  repeat split; congruence.
Qed.

Lemma allocates_alloc o w : allocates w (snd (alloc o w)).
Proof. split; [by exists [o]|done]. Qed.

Lemma allocates_length w w' : allocates w w' -> length (heap w) <= length (heap w').
Proof. intros ([x ->] & _). rewrite length_app. lia. Qed.

Lemma allocates_lookup w w' l o :
  allocates w w' -> heap w !! l = Some o -> heap w' !! l = Some o.
Proof. intros ([x ->] & _) H. by apply lookup_app_l_Some. Qed.

Lemma event_with_extend h ext v ty name po mo :
  event_with h v ty name po mo -> event_with (h ++ ext) v ty name po mo.
Proof.
  intros (e & id & p & m & ts & -> & He & Hp & Hm).
  exists e, id, p, m, ts. repeat split; by apply lookup_app_l_Some.
Qed.

Lemma event_with_valid h v ty name po mo :
  event_with h v ty name po mo -> isValidEvent h v = true.
Proof. intros (e & id & p & m & ts & -> & He & _). by eapply isValidEvent_event_object. Qed.

Lemma event_object_metadata id ty name p m m' ts :
  <["metadata" := VRef m']> (event_object id ty name p m ts)
  = event_object id ty name p m' ts.
Proof.
  unfold event_object.
  rewrite (insert_insert_ne _ "metadata" "timestamp") by done.
  by rewrite insert_insert_eq.
Qed.

Lemma value_allocated_spread h more v :
  value_allocated h v -> spread (h ++ more) v = spread h v.
Proof. destruct v; try done. simpl. intros Hl. by rewrite lookup_app_l. Qed.

Lemma value_allocated_extend h more v :
  value_allocated h v -> value_allocated (h ++ more) v.
Proof. destruct v; try done. simpl. rewrite length_app. lia. Qed.

Lemma on_heap_run {A} (m : M World A) hs :
  on_heap m hs =
  (fst (m (world (client hs))),
   mkHandler (mkState (this (client hs)) (snd (m (world (client hs)))))
             (pendingEvents hs)).
Proof.
  unfold on_heap, in_client, in_world, zoom, set_client. simpl.
  by destruct (m (world (client hs))).
Qed.

Lemma on_heap_normal {A} (m : M World A) hs a w' :
  m (world (client hs)) = (Normal a, w') ->
  on_heap m hs = (Normal a, mkHandler (mkState (this (client hs)) w') (pendingEvents hs)).
Proof. intros H. by rewrite on_heap_run, H. Qed.

Lemma default_value_run v w :
  exists v' extra,
    default_value v w = (Normal v', set_heap (heap w ++ extra) w) /\
    (value_allocated (heap w) v ->
     forall more, spread ((heap w ++ extra) ++ more) v' = spread (heap w) v).
Proof.
  destruct v as [| | | | |l]; simpl.
  1: { exists (VRef (length (heap w))), [∅]. split; [reflexivity|].
       intros _ more. simpl. rewrite <- app_assoc. simpl.
       rewrite lookup_app_r by lia. by rewrite Nat.sub_diag. }
  5: { exists (VRef l), []. rewrite app_nil_r. split; [by destruct w|].
       intros Hl more. simpl. by rewrite lookup_app_l. }
  all: eexists _, []; rewrite app_nil_r; (split; [by destruct w|done]).
Qed.

(** [createEvent] on values: a fresh event object with a fresh payload
    object and a fresh metadata object. *)
Lemma createEvent_values_run ty name pv mv w :
  exists e pl ml w' po mo,
    createEvent_values env ty name pv mv w = (Normal (VRef e), w') /\
    allocates w w' /\ length (heap w) <= e /\
    heap w' !! e = Some (event_object (randomUUID env (uuids w)) ty name pl ml
                                      (nowISO env (clock w))) /\
    heap w' !! pl = Some po /\ heap w' !! ml = Some mo /\
    (value_allocated (heap w) pv -> po = spread (heap w) pv) /\
    (value_allocated (heap w) mv -> mo = spread (heap w) mv).
Proof.
  destruct (default_value_run pv w) as (pv' & xp & Ep & Hpv).
  destruct (default_value_run mv (set_heap (heap w ++ xp) w)) as (mv' & xm & Em & Hmv).
  unfold createEvent_values.
  erewrite bind_normal by exact Ep.
  erewrite bind_normal by exact Em.
  rewrite build_event_run. cbn [heap set_heap uuids clock net pending timers
                                console timer_count] in *.
  set (h2 := (heap w ++ xp) ++ xm) in *.
  eexists (length h2 + 2), (length h2), (length h2 + 1), _, _, _.
  split; [reflexivity|]. cbn [heap net pending timers console].
  split.
  { split; [|done]. exists (xp ++ xm ++ [spread h2 pv'; spread (h2 ++ [spread h2 pv']) mv';
      event_object (randomUUID env (uuids w)) ty name (length h2) (length h2 + 1)
                   (nowISO env (clock w))]).
    unfold h2. by rewrite <- !app_assoc. }
  split; [unfold h2; rewrite !length_app; lia|].
  split; [by rewrite lookup_alloc_plus|].
  split; [by rewrite <- (Nat.add_0_r (length h2)) at 1; rewrite lookup_alloc_plus|].
  split; [by rewrite lookup_alloc_plus|].
  split.
  - intros Hv. unfold h2. rewrite <- (app_nil_r ((heap w ++ xp) ++ xm)).
    rewrite <- app_assoc. by apply Hpv.
  - intros Hv. rewrite Hmv by (by apply value_allocated_extend).
    by apply value_allocated_spread.
Qed.

Lemma createEvent_as_values ty name p m :
  createEvent env ty name p m
  = createEvent_values env ty name (arg_value p) (arg_value m).
Proof. by destruct p, m. Qed.

Lemma start_metadata_run runId pr tags md w :
  exists ml w' mo,
    start_metadata runId pr tags md w = (Normal ml, w') /\
    allocates w w' /\ ml < length (heap w') /\
    heap w' !! ml = Some mo /\
    (value_allocated (heap w) (arg_value md) ->
     mo = spread (heap w) (arg_value md)
          ∪ run_metadata runId pr (default (length (heap w)) tags)) /\
    (tags = None -> heap w' !! length (heap w) = Some (array_object [])).
Proof.
  destruct tags as [tg|]; cbn.
  - eexists _, _, _. split; [reflexivity|].
    split; [apply (allocates_alloc _ w)|]. cbn [heap set_heap].
    split; [rewrite length_app; simpl; lia|].
    split; [apply lookup_alloc_new|done].
  - eexists _, _, _. split; [reflexivity|].
    split.
    { split; [|done]. eexists [_; _]. cbn [heap set_heap]. by rewrite <- app_assoc. }
    cbn [heap set_heap].
    split; [rewrite !length_app; simpl; lia|].
    split; [apply lookup_alloc_new|].
    split; [intros Hmd; by rewrite value_allocated_spread|].
    intros _. apply lookup_app_l_Some, lookup_alloc_new.
Qed.

(** What a start handler does once its payload object is built. *)
Lemma start_run_run ty name payload po runId pr tags md hs :
  let c := client hs in
  let h := heap (world c) in
  h !! payload = Some po ->
  exists e w1 mo,
    allocates (world c) w1 /\ length h <= e < length (heap w1) /\
    event_with (heap w1) (VRef e) ty name po mo /\
    (value_allocated h (arg_value md) ->
     mo = spread h (arg_value md) ∪ run_metadata runId pr (default (length h) tags)) /\
    (tags = None -> heap w1 !! length h = Some (array_object [])) /\
    start_run env ty name payload runId pr tags md hs =
      (fst (track env (VRef e) (mkState (this c) w1)),
       mkHandler (snd (track env (VRef e) (mkState (this c) w1)))
                 (<[runId := VRef e]> (pendingEvents hs))).
Proof.
  intros c h Hpo.
  destruct (start_metadata_run runId pr tags md (world c))
    as (ml & w0 & mo & Em & Ha0 & Hml & Hmo & Hmd & Htags).
  destruct (createEvent_values_run ty name (VRef payload) (VRef ml) w0)
    as (e & pl & ml' & w1 & po' & mo' & Ee & Ha1 & He & Hev & Hpl & Hml' & Hpo' & Hmo').
  exists e, w1, mo.
  split; [by eapply allocates_trans|].
  split; [pose proof (allocates_length _ _ Ha0); apply lookup_lt_Some in Hev;
          unfold h; lia|].
  assert (Hp0 : heap w0 !! payload = Some po) by (by eapply allocates_lookup).
  split.
  { exists e, (randomUUID env (uuids w0)), pl, ml', (nowISO env (clock w0)).
    split; [done|]. split; [exact Hev|].
    rewrite Hpl, Hml', Hpo', Hmo'.
    - unfold spread. unfold loc in *. by rewrite Hp0, Hmo.
    - exact Hml.
    - simpl. by apply lookup_lt_Some in Hp0. }
  split; [exact Hmd|].
  split; [intros Ht; eapply allocates_lookup; [exact Ha1|by apply Htags]|].
  unfold start_run.
  erewrite bind_normal by (apply on_heap_normal; exact Em).
  erewrite bind_normal
    by (apply on_heap_normal; rewrite createEvent_as_values; exact Ee).
  unfold bind at 1, Map_set, modify. cbn [client this pendingEvents set_pendingEvents].
  unfold in_client, zoom, set_client. cbn [client this world pendingEvents].
  by destruct (track env (VRef e) _).
Qed.

(** [track] on an open client: the enriched copy joins what the client
    holds. *)
Lemma track_open_facts s e :
  isClosed (this s) = false ->
  exists s2,
    track env (VRef e) s = (Normal tt, s2) /\
    heap (world s2) = enriched_heap s e /\
    held s2 = held s ++ [enriched_ref s] /\
    isClosed (this s2) = false /\
    agentId (this s2) = agentId (this s).
Proof.
  intros Hopen. rewrite track_open_run by exact Hopen.
  destruct (_ <=? _)%Z.
  - destruct (void_flush_run env (pushed s e)) as (q & w' & started & E & Hh & Hp & Hq).
    eexists. split; [exact E|]. cbn [this world].
    split; [by rewrite Hh, heap_pushed|].
    split; [|unfold pushed; simpl; by rewrite Hopen].
    rewrite <- (held_pushed s e). unfold held at 1.
    cbn [this world eventQueue set_eventQueue].
    rewrite Hp, map_app, concat_app, <- app_assoc. by rewrite Hq.
  - exists (pushed s e). split; [reflexivity|].
    split; [apply heap_pushed|]. split; [apply held_pushed|].
    unfold pushed; simpl; by rewrite Hopen.
Qed.

Lemma event_with_enriched s e ty name po mo :
  event_with (heap (world s)) (VRef e) ty name po mo ->
  event_with (enriched_heap s e) (VRef (enriched_ref s)) ty name po
    (<["sdk_version" := VString SDK_VERSION]>
     (<["agent_id" := string_or_undefined (agentId (this s))]> mo)).
Proof.
  intros (e' & id & p & m & ts & [= <-] & He & Hp & Hm).
  exists (enriched_ref s), id, p, (length (heap (world s))), ts.
  split; [reflexivity|]. unfold enriched_heap, enriched_ref, spread, loc in *.
  rewrite He. replace (default ∅ (Some (event_object id ty name p m ts)))
    with (event_object id ty name p m ts) by reflexivity.
  rewrite event_object_metadata.
  split; [by rewrite lookup_alloc_plus|].
  split; [by apply lookup_app_l_Some|].
  rewrite <- (Nat.add_0_r (length (heap (world s)))) at 1.
  rewrite lookup_alloc_plus. cbn. unfold prop, event_object.
  by simplify_map_eq.
Qed.

(** What an end or error handler does once the start event is found. *)
Lemma complete_run_run ty sfx sv added runId hs :
  let c := client hs in
  let h := heap (world c) in
  exists e w1,
    allocates (world c) w1 /\ length h <= e < length (heap w1) /\
    isValidEvent (heap w1) (VRef e) = true /\
    (forall ty0 name po mo,
       event_with h sv ty0 name po mo ->
       event_with (heap w1) (VRef e) ty (name ++ sfx)%string (added ∪ po) mo) /\
    complete_run env object_to_string ty sfx sv added runId hs =
      match track env (VRef e) (mkState (this c) w1) with
      | (Normal _, s2) => (Normal tt, mkHandler s2 (delete runId (pendingEvents hs)))
      | (Throw er, s2) => (Throw er, mkHandler s2 (pendingEvents hs))
      end.
Proof.
  intros c h.
  set (start := spread h sv).
  set (X := added ∪ spread h (prop start "payload")).
  set (w0 := set_heap (h ++ [X]) (world c)).
  destruct (createEvent_values_run ty (to_string object_to_string h (prop start "name") ++ sfx)%string
              (VRef (length h)) (prop start "metadata") w0)
    as (e & pl & ml & w1 & po' & mo' & Ee & Ha1 & He & Hev & Hpl & Hml & Hpo' & Hmo').
  exists e, w1.
  assert (Ha0 : allocates (world c) w0) by apply (allocates_alloc X (world c)).
  split; [by eapply allocates_trans|].
  split; [pose proof (allocates_length _ _ Ha0); apply lookup_lt_Some in Hev;
          unfold h; lia|].
  split; [by eapply isValidEvent_event_object|].
  split.
  { intros ty0 name po mo (e0 & id & p & m & ts & -> & He0 & Hp & Hm).
    assert (Hstart : start = event_object id ty0 name p m ts).
    { unfold start, spread, h, c, loc in *. by rewrite He0. }
    assert (Hname : prop start "name" = VString name)
      by (rewrite Hstart; unfold prop, event_object; by simplify_map_eq).
    assert (Hpay : prop start "payload" = VRef p)
      by (rewrite Hstart; unfold prop, event_object; by simplify_map_eq).
    assert (Hmeta : prop start "metadata" = VRef m)
      by (rewrite Hstart; unfold prop, event_object; by simplify_map_eq).
    rewrite Hname, Hmeta in *. cbn [to_string] in Hev.
    exists e, (randomUUID env (uuids w0)), pl, ml, (nowISO env (clock w0)).
    split; [reflexivity|]. split; [exact Hev|].
    rewrite Hpl, Hml, Hpo', Hmo'.
    - split.
      + unfold w0. cbn [heap set_heap spread]. rewrite lookup_alloc_new. cbn.
        unfold X. rewrite Hpay. unfold spread, loc in *. by rewrite Hp.
      + unfold w0. cbn [heap set_heap spread]. unfold loc in *.
        rewrite lookup_app_l by (by apply lookup_lt_Some in Hm).
        by rewrite Hm.
    - unfold w0. cbn [heap set_heap value_allocated]. rewrite length_app.
      apply lookup_lt_Some in Hm. simpl. lia.
    - unfold w0. cbn [heap set_heap value_allocated]. rewrite length_app. simpl. lia. }
  unfold complete_run. unfold bind at 1, get at 1.
  fold c h start X.
  erewrite bind_normal by (apply on_heap_normal; reflexivity).
  fold c h w0.
  erewrite bind_normal by (apply on_heap_normal; exact Ee).
  unfold bind, in_client, zoom, set_client, Map_delete, modify.
  cbn [client this world pendingEvents set_pendingEvents].
  by destruct (track env (VRef e) _) as [[[]|er] s2].
Qed.

Local Abbreviation handle_cb := (handle env object_to_string Object_keys).

(** A start handler builds its payload object and goes on as [start_run]. *)
Lemma start_callback_run cb hs :
  is_start cb = true ->
  let c := client hs in
  let h := heap (world c) in
  exists payload w0,
    allocates (world c) w0 /\
    heap w0 !! payload = Some (start_payload h cb) /\
    handle_cb cb hs =
      start_run env (event_type cb) (start_name cb) payload (run_id cb)
                (parent_of cb) (tags_of cb) (metadata_of cb)
                (mkHandler (mkState (this c) w0) (pendingEvents hs)).
Proof.
  intros Hstart c h.
  destruct cb as [n p r pr x t m| | |n i r pr t m| | |n i r pr t m| |];
    try discriminate; cbn [handle event_type start_name run_id parent_of tags_of
                           metadata_of start_payload].
  - unfold handleLLMStart.
    destruct x as [x|]; cbn [nullish_alloc default].
    + erewrite bind_normal by (apply on_heap_normal; reflexivity).
      unfold bind at 1, get at 1. cbn [client world this pendingEvents].
      erewrite bind_normal by (apply on_heap_normal; reflexivity).
      fold c h. eexists _, _. split; [|split]; cycle 2.
      { reflexivity. }
      { apply (allocates_alloc _ (world c)). }
      apply lookup_alloc_new.
    + erewrite bind_normal by (apply on_heap_normal; reflexivity).
      unfold bind at 1, get at 1. cbn [client world this pendingEvents].
      erewrite bind_normal by (apply on_heap_normal; reflexivity).
      fold c h. eexists _, _. split; [|split]; cycle 2.
      { reflexivity. }
      { eapply allocates_trans; [apply (allocates_alloc ∅ (world c))|].
        apply allocates_alloc. }
      cbn [alloc snd fst heap set_heap]. rewrite lookup_alloc_new. f_equal.
      fold h. f_equal. f_equal. f_equal.
      unfold spread, loc in *.
      destruct (decide (p < length h)) as [Hp|Hp].
      * by rewrite lookup_app_l.
      * rewrite (lookup_ge_None_2 h p) by lia.
        destruct (decide (p = length h)) as [->|Hne].
        -- by rewrite lookup_alloc_new.
        -- rewrite lookup_ge_None_2; [done|]. rewrite length_app. simpl. lia.
  - unfold handleToolStart.
    erewrite bind_normal by (apply on_heap_normal; reflexivity).
    fold c h. eexists _, _. split; [|split]; cycle 2.
    { reflexivity. }
    { apply (allocates_alloc _ (world c)). }
    apply lookup_alloc_new.
  - unfold handleChainStart.
    unfold bind at 1, get at 1.
    erewrite bind_normal by (apply on_heap_normal; reflexivity).
    erewrite bind_normal by (apply on_heap_normal; reflexivity).
    fold c h. eexists _, _. split; [|split]; cycle 2.
    { reflexivity. }
    { eapply allocates_trans;
        [apply (allocates_alloc
                  (array_object (map VString (Object_keys (spread h (VRef i)))))
                  (world c))|].
      apply allocates_alloc. }
    cbn [alloc snd fst heap set_heap]. by rewrite lookup_alloc_new.
Qed.

(** An end or error handler that finds no start event does nothing. *)
Lemma finish_callback_skip cb hs :
  is_start cb = false ->
  truthy (default VUndefined (pendingEvents hs !! run_id cb)) = false ->
  handle_cb cb hs = (Normal tt, hs).
Proof.
  intros Hfin Hfalsy.
  destruct cb; try discriminate; cbn [handle run_id] in *.
  all: unfold handleLLMEnd, handleLLMError, handleToolEnd, handleToolError,
         handleChainEnd, handleChainError.
  all: unfold bind at 1, Map_get; by rewrite Hfalsy.
Qed.

(** An end or error handler that finds the start event builds what it adds
    and goes on as [complete_run]. *)
Lemma finish_callback_run cb hs :
  is_start cb = false ->
  truthy (default VUndefined (pendingEvents hs !! run_id cb)) = true ->
  let c := client hs in
  let h := heap (world c) in
  exists w0,
    allocates (world c) w0 /\
    handle_cb cb hs =
      complete_run env object_to_string (event_type cb) (suffix cb)
        (default VUndefined (pendingEvents hs !! run_id cb))
        (added_fields h cb) (run_id cb)
        (mkHandler (mkState (this c) w0) (pendingEvents hs)).
Proof.
  intros Hfin Htruthy c h.
  destruct cb; try discriminate; cbn [handle run_id event_type suffix added_fields] in *.
  all: unfold handleLLMEnd, handleLLMError, handleToolEnd, handleToolError,
         handleChainEnd, handleChainError.
  all: unfold bind at 1, Map_get; rewrite Htruthy; cbn [negb].
  - erewrite bind_normal by (apply on_heap_normal; reflexivity).
    fold c h. eexists. split; [|reflexivity]. apply (allocates_alloc _ (world c)).
  - exists (world c). split; [apply allocates_refl|]. by destruct hs as [[] ?].
  - exists (world c). split; [apply allocates_refl|]. by destruct hs as [[] ?].
  - exists (world c). split; [apply allocates_refl|]. by destruct hs as [[] ?].
  - unfold bind at 1, get at 1.
    erewrite bind_normal by (apply on_heap_normal; reflexivity).
    fold c h. eexists. split; [|reflexivity]. apply (allocates_alloc _ (world c)).
  - exists (world c). split; [apply allocates_refl|]. by destruct hs as [[] ?].
Qed.

(** A start callback, whatever the state of the client: the event, its
    metadata, and the call of [track] it ends with. *)
Lemma start_callback_facts cb hs :
  is_start cb = true ->
  let c := client hs in
  let h := heap (world c) in
  exists e w1 mo,
    allocates (world c) w1 /\ length h <= e < length (heap w1) /\
    event_with (heap w1) (VRef e) (event_type cb) (start_name cb)
               (start_payload h cb) mo /\
    (value_allocated h (arg_value (metadata_of cb)) ->
     exists tg,
       mo = spread h (arg_value (metadata_of cb))
            ∪ run_metadata (run_id cb) (parent_of cb) tg /\
       (forall t, tags_of cb = Some t -> tg = t) /\
       (tags_of cb = None -> heap w1 !! tg = Some (array_object []))) /\
    handle_cb cb hs =
      (fst (track env (VRef e) (mkState (this c) w1)),
       mkHandler (snd (track env (VRef e) (mkState (this c) w1)))
                 (<[run_id cb := VRef e]> (pendingEvents hs))).
Proof.
  intros Hstart c h.
  destruct (start_callback_run cb hs Hstart) as (payload & w0 & Ha0 & Hpo & E).
  destruct (start_run_run (event_type cb) (start_name cb) payload _ (run_id cb)
              (parent_of cb) (tags_of cb) (metadata_of cb)
              (mkHandler (mkState (this c) w0) (pendingEvents hs)) Hpo)
    as (e & w1 & mo & Ha1 & He & Hev & Hmo & Htags & E1).
  cbn [client this world pendingEvents] in *. subst h c.
  exists e, w1, mo.
  split; [by eapply allocates_trans|].
  split; [pose proof (allocates_length _ _ Ha0); lia|].
  split; [exact Hev|].
  split; [|by rewrite E, E1].
  intros Hmd. destruct Ha0 as [[ext Hext] _].
  exists (default (length (heap w0)) (tags_of cb)).
  split.
  { rewrite Hmo by (rewrite Hext; by apply value_allocated_extend).
    rewrite Hext. by rewrite value_allocated_spread. }
  split; [by intros t ->|]. intros Ht. rewrite Ht. by apply Htags.
Qed.

(** An event handed to [track] on a client holding valid events: the
    client still holds valid events, closed or not, on a heap that has only
    grown. *)
Lemma track_event_valid s e :
  isValidEvent (heap (world s)) (VRef e) = true ->
  holds_valid_events s ->
  holds_valid_events (snd (track env (VRef e) s)) /\
  exists ext, heap (world (snd (track env (VRef e) s))) = heap (world s) ++ ext.
Proof.
  intros Hv Hs. split.
  - apply (run_op_keeps_valid env (fun _ _ => ""%string) (OpTrack (VRef e)) s Hv Hs).
  - apply (run_op_held env (fun _ _ => ""%string) (OpTrack (VRef e)) s Hv).
Qed.

Lemma holds_valid_events_allocates c w w1 :
  allocates w w1 ->
  holds_valid_events (mkState c w) -> holds_valid_events (mkState c w1).
Proof.
  intros ([ext Hext] & _ & Hp & _) Hs. unfold holds_valid_events, held in *.
  cbn [this world] in *. rewrite Hp, Hext.
  eapply Forall_impl; [exact Hs|]. intros x. apply isValidEvent_extend.
Qed.

Lemma pending_valid_extend (p : gmap string Value) h ext :
  map_Forall (fun _ v => isValidEvent h v = true) p ->
  map_Forall (fun _ v => isValidEvent (h ++ ext) v = true) p.
Proof. intros Hp k v Hk. apply isValidEvent_extend. by apply (Hp k). Qed.

(** One callback keeps the client and the handler in order. *)
Lemma handle_keeps_valid cb hs :
  holds_valid_events (client hs) -> pending_valid hs ->
  holds_valid_events (client (snd (handle_cb cb hs))) /\
  pending_valid (snd (handle_cb cb hs)).
Proof.
  intros Hs Hp. destruct hs as [[c w] p]. unfold pending_valid in *.
  cbn [client pendingEvents this world] in *.
  destruct (is_start cb) eqn:Hstart.
  - destruct (start_callback_facts cb (mkHandler (mkState c w) p) Hstart)
      as (e & w1 & mo & Ha & He & Hev & _ & E).
    cbn [client pendingEvents this world] in *. rewrite E. cbn [snd client pendingEvents].
    apply event_with_valid in Hev.
    destruct (track_event_valid (mkState c w1) e Hev) as [Hs2 [ext2 Hh2]].
    { by eapply holds_valid_events_allocates. }
    split; [exact Hs2|]. rewrite Hh2. cbn [world].
    destruct Ha as [[ext Hext] _].
    apply map_Forall_insert_2.
    + by apply isValidEvent_extend.
    + rewrite Hext. by do 2 apply pending_valid_extend.
  - destruct (truthy (default VUndefined (p !! run_id cb))) eqn:Htr.
    2: { rewrite finish_callback_skip by done. by split. }
    destruct (finish_callback_run cb (mkHandler (mkState c w) p) Hstart Htr)
      as (w0 & Ha0 & E).
    cbn [client pendingEvents this world] in *. rewrite E.
    destruct (complete_run_run (event_type cb) (suffix cb)
                (default VUndefined (p !! run_id cb))
                (added_fields (heap w) cb) (run_id cb)
                (mkHandler (mkState c w0) p))
      as (e & w1 & Ha1 & He & Hev & _ & E1).
    cbn [client pendingEvents this world] in *. rewrite E1.
    assert (Ha : allocates w w1) by (by eapply allocates_trans).
    destruct (track_event_valid (mkState c w1) e Hev) as [Hs2 [ext2 Hh2]].
    { by eapply holds_valid_events_allocates. }
    destruct Ha as [[ext Hext] _]. cbn [world] in Hh2.
    destruct (track env (VRef e) (mkState c w1)) as [[[]|er] s2];
      cbn [snd client pendingEvents] in *.
    + split; [exact Hs2|]. rewrite Hh2, Hext.
      apply map_Forall_delete. by do 2 apply pending_valid_extend.
    + split; [exact Hs2|]. rewrite Hh2, Hext.
      by do 2 apply pending_valid_extend.
Qed.

(** X18. Invariant of the LangChain handler: starting from a client that
    holds only valid events and a pending map whose entries are valid
    events, after any sequence of the nine callbacks, with any arguments, on
    an open or a closed client, whether they throw or not, the client still
    holds only events that satisfy isValidEvent and every pending entry is
    still a valid event. *)
Theorem handler_keeps_events_valid cbs hs :
  holds_valid_events (client hs) -> pending_valid hs ->
  holds_valid_events (client (handle_all env object_to_string Object_keys cbs hs)) /\
  pending_valid (handle_all env object_to_string Object_keys cbs hs).
Proof.
  revert hs. induction cbs as [|cb cbs IH]; intros hs Hs Hp; [by split|].
  simpl. destruct (handle_keeps_valid cb hs Hs Hp) as [Hs' Hp']. by apply IH.
Qed.

(** What an open client holds after [track] of an event built by the
    handler. *)
Lemma track_built_event c w1 e ty name po mo :
  isClosed c = false ->
  event_with (heap w1) (VRef e) ty name po mo ->
  e < length (heap w1) ->
  exists s2 e',
    track env (VRef e) (mkState c w1) = (Normal tt, s2) /\
    (exists ext, heap (world s2) = heap w1 ++ ext) /\
    held s2 = held (mkState c w1) ++ [e'] /\ e < e' /\
    event_with (heap (world s2)) (VRef e') ty name po
      (<["sdk_version" := VString SDK_VERSION]>
       (<["agent_id" := string_or_undefined (agentId c)]> mo)) /\
    isClosed (this s2) = false /\ agentId (this s2) = agentId c.
Proof.
  intros Hopen Hev He.
  destruct (track_open_facts (mkState c w1) e Hopen) as (s2 & E & Hh & Hheld & Hc & Ha).
  exists s2, (enriched_ref (mkState c w1)).
  split; [exact E|]. split; [rewrite Hh; unfold enriched_heap; eauto|].
  split; [exact Hheld|]. split; [unfold enriched_ref; simpl; lia|].
  split; [|by split]. rewrite Hh.
  by apply (event_with_enriched (mkState c w1)).
Qed.

(** X19. On an open client, handleLLMStart, handleToolStart and
    handleChainStart return normally, store the created event under runId in
    the pending map (replacing an earlier entry of that run id) and make the
    client hold exactly one more event: an enriched copy with the same type
    (llm_invoke, tool_call, decision), the same name (`langchain.llm.`,
    `langchain.tool.`, `langchain.chain.` followed by the component's name)
    and the same payload ({prompts, prompt_count, invocation_params},
    {input, input_length}, {inputs, input_keys}), whose metadata is the
    event's metadata plus agent_id and sdk_version; the client stays open. *)
Theorem start_callback_registers_run cb hs :
  is_start cb = true ->
  isClosed (this (client hs)) = false ->
  exists hs' e e' mo,
    handle_cb cb hs = (Normal tt, hs') /\
    pendingEvents hs' = <[run_id cb := VRef e]> (pendingEvents hs) /\
    held (client hs') = held (client hs) ++ [e'] /\
    length (heap (world (client hs))) <= e < e' /\
    event_with (heap (world (client hs'))) (VRef e) (event_type cb) (start_name cb)
      (start_payload (heap (world (client hs))) cb) mo /\
    event_with (heap (world (client hs'))) (VRef e') (event_type cb) (start_name cb)
      (start_payload (heap (world (client hs))) cb)
      (<["sdk_version" := VString SDK_VERSION]>
       (<["agent_id" := string_or_undefined (agentId (this (client hs)))]> mo)) /\
    isClosed (this (client hs')) = false.
Proof.
  intros Hstart Hopen.
  destruct (start_callback_facts cb hs Hstart) as (e & w1 & mo & Ha & He & Hev & _ & E).
  destruct (track_built_event _ _ _ _ _ _ _ Hopen Hev (proj2 He))
    as (s2 & e' & Et & [ext Hh] & Hheld & Hlt & Hev' & Hc & _).
  rewrite Et in E. cbn [fst snd] in E.
  eexists _, e, e', mo. split; [exact E|]. cbn [client pendingEvents].
  split; [reflexivity|].
  split.
  { rewrite Hheld. unfold held. cbn [this world].
    destruct Ha as (_ & _ & -> & _). reflexivity. }
  split; [lia|].
  split; [rewrite Hh; by apply event_with_extend|].
  split; [exact Hev'|exact Hc].
Qed.

(** X20. An end or error callback (handleLLMEnd, handleLLMError,
    handleToolEnd, handleToolError, handleChainEnd, handleChainError) whose
    runId has no pending entry returns normally and changes nothing: no
    event is created or tracked, nothing is allocated, and nothing is thrown
    even when the client is closed. *)
Theorem finish_unknown_run_is_noop cb hs :
  is_start cb = false ->
  pendingEvents hs !! run_id cb = None ->
  handle_cb cb hs = (Normal tt, hs).
Proof.
  intros Hfin Hnone. apply finish_callback_skip; [exact Hfin|]. by rewrite Hnone.
Qed.

(** An end or error callback on an open client, for a run whose start event
    is pending. *)
Lemma finish_callback_facts cb hs sv ty0 name po mo :
  is_start cb = false ->
  isClosed (this (client hs)) = false ->
  pendingEvents hs !! run_id cb = Some sv ->
  event_with (heap (world (client hs))) sv ty0 name po mo ->
  exists s2 e',
    handle_cb cb hs = (Normal tt, mkHandler s2 (delete (run_id cb) (pendingEvents hs))) /\
    (exists ext, heap (world s2) = heap (world (client hs)) ++ ext) /\
    held s2 = held (client hs) ++ [e'] /\
    length (heap (world (client hs))) <= e' /\
    event_with (heap (world s2)) (VRef e') (event_type cb) (name ++ suffix cb)%string
      (added_fields (heap (world (client hs))) cb ∪ po)
      (<["sdk_version" := VString SDK_VERSION]>
       (<["agent_id" := string_or_undefined (agentId (this (client hs)))]> mo)) /\
    isClosed (this s2) = false /\ agentId (this s2) = agentId (this (client hs)).
Proof.
  intros Hfin Hopen Hsv Hstart.
  assert (Htr : truthy (default VUndefined (pendingEvents hs !! run_id cb)) = true).
  { rewrite Hsv. by destruct Hstart as (e0 & ? & ? & ? & ? & -> & _). }
  destruct (finish_callback_run cb hs Hfin Htr) as (w0 & Ha0 & E).
  rewrite Hsv in E. change (default VUndefined (Some sv)) with sv in E.
  destruct (complete_run_run (event_type cb) (suffix cb) sv
              (added_fields (heap (world (client hs))) cb) (run_id cb)
              (mkHandler (mkState (this (client hs)) w0) (pendingEvents hs)))
    as (e & w1 & Ha1 & He & _ & Hev & E1).
  cbn [client pendingEvents this world] in *.
  assert (Ha : allocates (world (client hs)) w1) by (by eapply allocates_trans).
  destruct Ha0 as [[ext0 Hext0] _].
  specialize (Hev ty0 name po mo).
  rewrite Hext0 in Hev. specialize (Hev (event_with_extend _ _ _ _ _ _ _ Hstart)).
  destruct (track_built_event _ _ _ _ _ _ _ Hopen Hev (proj2 He))
    as (s2 & e' & Et & [ext Hh] & Hheld & Hlt & Hev' & Hc & Hag).
  rewrite Et in E1. rewrite E1 in E.
  exists s2, e'. split; [exact E|].
  destruct Ha as ([ext1 Hext1] & _ & Hp1 & _).
  split; [exists (ext1 ++ ext); by rewrite Hh, Hext1, app_assoc|].
  split; [rewrite Hheld; unfold held; cbn [this world]; by rewrite Hp1|].
  split; [rewrite Hext0, length_app in He; lia|].
  split; [exact Hev'|]. by split.
Qed.

(** X21. On an open client, an end or error callback whose runId has a
    pending start event returns normally, removes that run id from the
    pending map (getPendingEventCount() drops by one, the other runs are
    untouched) and makes the client hold one more event: its name is the
    start event's name followed by `.completed` (end) or `.error` (error),
    its type is that of the callback's own kind, not read from the start
    event, its payload is the start event's payload with the callback's two
    properties added and winning over same-named ones, and its metadata is
    the start event's metadata plus agent_id and sdk_version. *)
Theorem finish_callback_completes_run cb hs sv ty0 name po mo :
  is_start cb = false ->
  isClosed (this (client hs)) = false ->
  pendingEvents hs !! run_id cb = Some sv ->
  event_with (heap (world (client hs))) sv ty0 name po mo ->
  exists hs' e',
    handle_cb cb hs = (Normal tt, hs') /\
    pendingEvents hs' = delete (run_id cb) (pendingEvents hs) /\
    getPendingEventCount hs' = pred (getPendingEventCount hs) /\
    held (client hs') = held (client hs) ++ [e'] /\
    event_with (heap (world (client hs'))) (VRef e') (event_type cb)
      (name ++ suffix cb)%string
      (added_fields (heap (world (client hs))) cb ∪ po)
      (<["sdk_version" := VString SDK_VERSION]>
       (<["agent_id" := string_or_undefined (agentId (this (client hs)))]> mo)).
Proof.
  intros Hfin Hopen Hsv Hstart.
  destruct (finish_callback_facts cb hs sv ty0 name po mo Hfin Hopen Hsv Hstart)
    as (s2 & e' & E & _ & Hheld & _ & Hev & _).
  eexists _, e'. split; [exact E|]. cbn [client pendingEvents].
  split; [reflexivity|].
  split; [unfold getPendingEventCount; cbn [pendingEvents];
          by rewrite map_size_delete, Hsv|].
  by split.
Qed.

(** X22. A start callback followed by an end or error callback for the same
    run id, on an open client: both return normally, the pending map ends as
    it was before the run, without that run id, and the client holds exactly
    two more events, in this order: the enriched copy of the start event and
    the completion event, named after the start event with the suffix of the
    second callback, typed by the second callback, carrying the start
    payload plus the added properties and the same metadata. *)
Theorem start_then_finish cb1 cb2 hs :
  is_start cb1 = true -> is_start cb2 = false ->
  run_id cb2 = run_id cb1 ->
  isClosed (this (client hs)) = false ->
  exists hs1 hs2 e1 e2 mo,
    handle_cb cb1 hs = (Normal tt, hs1) /\
    handle_cb cb2 hs1 = (Normal tt, hs2) /\
    pendingEvents hs2 = delete (run_id cb1) (pendingEvents hs) /\
    held (client hs2) = held (client hs) ++ [e1; e2] /\
    event_with (heap (world (client hs2))) (VRef e1) (event_type cb1) (start_name cb1)
      (start_payload (heap (world (client hs))) cb1)
      (<["sdk_version" := VString SDK_VERSION]>
       (<["agent_id" := string_or_undefined (agentId (this (client hs)))]> mo)) /\
    event_with (heap (world (client hs2))) (VRef e2) (event_type cb2)
      (start_name cb1 ++ suffix cb2)%string
      (added_fields (heap (world (client hs1))) cb2
       ∪ start_payload (heap (world (client hs))) cb1)
      (<["sdk_version" := VString SDK_VERSION]>
       (<["agent_id" := string_or_undefined (agentId (this (client hs)))]> mo)).
Proof.
  intros Hstart Hfin Hrun Hopen.
  destruct (start_callback_facts cb1 hs Hstart) as (e & w1 & mo & Ha & He & Hev & _ & E).
  destruct (track_built_event _ _ _ _ _ _ _ Hopen Hev (proj2 He))
    as (s1 & e1 & Et & [ext Hh] & Hheld & Hlt & Hev1 & Hc & Hag).
  rewrite Et in E. cbn [fst snd] in E.
  set (hs1 := mkHandler s1 (<[run_id cb1 := VRef e]> (pendingEvents hs))) in *.
  assert (Hsv : pendingEvents hs1 !! run_id cb2 = Some (VRef e)).
  { unfold hs1. cbn [pendingEvents]. rewrite Hrun. apply lookup_insert_eq. }
  assert (Hev0 : event_with (heap (world (client hs1))) (VRef e) (event_type cb1)
                   (start_name cb1) (start_payload (heap (world (client hs))) cb1) mo).
  { unfold hs1. cbn [client]. rewrite Hh. by apply event_with_extend. }
  destruct (finish_callback_facts cb2 hs1 _ _ _ _ _ Hfin Hc Hsv Hev0)
    as (s2 & e2 & E2 & [ext2 Hh2] & Hheld2 & _ & Hev2 & _).
  exists hs1, (mkHandler s2 (delete (run_id cb2) (pendingEvents hs1))), e1, e2, mo.
  split; [exact E|]. split; [exact E2|]. cbn [client pendingEvents].
  split; [unfold hs1; cbn [pendingEvents]; rewrite Hrun; apply delete_insert_eq|].
  split.
  { rewrite Hheld2. unfold hs1. cbn [client]. rewrite Hheld, <- app_assoc.
    unfold held. cbn [this world]. destruct Ha as (_ & _ & -> & _). reflexivity. }
  split.
  { rewrite Hh2. apply event_with_extend. exact Hev1. }
  unfold hs1 in Hev2. cbn [client] in Hev2. rewrite Hag in Hev2. exact Hev2.
Qed.

(** X23. On a closed client a start callback throws Error(`Cannot track
    events on closed client`), but only after it has created the event and
    stored it in the pending map: the run is left pending, with a valid
    event under runId, while the client's fields, the events it holds and
    the requests issued are unchanged. *)
Theorem start_on_closed_client_leaves_run_pending cb hs :
  is_start cb = true ->
  isClosed (this (client hs)) = true ->
  exists hs' e,
    handle_cb cb hs = (Throw (Error "Cannot track events on closed client"), hs') /\
    pendingEvents hs' = <[run_id cb := VRef e]> (pendingEvents hs) /\
    isValidEvent (heap (world (client hs'))) (VRef e) = true /\
    this (client hs') = this (client hs) /\
    held (client hs') = held (client hs) /\
    net (world (client hs')) = net (world (client hs)).
Proof.
  intros Hstart Hclosed.
  destruct (start_callback_facts cb hs Hstart) as (e & w1 & mo & Ha & He & Hev & _ & E).
  rewrite track_closed in E by exact Hclosed. cbn [fst snd] in E.
  eexists _, e. split; [exact E|]. cbn [client pendingEvents this world].
  split; [reflexivity|]. split; [by eapply event_with_valid|].
  split; [reflexivity|]. destruct Ha as (_ & Hn & Hp & _).
  split; [unfold held; cbn [this world]; by rewrite Hp|exact Hn].
Qed.

(** X24. On a closed client an end or error callback for a pending run
    throws Error(`Cannot track events on closed client`) and, since the
    delete comes after track, leaves the run pending: the pending map, the
    client's fields, the events it holds and the requests issued are
    unchanged. *)
Theorem finish_on_closed_client_keeps_run_pending cb hs sv :
  is_start cb = false ->
  isClosed (this (client hs)) = true ->
  pendingEvents hs !! run_id cb = Some sv ->
  truthy sv = true ->
  exists hs',
    handle_cb cb hs = (Throw (Error "Cannot track events on closed client"), hs') /\
    pendingEvents hs' = pendingEvents hs /\
    this (client hs') = this (client hs) /\
    held (client hs') = held (client hs) /\
    net (world (client hs')) = net (world (client hs)).
Proof.
  intros Hfin Hclosed Hsv Htr.
  assert (Htr' : truthy (default VUndefined (pendingEvents hs !! run_id cb)) = true)
    by (by rewrite Hsv).
  destruct (finish_callback_run cb hs Hfin Htr') as (w0 & Ha0 & E).
  destruct (complete_run_run (event_type cb) (suffix cb)
              (default VUndefined (pendingEvents hs !! run_id cb))
              (added_fields (heap (world (client hs))) cb) (run_id cb)
              (mkHandler (mkState (this (client hs)) w0) (pendingEvents hs)))
    as (e & w1 & Ha1 & He & _ & _ & E1).
  cbn [client pendingEvents this world] in *.
  rewrite track_closed in E1 by exact Hclosed. rewrite E1 in E.
  eexists. split; [exact E|]. cbn [client pendingEvents this world].
  split; [reflexivity|]. split; [reflexivity|].
  destruct (allocates_trans _ _ _ Ha0 Ha1) as (_ & Hn & Hp & _).
  split; [unfold held; cbn [this world]; by rewrite Hp|exact Hn].
Qed.


(** X26. After a start callback, on an open client or on a closed one where
    it throws, getPendingEventCount() is one more than before when the run
    id was not pending, and unchanged when it was: the entry of a run id
    that is started twice is replaced. *)
Theorem pending_count_after_start cb hs :
  is_start cb = true ->
  getPendingEventCount (snd (handle_cb cb hs)) =
    match pendingEvents hs !! run_id cb with
    | Some _ => getPendingEventCount hs
    | None => S (getPendingEventCount hs)
    end.
Proof.
  intros Hstart.
  destruct (start_callback_facts cb hs Hstart) as (e & w1 & mo & _ & _ & _ & _ & E).
  rewrite E. unfold getPendingEventCount. cbn [snd pendingEvents].
  rewrite map_size_insert. by destruct (pendingEvents hs !! run_id cb).
Qed.

(** X27. After clearPendingEvents(), getPendingEventCount() is 0, the client
    is untouched, and every end or error callback returns normally without
    doing anything, also for the runs that were pending. *)
Theorem cleared_handler_ignores_finishes cb hs :
  is_start cb = false ->
  getPendingEventCount (clearPendingEvents hs) = 0 /\
  client (clearPendingEvents hs) = client hs /\
  handle_cb cb (clearPendingEvents hs) = (Normal tt, clearPendingEvents hs).
Proof.
  intros Hfin. split; [reflexivity|]. split; [reflexivity|].
  apply finish_callback_skip; [exact Hfin|]. reflexivity.
Qed.

End HandlerFacts.

(* ===================================================================== *)
(** * Sample runs *)
(* ===================================================================== *)

Lemma constructor_rejects_bad_key_witness :
  Client.constructor (mkOptions "sk_live_1" None None None None None) empty_world
  = (Throw (Error "Invalid API key format. Must start with 'tsk_'"), empty_world).
Proof. apply constructor_rejects_bad_key. reflexivity. Defined.

Lemma constructor_initial_state_witness :
  exists c w',
    Client.constructor (mkOptions "tsk_live_1" None None None None None) empty_world
      = (Normal c, w') /\
    getQueueSize c = 0 /\
    baseUrl c = "https://api.trusera.io"%string /\
    batchSize c = 100%Z /\ flushInterval c = 5000%Z /\
    flushTimer c = Some 0.
Proof.
  destruct (constructor_initial_state
              (mkOptions "tsk_live_1" None None None None None) empty_world)
    as (c & w' & E & Hq & _ & _ & _ & Hu & Hb & Hf & Ht & _).
  - reflexivity.
  - exists c, w'. repeat split; assumption.
Defined.

Lemma client_holds_valid_events_witness :
  let event := fst (Scenario.with_created 2) in
  let s := snd (Scenario.with_created 2) in
  holds_valid_events
    (run_ops env_500 registration_body
       [OpTrack event; OpTrack event; OpFlush; OpSettle 0; OpClose] s).
Proof.
  intros event s. apply client_holds_valid_events.
  - apply Forall_nil_2.
  - repeat (apply Forall_cons; split; [first [exact I | vm_compute; reflexivity]|]).
    apply Forall_nil_2.
Defined.




Lemma constructor_close_releases_timer_witness :
  exists c w1 s2,
    Client.constructor (options 100) empty_world = (Normal c, w1) /\
    0 ∈ timers w1 /\
    close env_ok (mkState c w1) = (Normal tt, s2) /\
    timers (world s2) = ∅ /\
    net (world s2) = [].
Proof.
  apply (constructor_close_releases_timer env_ok (options 100) empty_world).
  - reflexivity.
  - intros t Ht. by apply not_elem_of_empty in Ht.
Defined.

Lemma flushes_drain_from_head_witness :
  let s' := run_ops env_ok registration_body (replicate 3 OpFlush) backlog in
  eventQueue (this s') = [] /\ getQueueSize (this s') = 0.
Proof.
  intros s'.
  destruct (flushes_drain_from_head env_ok registration_body 3 backlog) as [Hq Hz].
  - intros s0. reflexivity.
  - vm_compute. discriminate.
  - split; [exact Hq|]. apply Hz. simpl. lia.
Defined.

Lemma overlapping_failed_flushes_swap_batches_witness :
  let s1 := snd (void_flush env_down backlog) in
  let s2 := snd (void_flush env_down s1) in
  let s3 := snd (settle env_down 0 s2) in
  let s4 := snd (settle env_down 0 s3) in
  eventQueue (this s2) = [4] /\
  length (pending (world s2)) = 2 /\
  eventQueue (this s4) = [2; 3; 0; 1; 4] /\
  pending (world s4) = [].
Proof.
  apply (overlapping_failed_flushes_swap_batches env_down backlog).
  - reflexivity.
  - vm_compute. discriminate.
  - simpl. lia.
  - intros batch. eexists. reflexivity.
  - intros n req. eexists. reflexivity.
Defined.

Lemma registerAgent_stores_agent_id_witness :
  exists s',
    registerAgent env_ok registration_body "bot" "langchain" (new_client 100)
      = (Normal (Some "agent-456"), s') /\
    getAgentId (this s') = Some "agent-456" /\
    eventQueue (this s') = eventQueue (this (new_client 100)).
Proof.
  destruct (registerAgent_stores_agent_id env_ok registration_body "bot" "langchain"
              (new_client 100) response_200 (Some "agent-456"))
    as (s' & E & Ha & Hq & _).
  - reflexivity.
  - reflexivity.
  - reflexivity.
  - exists s'. split; [exact E|]. split; [exact Ha|exact Hq].
Defined.

Lemma registerAgent_failure_keeps_client_witness :
  exists w',
    registerAgent env_500 registration_body "bot" "langchain" (new_client 100)
    = (Throw (Error ("Failed to register agent: " ++ pretty 500%Z ++ " "
                     ++ "Internal Server Error")%string),
       mkState (this (new_client 100)) w').
Proof.
  destruct (registerAgent_failure_keeps_client env_500 registration_body
              "bot" "langchain" (new_client 100)) as [H _].
  destruct (H response_500 "Internal Server Error"%string) as (w' & E & _).
  - reflexivity.
  - reflexivity.
  - reflexivity.
  - exists w'. exact E.
Defined.


Lemma track_createEvent_witness :
  exists e w1 s2,
    createEvent env_ok TOOL_CALL "github.search" None None (world (new_client 100))
      = (Normal (VRef e), w1) /\
    track env_ok (VRef e) (mkState (this (new_client 100)) w1) = (Normal tt, s2) /\
    held s2 = held (new_client 100) ++ [length (heap w1) + 1] /\
    holds_valid_events s2.
Proof.
  apply (track_createEvent env_ok TOOL_CALL "github.search" None None (new_client 100)).
  - reflexivity.
  - apply Forall_nil_2.
Defined.

Lemma handler_keeps_events_valid_witness :
  let hs := handle_all env_ok Scenario.object_to_string Scenario.Object_keys
              [Scenario.tool_start; Scenario.llm_error; Scenario.tool_end]
              Scenario.handler in
  holds_valid_events (client hs) /\ pending_valid hs.
Proof.
  intros hs. apply handler_keeps_events_valid.
  - apply Forall_nil_2.
  - apply map_Forall_empty.
Defined.

Lemma start_callback_registers_run_witness :
  exists hs' e,
    Scenario.handle Scenario.tool_start Scenario.handler = (Normal tt, hs') /\
    pendingEvents hs' !! "run-1" = Some (VRef e) /\
    isValidEvent (heap (world (client hs'))) (VRef e) = true.
Proof.
  destruct (start_callback_registers_run env_ok Scenario.object_to_string
              Scenario.Object_keys Scenario.tool_start Scenario.handler)
    as (hs' & e & e' & mo & E & Hp & _ & _ & Hev & _).
  - reflexivity.
  - reflexivity.
  - exists hs', e. split; [exact E|]. split.
    + rewrite Hp. apply lookup_insert_eq.
    + destruct Hev as (e0 & id & p & m & ts & [= <-] & He & _).
      exact (isValidEvent_event_object _ _ _ _ _ _ _ _ He).
Defined.

Lemma finish_unknown_run_is_noop_witness :
  Scenario.handle Scenario.tool_end Scenario.handler = (Normal tt, Scenario.handler).
Proof.
  apply (finish_unknown_run_is_noop env_ok Scenario.object_to_string
           Scenario.Object_keys Scenario.tool_end Scenario.handler).
  - reflexivity.
  - reflexivity.
Defined.

Lemma running_tool_event :
  event_with (heap (world (client Scenario.running))) (VRef 5) TOOL_CALL
    "langchain.tool.search"
    (start_payload [] Scenario.tool_start)
    (run_metadata "run-1" None 1).
Proof.
  exists 5, "uuid-0"%string, 3, 4, "2026-01-01T00:00:00.0Z"%string.
  split; [reflexivity|]. repeat split; vm_compute; reflexivity.
Qed.

Lemma finish_callback_completes_run_witness :
  exists hs' e',
    Scenario.handle Scenario.tool_end Scenario.running = (Normal tt, hs') /\
    pendingEvents hs' = delete "run-1" (pendingEvents Scenario.running) /\
    held (client hs') = held (client Scenario.running) ++ [e'] /\
    isValidEvent (heap (world (client hs'))) (VRef e') = true.
Proof.
  destruct (finish_callback_completes_run env_ok Scenario.object_to_string
              Scenario.Object_keys Scenario.tool_end Scenario.running (VRef 5)
              TOOL_CALL "langchain.tool.search"
              (start_payload [] Scenario.tool_start) (run_metadata "run-1" None 1))
    as (hs' & e' & E & Hp & _ & Hheld & Hev).
  - reflexivity.
  - reflexivity.
  - reflexivity.
  - exact running_tool_event.
  - exists hs', e'. split; [exact E|]. split; [exact Hp|]. split; [exact Hheld|].
    destruct Hev as (e0 & id & p & m & ts & [= <-] & He & _).
    exact (isValidEvent_event_object _ _ _ _ _ _ _ _ He).
Defined.

Lemma start_then_finish_witness :
  exists hs1 hs2 e1 e2 po mo,
    Scenario.handle Scenario.tool_start Scenario.handler = (Normal tt, hs1) /\
    Scenario.handle Scenario.llm_error hs1 = (Normal tt, hs2) /\
    pendingEvents hs2 = delete "run-1" (pendingEvents Scenario.handler) /\
    held (client hs2) = held (client Scenario.handler) ++ [e1; e2] /\
    event_with (heap (world (client hs2))) (VRef e2) LLM_INVOKE
      "langchain.tool.search.error" po mo.
Proof.
  destruct (start_then_finish env_ok Scenario.object_to_string Scenario.Object_keys
              Scenario.tool_start Scenario.llm_error Scenario.handler)
    as (hs1 & hs2 & e1 & e2 & mo & E1 & E2 & Hp & Hheld & _ & Hev).
  - reflexivity.
  - reflexivity.
  - reflexivity.
  - reflexivity.
  - exists hs1, hs2, e1, e2. do 2 eexists.
    split; [exact E1|]. split; [exact E2|]. split; [exact Hp|].
    split; [exact Hheld|exact Hev].
Defined.

Lemma start_on_closed_client_leaves_run_pending_witness :
  exists hs' e,
    Scenario.handle Scenario.tool_start Scenario.closed_handler
      = (Throw (Error "Cannot track events on closed client"), hs') /\
    pendingEvents hs' = <["run-1" := VRef e]> (pendingEvents Scenario.closed_handler) /\
    held (client hs') = held (client Scenario.closed_handler).
Proof.
  destruct (start_on_closed_client_leaves_run_pending env_ok Scenario.object_to_string
              Scenario.Object_keys Scenario.tool_start Scenario.closed_handler)
    as (hs' & e & E & Hp & _ & _ & Hheld & _).
  - reflexivity.
  - reflexivity.
  - exists hs', e. split; [exact E|]. split; [exact Hp|exact Hheld].
Defined.

Lemma finish_on_closed_client_keeps_run_pending_witness :
  exists hs',
    Scenario.handle Scenario.tool_end Scenario.closed_running
      = (Throw (Error "Cannot track events on closed client"), hs') /\
    pendingEvents hs' = pendingEvents Scenario.closed_running /\
    held (client hs') = held (client Scenario.closed_running).
Proof.
  destruct (finish_on_closed_client_keeps_run_pending env_ok Scenario.object_to_string
              Scenario.Object_keys Scenario.tool_end Scenario.closed_running (VRef 5))
    as (hs' & E & Hp & _ & Hheld & _).
  - reflexivity.
  - reflexivity.
  - reflexivity.
  - reflexivity.
  - exists hs'. split; [exact E|]. split; [exact Hp|exact Hheld].
Defined.


Lemma pending_count_after_start_witness :
  getPendingEventCount (snd (Scenario.handle Scenario.tool_start Scenario.running)) = 1 /\
  getPendingEventCount (snd (Scenario.handle Scenario.tool_start Scenario.handler)) = 1.
Proof.
  split.
  - unfold Scenario.handle.
    rewrite (pending_count_after_start env_ok Scenario.object_to_string
               Scenario.Object_keys Scenario.tool_start Scenario.running eq_refl).
    reflexivity.
  - unfold Scenario.handle.
    rewrite (pending_count_after_start env_ok Scenario.object_to_string
               Scenario.Object_keys Scenario.tool_start Scenario.handler eq_refl).
    reflexivity.
Defined.

Lemma cleared_handler_ignores_finishes_witness :
  getPendingEventCount (clearPendingEvents Scenario.running) = 0 /\
  client (clearPendingEvents Scenario.running) = client Scenario.running /\
  Scenario.handle Scenario.tool_end (clearPendingEvents Scenario.running)
    = (Normal tt, clearPendingEvents Scenario.running).
Proof.
  apply (cleared_handler_ignores_finishes env_ok Scenario.object_to_string
           Scenario.Object_keys Scenario.tool_end Scenario.running).
  reflexivity.
Defined.
